(** * credit_risk_functions: descriptive statistics and outlier scoring

    A shallow embedding of the four analysis routines of the repository

      - [detect_outliers_isolation_forest]  (diagnosys/detect_outliers_multivariate.py)
      - [proc_univariate]                   (diagnosys/proc_univariate.py)
      - [class_conditional_distribution]    (diagnosys/class_conditional_descriptive_statistics.py)
      - [stat_explore]                      (diagnosys/stat_explore.py)

    together with the parts of pandas, numpy, scipy and scikit-learn they
    call.

    Numbers.  A Python float is modelled by an exact rational ([Q]); NaN is
    the missing cell [None].  Rounding, overflow and infinities are outside
    the model.  Statistics whose value is irrational in general (standard
    deviation and what is derived from it: coefficient of variation,
    standard error, t test; skewness; the signed-rank test) are therefore
    not fields of the result records below; everything the routines compute
    with the four field operations is.  The reports the routines print are
    not modelled, only the values they return; a result [inr] says what the
    call returns when these steps go through.

    Columns.  A numeric column is a column of floats.  Columns of an integer
    dtype, on which numpy computes modulo 2^64, are not modelled;
    proc_univariate is modelled on a Series of dtype object as well, on which
    it raises.

    Collaborators.  numpy's [argsort] with the default [kind='quicksort'] and
    the scikit-learn estimator are interfaces ([SortKind], [IsolationForest])
    that carry what their documentation promises; the routines are
    parametric in them.  Concrete instances are given with the definitions:
    a stable sort, numpy's scalar quicksort kernel, and a toy estimator. *)

From Stdlib Require Import String List ZArith QArith Qround Qabs Lia Lqa.
From Stdlib Require Import Permutation Sorted Bool Arith PeanoNat.
From Stdlib Require Import OrderedTypeEx Qpower.
Import ListNotations.

(** ** Tabular data *)

(** A numeric cell; [None] is NaN. *)
Definition cell := option Q.

Inductive column :=
| Numeric (vs : list cell)
| Object (vs : list (option string)).

Record DataFrame := mkDataFrame {
  df_index : list Z;                       (* row labels *)
  df_columns : list (string * column)      (* columns, in order *)
}.

(** A pandas Series: (label, value) pairs in row order. *)
Definition Series := list (Z * cell).

(** The exceptions the routines end in.  [KeyError] carries the argument
    of the exception; a [TypeError] or [EstimatorError] stands for the
    exception of that class, whose message (the library's) is not modelled:
    the argument of [TypeError] names the column at fault. *)
Inductive exn :=
| ValueError_missing_columns (missing : list string)
| ValueError_length_mismatch
| ValueError_no_valid_observations
| ValueError_no_numeric_columns
| KeyError (name : string)
| TypeError (name : string)
| TypeError_not_numeric
| EstimatorError (msg : string)
| NullReference.

Definition result (A : Type) := (exn + A)%type.

Definition isnull (c : cell) : bool :=
  match c with None => true | Some _ => false end.
Definition notnull (c : cell) : bool := negb (isnull c).

Definition column_length (c : column) : nat :=
  match c with Numeric vs => length vs | Object vs => length vs end.

Definition nrows (df : DataFrame) : nat := length (df_index df).

(** [name in df.columns] *)
Definition has_column (df : DataFrame) (name : string) : bool :=
  existsb (fun kv => String.eqb (fst kv) name) (df_columns df).

(** [df[name]] *)
Fixpoint lookup_column (cols : list (string * column)) (name : string)
  : option column :=
  match cols with
  | [] => None
  | (k, c) :: rest => if String.eqb k name then Some c else lookup_column rest name
  end.

Definition get_column (df : DataFrame) (name : string) : option column :=
  lookup_column (df_columns df) name.

(** Positional selection of the rows [indexer] of a column ([take]). *)
Definition column_take (indexer : list nat) (c : column) : column :=
  match c with
  | Numeric vs => Numeric (map (fun i => nth i vs None) indexer)
  | Object vs => Object (map (fun i => nth i vs None) indexer)
  end.

Definition take (indexer : list nat) (df : DataFrame) : DataFrame :=
  {| df_index := map (fun i => nth i (df_index df) 0%Z) indexer;
     df_columns := map (fun kv => (fst kv, column_take indexer (snd kv)))
                       (df_columns df) |}.

(** [df.reset_index(drop=True)]: the labels become 0..n-1. *)
Definition reset_index_drop (df : DataFrame) : DataFrame :=
  {| df_index := map Z.of_nat (seq 0 (nrows df));
     df_columns := df_columns df |}.

(** [df[name] = values] on an existing frame: replaces the column in place
    when the name exists, appends it otherwise; a length mismatch raises. *)
Fixpoint set_column (cols : list (string * column)) (name : string)
  (c : column) : list (string * column) :=
  match cols with
  | [] => [(name, c)]
  | (k, c0) :: rest =>
      if String.eqb k name then (k, c) :: rest
      else (k, c0) :: set_column rest name c
  end.

Definition setitem (df : DataFrame) (name : string) (c : column)
  : result DataFrame :=
  if Nat.eqb (column_length c) (nrows df)
  then inr {| df_index := df_index df;
              df_columns := set_column (df_columns df) name c |}
  else inl ValueError_length_mismatch.

(** ** Sorting: numpy's argsort and pandas' nargsort *)

(** [values.argsort(kind='quicksort')], the default sort of numpy and
    pandas. *)
Class SortKind := { argsort : list Q -> list nat }.

(** What numpy documents for it: some permutation of the positions that puts
    the values in non-decreasing order.  Nothing is promised about the
    relative order of equal values (only 'mergesort' and 'stable' are
    stable). *)
Class SortKindLaws (S : SortKind) : Prop := {
  argsort_perm : forall xs, Permutation (argsort xs) (seq 0 (length xs));
  argsort_sorted : forall xs,
    StronglySorted (fun i j => (nth i xs 0 <= nth j xs 0)%Q) (argsort xs)
}.

Definition non_nan_positions (items : list cell) : list nat :=
  filter (fun i => notnull (nth i items None)) (seq 0 (length items)).

Definition nan_positions (items : list cell) : list nat :=
  filter (fun i => isnull (nth i items None)) (seq 0 (length items)).

Fixpoint dropna_values (items : list cell) : list Q :=
  match items with
  | [] => []
  | Some q :: rest => q :: dropna_values rest
  | None :: rest => dropna_values rest
  end.

(** pandas.core.sorting.nargsort with [na_position='last']: for a
    descending sort the non-missing values are reversed, sorted ascending,
    and the result is reversed again. *)
Definition nargsort `{SortKind} (ascending : bool) (items : list cell)
  : list nat :=
  let non_nans := dropna_values items in
  let non_nan_idx := non_nan_positions items in
  let non_nans := if ascending then non_nans else rev non_nans in
  let non_nan_idx := if ascending then non_nan_idx else rev non_nan_idx in
  let indexer := map (fun k => nth k non_nan_idx 0%nat) (argsort non_nans) in
  let indexer := if ascending then indexer else rev indexer in
  indexer ++ nan_positions items.

(** [df.sort_values(by, ascending=...)] *)
Definition sort_values `{SortKind} (df : DataFrame) (by_ : string)
  (ascending : bool) : result DataFrame :=
  match get_column df by_ with
  | None => inl (KeyError by_)
  | Some (Object _) => inl (TypeError by_)
  | Some (Numeric vs) => inr (take (nargsort ascending vs) df)
  end.

(** Insertion argsort, parametric in the test that lets a position go in
    front of another one. *)
Fixpoint insert_position (before : Q -> Q -> bool) (xs : list Q) (i : nat)
  (l : list nat) : list nat :=
  match l with
  | [] => [i]
  | j :: l' =>
      if before (nth i xs 0) (nth j xs 0) then i :: j :: l'
      else j :: insert_position before xs i l'
  end.

Definition insertion_argsort (before : Q -> Q -> bool) (xs : list Q)
  : list nat :=
  fold_right (insert_position before xs) [] (seq 0 (length xs)).

(** Goes in front of an equal value: ties keep their original order. *)
Definition before_le (a b : Q) : bool := Qle_bool a b.

(** A sort that meets the documentation of [argsort] (and is stable). *)
Definition stable_sort : SortKind :=
  {| argsort := insertion_argsort before_le |}.

(** ** The isolation-forest estimator (scikit-learn) *)

Record params := mkParams {
  contamination : Q;
  n_estimators : Z;
  random_state : Z
}.

(** The estimator works on an array: the values of the feature columns
    (with their names); the row labels of the frame are dropped by the
    conversion. *)
Definition matrix := list (string * column).

Definition to_array (X : DataFrame) : matrix := df_columns X.

Class IsolationForest := {
  model : Type;
  fit : params -> matrix -> result model;
  decision_function : model -> matrix -> list Q;
  predict : model -> matrix -> list Z        (* 1 normal, -1 outlier *)
}.

(** The estimator validates its input: a feature matrix without columns is
    rejected. *)
Class IsolationForestLaws (E : IsolationForest) : Prop := {
  fit_requires_feature : forall p, exists e, fit p [] = inl e
}.

(** ** Objects, references and effects *)

Definition loc := nat.

Inductive event := Fit (p : params) (X : matrix).

Record World := mkWorld {
  heap : list DataFrame;       (* the frames alive, by reference *)
  trace : list event           (* calls made to the estimator *)
}.

Definition M (A : Type) := World -> result A * World.

Definition ret {A} (a : A) : M A := fun w => (inr a, w).
Definition raise {A} (e : exn) : M A := fun w => (inl e, w).
Definition bind {A B} (m : M A) (k : A -> M B) : M B :=
  fun w => match m w with
           | (inl e, w') => (inl e, w')
           | (inr a, w') => k a w'
           end.
Definition lift {A} (r : result A) : M A := fun w => (r, w).

Notation "x <- m ;; k" := (bind m (fun x => k))
  (at level 61, m at next level, right associativity).
Notation "m ;;; k" := (bind m (fun _ => k))
  (at level 61, right associativity).

Definition deref (l : loc) : M DataFrame :=
  fun w => match nth_error (heap w) l with
           | Some d => (inr d, w)
           | None => (inl NullReference, w)
           end.

(** A new object; its reference is the next free one. *)
Definition alloc (d : DataFrame) : M loc :=
  fun w => (inr (length (heap w)),
            {| heap := heap w ++ [d]; trace := trace w |}).

Fixpoint update_nth {A} (l : list A) (i : nat) (a : A) : list A :=
  match l, i with
  | [], _ => []
  | _ :: t, O => a :: t
  | h :: t, S i' => h :: update_nth t i' a
  end.

Definition store (l : loc) (d : DataFrame) : M unit :=
  fun w => (inr tt, {| heap := update_nth (heap w) l d; trace := trace w |}).

Definition emit (e : event) : M unit :=
  fun w => (inr tt, {| heap := heap w; trace := trace w ++ [e] |}).

(** [df[features]]: a new frame with the named columns, in that order. *)
Fixpoint select_columns (cols : list (string * column))
  (features : list string) : result (list (string * column)) :=
  match features with
  | [] => inr []
  | f :: rest =>
      match lookup_column cols f with
      | None => inl (KeyError f)
      | Some c =>
          match select_columns cols rest with
          | inl e => inl e
          | inr cs => inr ((f, c) :: cs)
          end
      end
  end.

Definition getitem_list (l : loc) (features : list string) : M loc :=
  d <- deref l ;;
  cs <- lift (select_columns (df_columns d) features) ;;
  alloc {| df_index := df_index d; df_columns := cs |}.

(** [df.copy()] *)
Definition copy (l : loc) : M loc :=
  d <- deref l ;; alloc d.

(** [df[name] = values], in place. *)
Definition setitem_inplace (l : loc) (name : string) (c : column) : M unit :=
  d <- deref l ;;
  d' <- lift (setitem d name c) ;;
  store l d'.

(** ** numpy's quicksort kernel

    [numpy/_core/src/npysort/quicksort.cpp], [aquicksort_], and
    [heapsort.cpp], [aheapsort_]: the introsort that
    [argsort(kind='quicksort')] runs on an array of doubles where numpy
    dispatches no vectorised kernel.  [a] is the array [tosort] of
    positions; a pointer into it is its offset.  The values hold no NaN
    ([nargsort] takes them out first), so [Tag::less] is [<]. *)

Definition SMALL_QUICKSORT : Z := 16.

Definition DOUBLE_LT (x y : Q) : bool := negb (Qle_bool y x).

(** [*p] *)
Definition deref_at (a : list nat) (p : Z) : nat := nth (Z.to_nat p) a 0%nat.
(** [v[*p]] *)
Definition key_at (v : list Q) (a : list nat) (p : Z) : Q :=
  nth (deref_at a p) v 0.
(** [*p = x] *)
Definition assign (a : list nat) (p : Z) (x : nat) : list nat :=
  update_nth a (Z.to_nat p) x.
(** [tmp = *q; *q = *p; *p = tmp] *)
Definition INTP_SWAP (a : list nat) (p q : Z) : list nat :=
  let tmp := deref_at a q in
  assign (assign a q (deref_at a p)) p tmp.

(** [do ++pi; while (v[*pi] < vp)] *)
Fixpoint scan_up (fuel : nat) (v : list Q) (a : list nat) (vp : Q) (pi : Z)
  : Z :=
  match fuel with
  | O => pi
  | S fuel' =>
      let pi := (pi + 1)%Z in
      if DOUBLE_LT (key_at v a pi) vp then scan_up fuel' v a vp pi else pi
  end.

(** [do --pj; while (vp < v[*pj])] *)
Fixpoint scan_down (fuel : nat) (v : list Q) (a : list nat) (vp : Q) (pj : Z)
  : Z :=
  match fuel with
  | O => pj
  | S fuel' =>
      let pj := (pj - 1)%Z in
      if DOUBLE_LT vp (key_at v a pj) then scan_down fuel' v a vp pj else pj
  end.

(** [for (;;) { scan up; scan down; if (pi >= pj) break; swap }] *)
Fixpoint partition_scan (fuel : nat) (v : list Q) (a : list nat) (vp : Q)
  (pi pj : Z) : list nat * Z :=
  match fuel with
  | O => (a, pi)
  | S fuel' =>
      let pi := scan_up (length a) v a vp pi in
      let pj := scan_down (length a) v a vp pj in
      if (pj <=? pi)%Z then (a, pi)
      else partition_scan fuel' v (INTP_SWAP a pi pj) vp pi pj
  end.

(** One partition of [pl .. pr] around the median of three; gives the
    array and the place [pi] of the pivot. *)
Definition quicksort_partition (v : list Q) (a : list nat) (pl pr : Z)
  : list nat * Z :=
  let pm := (pl + Z.shiftr (pr - pl) 1)%Z in
  let a := if DOUBLE_LT (key_at v a pm) (key_at v a pl)
           then INTP_SWAP a pm pl else a in
  let a := if DOUBLE_LT (key_at v a pr) (key_at v a pm)
           then INTP_SWAP a pr pm else a in
  let a := if DOUBLE_LT (key_at v a pm) (key_at v a pl)
           then INTP_SWAP a pm pl else a in
  let vp := key_at v a pm in
  let pi := pl in
  let pj := (pr - 1)%Z in
  let a := INTP_SWAP a pm pj in
  let '(a, pi) := partition_scan (length a) v a vp pi pj in
  let pk := (pr - 1)%Z in
  (INTP_SWAP a pi pk, pi).

(** [while (pj > pl && vp < v[*pk]) { *pj-- = *pk--; }] *)
Fixpoint shift_up (fuel : nat) (v : list Q) (a : list nat) (vp : Q)
  (pl pj : Z) : list nat * Z :=
  match fuel with
  | O => (a, pj)
  | S fuel' =>
      let pk := (pj - 1)%Z in
      if (pl <? pj)%Z && DOUBLE_LT vp (key_at v a pk)
      then shift_up fuel' v (assign a pj (deref_at a pk)) vp pl (pj - 1)%Z
      else (a, pj)
  end.

(** [for (pi = pl + 1; pi <= pr; ++pi)], [count] rounds left. *)
Fixpoint insertion_loop (count : nat) (v : list Q) (a : list nat)
  (pl pi : Z) : list nat :=
  match count with
  | O => a
  | S count' =>
      let vi := deref_at a pi in
      let vp := nth vi v 0 in
      let '(a, pj) := shift_up (length a) v a vp pl pi in
      insertion_loop count' v (assign a pj vi) pl (pi + 1)%Z
  end.

Definition insertion_sort (v : list Q) (a : list nat) (pl pr : Z)
  : list nat :=
  insertion_loop (Z.to_nat (pr - pl)) v a pl (pl + 1)%Z.

(** The sift of [aheapsort_] on the [n] cells from [base]; the heap is
    indexed from 1, cell [i] of it is [base + i - 1]. *)
Fixpoint heap_sift (fuel : nat) (v : list Q) (a : list nat) (base : Z)
  (tmp : nat) (n i j : Z) : list nat * Z :=
  match fuel with
  | O => (a, i)
  | S fuel' =>
      if (j <=? n)%Z then
        let cell_ k := (base + k - 1)%Z in
        let j := if (j <? n)%Z
                    && DOUBLE_LT (key_at v a (cell_ j))
                                 (key_at v a (cell_ (j + 1)%Z))
                 then (j + 1)%Z else j in
        if DOUBLE_LT (nth tmp v 0) (key_at v a (cell_ j))
        then heap_sift fuel' v (assign a (cell_ i) (deref_at a (cell_ j)))
                       base tmp n j (j + j)%Z
        else (a, i)
      else (a, i)
  end.

(** [for (l = n >> 1; l > 0; --l)] *)
Fixpoint heap_build (count : nat) (v : list Q) (a : list nat) (base n l : Z)
  : list nat :=
  match count with
  | O => a
  | S count' =>
      let tmp := deref_at a (base + l - 1)%Z in
      let '(a, i) := heap_sift (length a) v a base tmp n l (Z.shiftl l 1) in
      heap_build count' v (assign a (base + i - 1)%Z tmp) base n (l - 1)%Z
  end.

(** [for (; n > 1;)] *)
Fixpoint heap_drain (count : nat) (v : list Q) (a : list nat) (base n : Z)
  : list nat :=
  match count with
  | O => a
  | S count' =>
      let tmp := deref_at a (base + n - 1)%Z in
      let a := assign a (base + n - 1)%Z (deref_at a base) in
      let n := (n - 1)%Z in
      let '(a, i) := heap_sift (length a) v a base tmp n 1%Z 2%Z in
      heap_drain count' v (assign a (base + i - 1)%Z tmp) base n
  end.

Definition aheapsort (v : list Q) (a : list nat) (base n : Z) : list nat :=
  let a := heap_build (Z.to_nat (Z.shiftr n 1)) v a base n (Z.shiftr n 1) in
  heap_drain (Z.to_nat (n - 1)) v a base n.

(** [while ((pr - pl) > SMALL_QUICKSORT)]: partition, push the larger part
    with the depth left, go on with the smaller one. *)
Fixpoint partition_loop (fuel : nat) (v : list Q) (a : list nat)
  (pl pr cdepth : Z) (stack : list (Z * Z * Z))
  : list nat * Z * Z * list (Z * Z * Z) :=
  match fuel with
  | O => (a, pl, pr, stack)
  | S fuel' =>
      if (SMALL_QUICKSORT <? pr - pl)%Z then
        let '(a, pi) := quicksort_partition v a pl pr in
        let cdepth := (cdepth - 1)%Z in
        if (pi - pl <? pr - pi)%Z
        then partition_loop fuel' v a pl (pi - 1)%Z cdepth
                            ((pi + 1, pr, cdepth)%Z :: stack)
        else partition_loop fuel' v a (pi + 1)%Z pr cdepth
                            ((pl, pi - 1, cdepth)%Z :: stack)
      else (a, pl, pr, stack)
  end.

(** [while (1)]: heapsort when the depth is used up, else partitions and
    an insertion sort of what is left; then the next part on the stack. *)
Fixpoint quicksort_loop (fuel : nat) (v : list Q) (a : list nat)
  (pl pr cdepth : Z) (stack : list (Z * Z * Z)) : list nat :=
  match fuel with
  | O => a
  | S fuel' =>
      let '(a, stack) :=
        if (cdepth <? 0)%Z
        then (aheapsort v a pl (pr - pl + 1)%Z, stack)
        else
          let '(a, pl, pr, stack) :=
            partition_loop (length a) v a pl pr cdepth stack in
          (insertion_sort v a pl pr, stack) in
      match stack with
      | [] => a
      | (pl, pr, cdepth) :: stack =>
          quicksort_loop fuel' v a pl pr cdepth stack
      end
  end.

Definition aquicksort (v : list Q) (tosort : list nat) : list nat :=
  let num := Z.of_nat (length tosort) in
  let cdepth := (Z.log2 num * 2)%Z in
  quicksort_loop (S (length tosort)) v tosort 0%Z (num - 1)%Z cdepth [].

(** [np.argsort(xs, kind='quicksort')] with this kernel. *)
Definition numpy_quicksort : SortKind :=
  {| argsort xs := aquicksort xs (seq 0 (length xs)) |}.

(** ** detect_outliers_multivariate.py *)

(** [-iso.decision_function(X)]: higher = more anomalous. *)
Definition score_column `{IsolationForest} (m : model) (X : matrix)
  : column :=
  Numeric (map (fun s => Some (- s)%Q) (decision_function m X)).

(** [(flags == -1).astype(int)]: -1 (outlier) -> 1, 1 (normal) -> 0. *)
Definition flag_column `{IsolationForest} (m : model) (X : matrix)
  : column :=
  Numeric (map (fun f => Some (if Z.eqb f (-1) then 1 else 0)%Q)
               (predict m X)).

Definition detect_outliers_isolation_forest `{SortKind} `{IsolationForest}
  (df : loc) (features : list string)
  (contamination : Q) (n_estimators : Z) (random_state : Z) : M loc :=
  d <- deref df ;;
  (* Validate feature columns *)
  (if negb (forallb (has_column d) features)
   then raise (ValueError_missing_columns
                 (filter (fun col => negb (has_column d col)) features))
   else ret tt) ;;;
  sel <- getitem_list df features ;;
  X <- copy sel ;;
  (* Train Isolation Forest model *)
  let iso := mkParams contamination n_estimators random_state in
  Xd <- deref X ;;
  let Xv := to_array Xd in
  emit (Fit iso Xv) ;;;
  m <- lift (fit iso Xv) ;;
  (* Compute anomaly scores and flags *)
  df_result <- copy df ;;
  setitem_inplace df_result "outlier_score" (score_column m Xv) ;;;
  setitem_inplace df_result "outlier_flag" (flag_column m Xv) ;;;
  r <- deref df_result ;;
  sorted <- lift (sort_values r "outlier_score" false) ;;
  sorted_ref <- alloc sorted ;;
  alloc (reset_index_drop sorted).

(** What the routine promises about its result, with the rule for rows of
    equal score left open: the returned table has as many rows as the input
    and holds the input columns and the two new columns, all reordered by
    one permutation [indexer] of the row positions that puts the scores in
    descending order. *)
Definition rows_by_descending_score
  (tie_rule : list Q -> list nat -> Prop)
  (S : SortKind) (E : IsolationForest) : Prop :=
  forall w df d features c k r ret w',
    nth_error (heap w) df = Some d ->
    detect_outliers_isolation_forest df features c k r w = (inr ret, w') ->
    exists t scores flags indexer,
      nth_error (heap w') ret = Some t /\
      nrows t = nrows d /\
      Permutation indexer (seq 0 (nrows d)) /\
      df_columns t =
        map (fun kv => (fst kv, column_take indexer (snd kv)))
            (set_column
               (set_column (df_columns d) "outlier_score"
                           (Numeric (map Some scores)))
               "outlier_flag" flags) /\
      get_column t "outlier_score" =
        Some (Numeric (map Some (map (fun i => nth i scores 0) indexer))) /\
      StronglySorted (fun a b => (b <= a)%Q)
                     (map (fun i => nth i scores 0) indexer) /\
      tie_rule scores indexer.

(** Stable sort: rows of equal score stay in their original order. *)
Definition ties_keep_order (scores : list Q) (indexer : list nat) : Prop :=
  forall p q, (p < q < length indexer)%nat ->
    (nth (nth p indexer 0%nat) scores 0 == nth (nth q indexer 0%nat) scores 0)%Q ->
    (nth p indexer 0 < nth q indexer 0)%nat.

(** No promise on rows of equal score. *)
Definition ties_in_any_order (scores : list Q) (indexer : list nat) : Prop :=
  True.

(** ** Reducers of pandas, numpy and scipy on the non-missing values *)

Definition Qnat (k : nat) : Q := inject_Z (Z.of_nat k).

Definition Qsum (l : list Q) : Q := fold_right Qplus 0 l.

Definition cell_map2 (f : Q -> Q -> Q) (a b : cell) : cell :=
  match a, b with
  | Some x, Some y => Some (f x y)
  | _, _ => None
  end.

Definition Qgt0_bool (x : Q) : bool := negb (Qle_bool x 0).

(** [np.sort(values)] *)
Definition np_sort `{SortKind} (xs : list Q) : list Q :=
  map (fun i => nth i xs 0) (argsort xs).

(** The non-missing values in the order [nargsort] puts them. *)
Definition sorted_values `{SortKind} (ascending : bool) (xs : list Q)
  : list Q :=
  if ascending then np_sort xs else rev (np_sort (rev xs)).

(** [s.mean()]: the exact quotient; the float the code gets is this
    number up to rounding (and can leave the range of the values by an
    ulp). *)
Definition Series_mean (xs : list Q) : cell :=
  match xs with
  | [] => None
  | _ => Some (Qsum xs / Qnat (length xs))
  end.

(** [s.min()], [s.max()] *)
Definition Series_min (xs : list Q) : cell :=
  match xs with
  | [] => None
  | x :: t => Some (fold_left (fun m y => if Qle_bool y m then y else m) t x)
  end.

Definition Series_max (xs : list Q) : cell :=
  match xs with
  | [] => None
  | x :: t => Some (fold_left (fun m y => if Qle_bool m y then y else m) t x)
  end.

(** [s.median()]: the middle order statistic, or the mean of the two middle
    ones. *)
Definition Series_median `{SortKind} (xs : list Q) : cell :=
  match xs with
  | [] => None
  | _ =>
      let s := np_sort xs in
      let k := length xs in
      if Nat.even k
      then Some ((nth (k / 2 - 1) s 0 + nth (k / 2) s 0) / 2)
      else Some (nth (k / 2) s 0)
  end.

(** numpy's linear interpolation at the virtual index [h] of a sorted
    array: between the order statistic at the floor of [h] and the next
    one. *)
Definition interpolate (s : list Q) (h : Q) : Q :=
  let lo := Z.to_nat (Qfloor h) in
  let hi := Nat.min (S lo) (length s - 1) in
  let gamma := h - inject_Z (Qfloor h) in
  nth lo s 0 + (nth hi s 0 - nth lo s 0) * gamma.

(** [s.quantile(q)], linear interpolation: virtual index [q * (n - 1)]. *)
Definition Series_quantile `{SortKind} (xs : list Q) (q : Q) : cell :=
  match xs with
  | [] => None
  | _ => Some (interpolate (np_sort xs) (q * Qnat (length xs - 1)))
  end.

(** Sum of squared deviations from the mean. *)
Definition sum_sq_dev (xs : list Q) : Q :=
  let mu := Qsum xs / Qnat (length xs) in
  Qsum (map (fun x => (x - mu) * (x - mu)) xs).

(** [s.var(ddof=1)]: NaN with fewer than two values.  Exact; the float
    the code gets is this number up to rounding. *)
Definition Series_var (xs : list Q) : cell :=
  if (length xs <=? 1)%nat then None
  else Some (sum_sq_dev xs / Qnat (length xs - 1)).

(** The k-th central moment, divisor n. *)
Definition central_moment (k : nat) (xs : list Q) : Q :=
  let mu := Qsum xs / Qnat (length xs) in
  Qsum (map (fun x => (x - mu) ^ Z.of_nat k) xs) / Qnat (length xs).

(** [np.finfo(np.float64).resolution] *)
Definition float64_resolution : Q := 1 # 1000000000000000.

(** [scipy.stats.kurtosis(xs, fisher=..., bias=...)].  The biased value is
    m4 / m2^2; with [bias=False] and more than three values it is replaced
    by the k-statistics estimate plus 3; [fisher=True] subtracts 3.  A
    sample whose variance is within the resolution of its mean,
    [m2 <= (resolution * mean) ** 2], counts as constant and gives NaN. *)
Definition scipy_kurtosis (xs : list Q) (fisher bias : bool) : cell :=
  match xs with
  | [] => None
  | _ =>
      let k := Qnat (length xs) in
      let mean := Qsum xs / k in
      let m2 := central_moment 2 xs in
      let m4 := central_moment 4 xs in
      let zero :=
        Qle_bool m2 ((float64_resolution * mean)
                     * (float64_resolution * mean)) in
      let vals := if zero then None else Some (m4 / (m2 * m2)) in
      let vals :=
        if negb bias && negb zero && (3 <? length xs)%nat
        then Some (1 / (k - 2) / (k - 3)
                   * ((k * k - 1) * m4 / (m2 * m2) - 3 * ((k - 1) * (k - 1)))
                   + 3)
        else vals in
      if fisher then cell_map2 Qminus vals (Some 3) else vals
  end.

(** [s.kurt()] / [s.kurtosis()] of pandas (nanops.nankurt): the unbiased
    excess kurtosis; NaN with fewer than four values, and NaN for a sample
    without variance (as pandas 3.1 gives it; the exact test stands for
    pandas' guard against rounding errors in the sums). *)
Definition pandas_kurt (xs : list Q) : cell :=
  let count := Qnat (length xs) in
  let mu := Qsum xs / count in
  let m2 := Qsum (map (fun x => (x - mu) ^ 2) xs) in
  let m4 := Qsum (map (fun x => (x - mu) ^ 4) xs) in
  let adj := 3 * ((count - 1) * (count - 1)) / ((count - 2) * (count - 3)) in
  let numerator := count * (count + 1) * (count - 1) * m4 in
  let denominator := (count - 2) * (count - 3) * (m2 * m2) in
  if (length xs <? 4)%nat then None
  else if Qeq_bool denominator 0 then None
  else Some (numerator / denominator - adj).

(** [scipy.stats.mode]: the smallest of the most frequent values. *)
Definition stats_mode `{SortKind} (xs : list Q) : cell :=
  let occurrences x := length (filter (Qeq_bool x) xs) in
  match np_sort xs with
  | [] => None
  | x :: t =>
      Some (fold_left
              (fun best y =>
                 if (occurrences best <? occurrences y)%nat then y else best)
              t x)
  end.

Fixpoint binomial (m k : nat) : Z :=
  match m, k with
  | _, O => 1
  | O, S _ => 0
  | S m', S k' => binomial m' k' + binomial m' (S k')
  end%Z.

(** [scipy.stats.binom.cdf(k, m, p)], exact; the float the code gets is
    this number up to rounding, and 0.0 where it is below the smallest
    float. *)
Definition binom_pmf (i m : nat) (p : Q) : Q :=
  inject_Z (binomial m i) * p ^ Z.of_nat i * (1 - p) ^ Z.of_nat (m - i).

Definition binom_cdf (k m : nat) (p : Q) : Q :=
  Qsum (map (fun i => binom_pmf i m p) (seq 0 (S k))).

(** ** proc_univariate.py *)

(** A Python number that pandas keeps as an object: an element of a Series
    of dtype object.  That is what [pd.Series] builds from a list with an
    int beyond 64 bits, and what [dtype=object] asks for. *)
Inductive pyobject :=
| PyInt (z : Z)
| PyFloat (q : Q).

Definition number_of (o : pyobject) : Q :=
  match o with PyInt z => inject_Z z | PyFloat q => q end.

(** What the routine is called with: a Series of floats, a list of floats,
    or a Series of dtype object.  (Series of an integer dtype, on which
    numpy computes modulo 2^64, are not covered.) *)
Inductive array_like :=
| FromSeries (s : Series)
| FromList (l : list cell)
| FromObjects (s : list (Z * option pyobject)).

Definition is_object_dtype (data : array_like) : bool :=
  match data with FromObjects _ => true | _ => false end.

(** [pd.Series(data)] gives the rows of a list the labels 0..n-1. *)
Definition to_Series (data : array_like) : Series :=
  match data with
  | FromSeries s => s
  | FromList l => combine (map Z.of_nat (seq 0 (length l))) l
  | FromObjects s => map (fun kv => (fst kv, option_map number_of (snd kv))) s
  end.

(** [s.dropna()]: the rows with a value, labels kept. *)
Fixpoint dropna (s : Series) : list (Z * Q) :=
  match s with
  | [] => []
  | (i, Some q) :: rest => (i, q) :: dropna rest
  | (_, None) :: rest => dropna rest
  end.

(** [s.sort_values()] on a series without missing values. *)
Definition Series_sort_values `{SortKind} (s : list (Z * Q)) : list (Z * Q) :=
  map (fun i => nth i s (0%Z, 0))
      (nargsort true (map (fun kv => Some (snd kv)) s)).

Record extreme := mkExtreme { value : Q; obs : Z }.

Module UnivariateResult.
Record t := mk {
  variable_name : string;
  n : nat;
  mean : cell;
  sum_weights : nat;
  sum_observations : Q;
  variance : cell;
  kurtosis : cell;
  uncorrected_ss : Q;
  corrected_ss : Q;
  median : cell;
  mode : cell;
  range : cell;
  iqr : cell;
  sign_statistic : nat;
  sign_pvalue : Q;
  quantiles : list (string * cell);
  lowest : list extreme;
  highest : list extreme
}.
End UnivariateResult.

(** [d[key]] on a dict kept as an association list. *)
Fixpoint dict_get {A} (key : string) (d : list (string * A)) : option A :=
  match d with
  | [] => None
  | (k, v) :: rest => if String.eqb k key then Some v else dict_get key rest
  end.

(** The labels of the quantile table with the level each one stands for. *)
Definition quantile_labels : list (string * Q) :=
  [("0% Min", 0); ("1%", 1 # 100); ("5%", 5 # 100); ("10%", 10 # 100);
   ("25% Q1", 25 # 100); ("50% Median", 50 # 100); ("75% Q3", 75 # 100);
   ("90%", 90 # 100); ("95%", 95 # 100); ("99%", 99 # 100);
   ("100% Max", 1)]%string.

(** The values the routine returns.  Between the computations and the
    [return] the routine prints its report; that step is not modelled. *)
Definition proc_univariate `{SortKind} (data : array_like)
  (variable_name : string) : result UnivariateResult.t :=
  let object_dtype := is_object_dtype data in
  (* Convert to pandas Series if not already *)
  let data := to_Series data in
  (* Remove missing values *)
  let clean_data := dropna data in
  let xs := map snd clean_data in
  let n := length clean_data in
  if Nat.eqb n 0 then inl ValueError_no_valid_observations
  else
  (* Basic statistics; scipy.stats.mode does not take an array of objects *)
  if object_dtype then inl TypeError_not_numeric
  else
    let mean := Series_mean xs in
    let median := Series_median xs in
    let mode := stats_mode xs in
    (* Variability measures (std_dev is the square root of the variance) *)
    let variance := Series_var xs in
    let data_range := cell_map2 Qminus (Series_max xs) (Series_min xs) in
    let q1 := Series_quantile xs (25 # 100) in
    let q3 := Series_quantile xs (75 # 100) in
    let iqr := cell_map2 Qminus q3 q1 in
    let sum_weights := n in
    let sum_observations := Qsum xs in
    (* Moments: Pearson's kurtosis *)
    let kurtosis := scipy_kurtosis xs false false in
    (* Sum of squares *)
    let uncorrected_ss := Qsum (map (fun x => x * x) xs) in
    let corrected_ss := sum_sq_dev xs in
    (* Coefficient of variation, standard error of the mean, Student's t:
       functions of std_dev, see the note on numbers *)
    (* Sign test *)
    let positive_count := length (filter Qgt0_bool xs) in
    let sign_pvalue :=
      2 * binom_cdf (Nat.min positive_count (n - positive_count)) n (1 # 2) in
    (* Signed rank test (Wilcoxon): inside try/except, never raises *)
    (* Quantiles *)
    let quantiles :=
      [("0% Min", Series_min xs);
       ("1%", Series_quantile xs (1 # 100));
       ("5%", Series_quantile xs (5 # 100));
       ("10%", Series_quantile xs (10 # 100));
       ("25% Q1", q1);
       ("50% Median", median);
       ("75% Q3", q3);
       ("90%", Series_quantile xs (90 # 100));
       ("95%", Series_quantile xs (95 # 100));
       ("99%", Series_quantile xs (99 # 100));
       ("100% Max", Series_max xs)]%string in
    (* Extreme observations *)
    let sorted_with_index := Series_sort_values clean_data in
    let len := length sorted_with_index in
    let entry i :=
      let kv := nth i sorted_with_index (0%Z, 0) in
      mkExtreme (snd kv) (fst kv) in
    (* Get 5 lowest values *)
    let lowest_extreme := map entry (seq 0 (Nat.min 5 len)) in
    (* Get 5 highest values *)
    let highest_extreme :=
      map (fun i => entry (len - (i + 1))%nat) (seq 0 (Nat.min 5 len)) in
    (* Reverse highest_extreme to show in descending order *)
    let highest_extreme := rev highest_extreme in
    inr (UnivariateResult.mk variable_name n mean sum_weights sum_observations
           variance kurtosis uncorrected_ss corrected_ss median mode
           data_range iqr positive_count sign_pvalue quantiles
           lowest_extreme highest_extreme).

(** ** class_conditional_descriptive_statistics.py *)

(** A group key: a value of the target column. *)
Inductive key :=
| KNum (q : Q)
| KStr (s : string).

Definition key_eqb (a b : key) : bool :=
  match a, b with
  | KNum x, KNum y => Qeq_bool x y
  | KStr s, KStr t => String.eqb s t
  | _, _ => false
  end.

Definition key_leb (a b : key) : bool :=
  match a, b with
  | KNum x, KNum y => Qle_bool x y
  | KStr s, KStr t => String.leb s t
  | KNum _, KStr _ => true
  | KStr _, KNum _ => false
  end.

Definition column_keys (c : column) : list (option key) :=
  match c with
  | Numeric vs => map (option_map KNum) vs
  | Object vs => map (option_map KStr) vs
  end.

Fixpoint insert_key (k : key) (l : list key) : list key :=
  match l with
  | [] => [k]
  | h :: t =>
      if key_eqb k h then h :: t
      else if key_leb k h then k :: h :: t
      else h :: insert_key k t
  end.

(** The distinct non-missing keys in ascending order ([sort=True],
    [dropna=True]). *)
Definition group_keys (ks : list (option key)) : list key :=
  fold_left (fun acc ok => match ok with
                           | Some k => insert_key k acc
                           | None => acc
                           end) ks [].

Definition in_group (k : key) (ok : option key) : bool :=
  match ok with
  | Some k' => key_eqb k' k
  | None => false
  end.

(** [df.groupby(target_col)[analysis_col]]: per key, the cells of the
    analysis column on the rows of that key. *)
Definition groupby (tgt : list (option key)) (vals : list cell)
  : list (key * list cell) :=
  map (fun k =>
         (k, map snd (filter (fun p => in_group k (fst p)) (combine tgt vals))))
      (group_keys tgt).

(** [pd.merge(left, right, on=target_col)]: inner join, left order. *)
Definition merge {A B} (left : list (key * A)) (right : list (key * B))
  : list (key * (A * B)) :=
  flat_map (fun ka =>
              map (fun kb => (fst ka, (snd ka, snd kb)))
                  (filter (fun kb => key_eqb (fst ka) (fst kb)) right))
           left.

Inductive level :=
| Level (k : key)
| OVERALL.                                   (* '_OVERALL_' *)

(** A row of the returned table ('Standard Deviation' and 'Skewness' are
    irrational in general and left out). *)
Module SummaryRow.
Record t := mk {
  Target : string;
  Target_Level : level;
  Median : cell;
  Missing : nat;
  Non_Missing : nat;
  Minimum : cell;
  Maximum : cell;
  Mean : cell;
  Kurtosis : cell
}.
End SummaryRow.

Record aggregations := mkAgg {
  agg_Median : cell;
  agg_Minimum : cell;
  agg_Maximum : cell;
  agg_Mean : cell;
  agg_Kurtosis : cell
}.

(** The reducers skip missing cells. *)
Definition agg `{SortKind} (x : list cell) : aggregations :=
  let xs := dropna_values x in
  {| agg_Median := Series_median xs;
     agg_Minimum := Series_min xs;
     agg_Maximum := Series_max xs;
     agg_Mean := Series_mean xs;
     (* kurt() is the pandas equivalent of kurtosis *)
     agg_Kurtosis := pandas_kurt xs |}.

Definition count_true {A} (f : A -> bool) (l : list A) : nat :=
  length (filter f l).

Definition class_conditional_distribution `{SortKind} (df : DataFrame)
  (target_col analysis_col : string) : result (list SummaryRow.t) :=
  match get_column df target_col with
  | None => inl (KeyError target_col)
  | Some tcol =>
  match get_column df analysis_col with
  | None => inl (KeyError ("Column not found: " ++ analysis_col))
  | Some (Object _) => inl (TypeError analysis_col)
  | Some (Numeric vals) =>
      let groups := groupby (column_keys tcol) vals in
      (* Perform grouped analysis using groupby() and agg() *)
      let grouped_analysis := map (fun g => (fst g, agg (snd g))) groups in
      (* Calculate Missing and Non-Missing counts separately *)
      let missing_counts :=
        map (fun g => (fst g, count_true isnull (snd g))) groups in
      let non_missing_counts :=
        map (fun g => (fst g, count_true notnull (snd g))) groups in
      (* Merge the calculated stats into one DataFrame *)
      let result_df := merge grouped_analysis missing_counts in
      let result_df := merge result_df non_missing_counts in
      let result_df :=
        map (fun r =>
               let '(k, ((a, missing), non_missing)) := r in
               SummaryRow.mk target_col (Level k) (agg_Median a) missing
                 non_missing (agg_Minimum a) (agg_Maximum a) (agg_Mean a)
                 (agg_Kurtosis a))
            result_df in
      (* Calculate Overall Statistics for the entire column *)
      let o := agg vals in
      let overall_stats :=
        SummaryRow.mk target_col OVERALL (agg_Median o)
          (count_true isnull vals) (count_true notnull vals)
          (agg_Minimum o) (agg_Maximum o) (agg_Mean o) (agg_Kurtosis o) in
      (* Combine the grouped results with the overall results *)
      inr (result_df ++ [overall_stats])
  end
  end.

(** ** stat_explore.py *)

(** A row of the returned table ('Standard Deviation' and 'Skewness' are
    irrational in general and left out). *)
Module StatRow.
Record t := mk {
  Variable_ : string;
  Role : string;
  Mean : cell;
  Non_Missing : nat;
  Missing : nat;
  Minimum : cell;
  Median : cell;
  Maximum : cell;
  Kurtosis : cell
}.
End StatRow.

(** [df.select_dtypes(include=[np.number])] *)
Definition select_numeric (df : DataFrame) : list (string * list cell) :=
  flat_map (fun kv => match snd kv with
                      | Numeric vs => [(fst kv, vs)]
                      | Object _ => []
                      end) (df_columns df).

(** The table the routine returns.  The standard deviation and the
    skewness of each column, and the report printed before the [return],
    are not modelled. *)
Definition stat_explore `{SortKind} (df : DataFrame)
  (role_column : option string) : result (list StatRow.t) :=
  (* Get only numeric columns *)
  let numeric_cols := select_numeric df in
  if Nat.eqb (length numeric_cols) 0 then inl ValueError_no_numeric_columns
  else
    inr (map (fun kv =>
                let col := fst kv in
                let data := snd kv in
                let clean_data := dropna_values data in
                (* Basic counts *)
                let n_total := length data in
                let n_valid := length clean_data in
                let n_missing := (n_total - n_valid)%nat in
                if Nat.eqb n_valid 0
                then StatRow.mk col "INPUT" None 0 n_missing
                       None None None None
                else
                  let mean_val := Series_mean clean_data in
                  let min_val := Series_min clean_data in
                  let median_val := Series_median clean_data in
                  let max_val := Series_max clean_data in
                  (* Pearson's kurtosis *)
                  let kurtosis_val := scipy_kurtosis clean_data false false in
                  StatRow.mk col "INPUT" mean_val n_valid n_missing
                    min_val median_val max_val kurtosis_val)
             numeric_cols).

(** ** A toy estimator: the score of a row is its value in the first
    feature; rows above the contamination level are flagged. *)

Definition first_feature (X : matrix) : list Q :=
  match X with
  | (_, Numeric vs) :: _ =>
      map (fun c => match c with Some q => q | None => 0 end) vs
  | _ => []
  end.

Definition toy_forest : IsolationForest :=
  {| model := params;
     fit p X :=
       match X with
       | [] => inl (EstimatorError "at least one feature is required")
       | _ => inr p
       end;
     decision_function m X := map Qopp (first_feature X);
     predict m X :=
       map (fun q => if Qle_bool q (contamination m) then 1%Z else (-1)%Z)
           (first_feature X) |}.

(** A frame as pandas builds it: every column has one cell per row. *)
Definition well_formed (df : DataFrame) : Prop :=
  Forall (fun kv => column_length (snd kv) = nrows df) (df_columns df).

(** Equality of cells as numbers; NaN only matches NaN. *)
Definition cell_eq (a b : cell) : Prop :=
  match a, b with
  | Some x, Some y => (x == y)%Q
  | None, None => True
  | _, _ => False
  end.

(** The kurtosis the three reports give for one column [analysis_col] of a
    frame with distinct column names: the '_OVERALL_' row of the
    class-conditional table, the result of proc_univariate on the column,
    and the row of the column in the stat_explore table.  The stat_explore
    value is the proc_univariate one; [rel] is what is required between the
    class-conditional value and the proc_univariate value on the non-missing
    values [xs]. *)
Definition kurtosis_reports_agree
  (rel : list Q -> cell -> cell -> Prop) (S : SortKind) : Prop :=
  forall df target_col analysis_col vals rows r statrows,
    NoDup (map fst (df_columns df)) ->
    get_column df analysis_col = Some (Numeric vals) ->
    class_conditional_distribution df target_col analysis_col = inr rows ->
    proc_univariate (FromList vals) analysis_col = inr r ->
    stat_explore df None = inr statrows ->
    (forall row, In row rows ->
       SummaryRow.Target_Level row = OVERALL ->
       rel (dropna_values vals)
           (SummaryRow.Kurtosis row) (UnivariateResult.kurtosis r)) /\
    (forall srow, In srow statrows ->
       StatRow.Variable_ srow = analysis_col ->
       cell_eq (StatRow.Kurtosis srow) (UnivariateResult.kurtosis r)).

(** One convention everywhere: the two values are equal. *)
Definition same_kurtosis (xs : list Q) (grouped univariate : cell) : Prop :=
  cell_eq grouped univariate.

(** Two conventions: the class-conditional value and the univariate one
    are never the same number; the two reports only agree where both are
    undefined. *)
Definition never_the_same_number (xs : list Q) (grouped univariate : cell)
  : Prop :=
  cell_eq grouped univariate -> grouped = None /\ univariate = None.

(** ** Sample data *)

Definition loans : DataFrame :=
  mkDataFrame [0; 1; 2; 3; 4]%Z
    [("BAD", Numeric [Some 0; Some 0; Some 1; Some 1; None]);
     ("LOAN", Numeric [Some 1000; Some 2000; Some 3000; None; Some 500])]%string.

Definition amounts : DataFrame :=
  mkDataFrame [0; 1; 2; 3; 4]%Z
    [("BAD", Numeric [Some 0; Some 0; Some 1; Some 1; Some 1]);
     ("LOAN", Numeric [Some 1; Some 2; Some 3; Some 4; Some 10])]%string.

Definition sample_frame : DataFrame :=
  mkDataFrame [10; 20; 30]%Z
    [("a", Numeric [Some 1; Some 5; Some 3]);
     ("b", Object [Some "x"; None; Some "z"])]%string.

Definition sample_world : World := mkWorld [sample_frame] [].

(** Twenty rows that agree on the feature a (so that they get one and the
    same score) and are told apart by the column id. *)
Definition tied_rows : DataFrame :=
  mkDataFrame (map Z.of_nat (seq 0 20))
    [("a", Numeric (repeat (Some 1) 20));
     ("id", Numeric (map (fun k => Some (Qnat k)) (seq 0 20)))]%string.

(** ** Further vocabulary for the properties of the routines *)

(** [col] is of a numeric dtype. *)
Definition is_numeric (c : column) : bool :=
  match c with Numeric _ => true | Object _ => false end.

(** The cell holds a value ([notnull] on any column). *)
Definition is_some {A} (c : option A) : bool :=
  match c with Some _ => true | None => false end.

(** Strict order of group keys. *)
Definition key_lt (a b : key) : Prop :=
  key_leb a b = true /\ key_eqb a b = false.

(** [a <= b] on cells that both hold a number. *)
Definition cell_le (a b : cell) : Prop :=
  match a, b with
  | Some x, Some y => (x <= y)%Q
  | _, _ => False
  end.

(** A frame with a numeric column, a text column and a numeric column
    without any value. *)
Definition mixed_frame : DataFrame :=
  mkDataFrame [0; 1; 2]%Z
    [("x", Numeric [Some 4; None; Some 2]);
     ("who", Object [Some "a"; Some "b"; None]);
     ("void", Numeric [None; None; None])]%string.

(** The cells of the analysis column on the rows of the group [k]. *)
Definition group_cells (tgt : list (option key)) (vals : list cell) (k : key)
  : list cell :=
  map snd (filter (fun p => in_group k (fst p)) (combine tgt vals)).

(** The row the class-conditional table holds for the cells [x] of one
    level. *)
Definition summary_row `{SortKind} (target_col : string) (lv : level)
  (x : list cell) : SummaryRow.t :=
  SummaryRow.mk target_col lv (agg_Median (agg x))
    (count_true isnull x) (count_true notnull x)
    (agg_Minimum (agg x)) (agg_Maximum (agg x)) (agg_Mean (agg x))
    (agg_Kurtosis (agg x)).

(** A frame whose target column has a missing value and a level without any
    value of the analysis column. *)
Definition graded : DataFrame :=
  mkDataFrame [0; 1; 2; 3; 4; 5]%Z
    [("BAD", Numeric [Some 1; Some 0; None; Some 1; Some 2; Some 0]);
     ("LOAN", Numeric [Some 30; Some 10; Some 70; None; None; Some 20])]%string.

(** A series with row labels of its own and missing values. *)
Definition gappy : Series :=
  [(10%Z, Some 3); (11%Z, None); (12%Z, Some 1); (13%Z, Some 2);
   (14%Z, None)].


(** The sum of the entries [a .. a + len - 1] of row [m] of Pascal's
    triangle, the numerator of the binomial distribution function at
    p = 1/2. *)
Definition binomial_sum (m a len : nat) : Z :=
  fold_right Z.add 0%Z (map (binomial m) (seq a len)).

(** ** Helper lemmas on lists and sorting *)

Lemma StronglySorted_map_iff (A B : Type) (R : B -> B -> Prop) (f : A -> B) l :
  StronglySorted R (map f l) <-> StronglySorted (fun a b => R (f a) (f b)) l.
Proof.
  induction l as [|a l IH]; simpl.
  - split; constructor.
  - split; intros Hs; inversion Hs; subst; constructor.
    + now apply IH.
    + rewrite Forall_forall in *. intros x Hx. auto using in_map.
    + now apply IH.
    + rewrite Forall_forall in *. intros y Hy.
      apply in_map_iff in Hy. destruct Hy as [x [<- Hx]]. auto.
Qed.

Lemma StronglySorted_app (A : Type) (R : A -> A -> Prop) l1 l2 :
  StronglySorted R l1 -> StronglySorted R l2 ->
  (forall x y, In x l1 -> In y l2 -> R x y) ->
  StronglySorted R (l1 ++ l2).
Proof.
  induction l1 as [|a l1 IH]; simpl; intros H1 H2 H12; auto.
  inversion H1; subst. constructor.
  - apply IH; auto.
  - rewrite Forall_forall in *. intros x Hx.
    apply in_app_or in Hx. destruct Hx; auto.
Qed.

Lemma StronglySorted_rev (A : Type) (R : A -> A -> Prop) l :
  StronglySorted R l -> StronglySorted (fun a b => R b a) (rev l).
Proof.
  induction 1 as [|a l Hs IH Hall]; simpl.
  - constructor.
  - apply StronglySorted_app; auto.
    + repeat constructor.
    + intros x y Hx [<-|[]]. rewrite Forall_forall in Hall.
      apply Hall. now apply in_rev.
Qed.

Lemma StronglySorted_weaken (A : Type) (R R' : A -> A -> Prop) l :
  (forall x y, In x l -> In y l -> R x y -> R' x y) ->
  StronglySorted R l -> StronglySorted R' l.
Proof.
  intros HR Hs. induction Hs as [|a l Hs IH Hall]; constructor.
  - apply IH. intros; apply HR; simpl; auto.
  - rewrite Forall_forall in *. intros x Hx. apply HR; simpl; auto.
Qed.

Lemma StronglySorted_nth (A : Type) (R : A -> A -> Prop) l d i j :
  StronglySorted R l -> (i < j < length l)%nat -> R (nth i l d) (nth j l d).
Proof.
  intros Hs. revert i j.
  induction Hs as [|a l Hs IH Hall]; simpl; intros i j Hij; [lia|].
  destruct j as [|j]; [lia|]. destruct i as [|i].
  - rewrite Forall_forall in Hall. apply Hall, nth_In. lia.
  - apply IH. lia.
Qed.

Lemma map_nth_seq (A : Type) (l : list A) d :
  map (fun k => nth k l d) (seq 0 (length l)) = l.
Proof.
  induction l as [|a l IH]; simpl; auto.
  f_equal. rewrite <- seq_shift, map_map. exact IH.
Qed.

Lemma filter_partition_perm (A : Type) (f g : A -> bool) l :
  (forall x, g x = negb (f x)) ->
  Permutation (filter f l ++ filter g l) l.
Proof.
  intros Hg. induction l as [|a l IH]; simpl; auto.
  rewrite Hg. destruct (f a); simpl.
  - now constructor.
  - now apply Permutation_sym, Permutation_cons_app, Permutation_sym.
Qed.

Lemma filter_seq_S (P : nat -> bool) k :
  filter P (seq 0 (S k)) =
  (if P 0%nat then [0%nat] else []) ++
  map S (filter (fun i => P (S i)) (seq 0 k)).
Proof.
  change (seq 0 (S k)) with (0%nat :: seq 1 k).
  rewrite <- seq_shift. simpl filter.
  assert (Hm : forall l, filter P (map S l) = map S (filter (fun i => P (S i)) l)).
  { induction l as [|a l IH]; simpl; auto.
    destruct (P (S a)); simpl; now rewrite IH. }
  rewrite Hm. now destruct (P 0%nat).
Qed.

(** ** The two insertion sorts meet the documentation of argsort *)

Section InsertionArgsort.
Variable before : Q -> Q -> bool.
Hypothesis before_true : forall a b, before a b = true -> (a <= b)%Q.
Hypothesis before_false : forall a b, before a b = false -> (b <= a)%Q.
Variable xs : list Q.

Let R (i j : nat) : Prop := (nth i xs 0 <= nth j xs 0)%Q.

Lemma insert_position_perm i l :
  Permutation (insert_position before xs i l) (i :: l).
Proof.
  induction l as [|j l IH]; simpl; auto.
  destruct (before _ _); auto.
  rewrite IH. apply perm_swap.
Qed.

Lemma insert_position_sorted i l :
  StronglySorted R l -> StronglySorted R (insert_position before xs i l).
Proof.
  induction 1 as [|j l Hs IH Hall]; simpl.
  - repeat constructor.
  - destruct (before (nth i xs 0) (nth j xs 0)) eqn:Hb.
    + constructor; [now constructor|]. constructor.
      * now apply before_true.
      * rewrite Forall_forall in *. intros k Hk. unfold R.
        apply Qle_trans with (nth j xs 0); [now apply before_true|].
        now apply Hall.
    + constructor; auto.
      apply (Permutation_Forall (Permutation_sym (insert_position_perm i l))).
      constructor; auto. now apply before_false.
Qed.

Lemma insertion_argsort_perm :
  Permutation (insertion_argsort before xs) (seq 0 (length xs)).
Proof.
  unfold insertion_argsort.
  induction (seq 0 (length xs)) as [|i l IH]; simpl; auto.
  rewrite insert_position_perm. now constructor.
Qed.

Lemma insertion_argsort_sorted :
  StronglySorted R (insertion_argsort before xs).
Proof.
  unfold insertion_argsort.
  induction (seq 0 (length xs)) as [|i l IH]; simpl.
  - constructor.
  - now apply insert_position_sorted.
Qed.
End InsertionArgsort.

Lemma before_le_true a b : before_le a b = true -> (a <= b)%Q.
Proof. unfold before_le. now rewrite Qle_bool_iff. Qed.

Lemma before_le_false a b : before_le a b = false -> (b <= a)%Q.
Proof.
  unfold before_le. intros Hb. apply Qlt_le_weak, Qnot_le_lt.
  rewrite <- Qle_bool_iff. congruence.
Qed.

#[export] Instance stable_sort_laws : SortKindLaws stable_sort.
Proof.
  split; intros xs; simpl.
  - apply insertion_argsort_perm.
  - apply insertion_argsort_sorted; auto using before_le_true, before_le_false.
Qed.

#[export] Instance toy_forest_laws : IsolationForestLaws toy_forest.
Proof.
  split. intros p. simpl. eauto.
Qed.


(** ** nargsort: a permutation that sorts, missing values last *)

Lemma non_nan_positions_cons (a : cell) (items : list cell) :
  non_nan_positions (a :: items) =
  (if notnull a then [0%nat] else []) ++ map S (non_nan_positions items).
Proof. unfold non_nan_positions. simpl length. now rewrite filter_seq_S. Qed.

Lemma nan_positions_cons (a : cell) (items : list cell) :
  nan_positions (a :: items) =
  (if isnull a then [0%nat] else []) ++ map S (nan_positions items).
Proof. unfold nan_positions. simpl length. now rewrite filter_seq_S. Qed.

Lemma take_non_nan_positions (items : list cell) :
  map (fun i => nth i items None) (non_nan_positions items) =
  map Some (dropna_values items).
Proof.
  induction items as [|a items IH]; auto.
  rewrite non_nan_positions_cons, map_app, map_map. simpl nth.
  rewrite IH. now destruct a.
Qed.

Lemma take_nan_positions (items : list cell) :
  map (fun i => nth i items None) (nan_positions items) =
  repeat None (length (nan_positions items)).
Proof.
  unfold nan_positions. generalize (seq 0 (length items)).
  intros l. induction l as [|i l IH]; simpl; auto.
  destruct (nth i items None) eqn:Hi; simpl; auto.
  rewrite Hi. now f_equal.
Qed.

Lemma nth_of_positions (items : list cell) (pos : list nat) (vals : list Q) k :
  map (fun i => nth i items None) pos = map Some vals ->
  (k < length vals)%nat ->
  nth (nth k pos 0%nat) items None = Some (nth k vals 0).
Proof.
  intros Heq Hk.
  assert (Hlen : length pos = length vals).
  { apply (f_equal (@length _)) in Heq. now rewrite !length_map in Heq. }
  rewrite <- (map_nth Some vals 0 k).
  rewrite <- (map_nth (fun i => nth i items None) pos 0%nat k).
  rewrite Heq. apply nth_indep. rewrite length_map. lia.
Qed.

Section SortLaws.
Context {S : SortKind} {L : SortKindLaws S}.

Lemma argsort_lt xs k : In k (argsort xs) -> (k < length xs)%nat.
Proof.
  intros Hk. apply (Permutation_in _ (argsort_perm xs)) in Hk.
  apply in_seq in Hk. lia.
Qed.

Lemma argsort_length xs : length (argsort xs) = length xs.
Proof. now rewrite (Permutation_length (argsort_perm xs)), length_seq. Qed.

Lemma np_sort_perm xs : Permutation (np_sort xs) xs.
Proof.
  unfold np_sort. rewrite (argsort_perm xs). now rewrite map_nth_seq.
Qed.

Lemma np_sort_length xs : length (np_sort xs) = length xs.
Proof. apply Permutation_length, np_sort_perm. Qed.

Lemma np_sort_sorted xs : StronglySorted Qle (np_sort xs).
Proof. unfold np_sort. apply StronglySorted_map_iff, argsort_sorted. Qed.

Lemma sorted_values_perm (asc : bool) xs : Permutation (sorted_values asc xs) xs.
Proof.
  destruct asc; simpl.
  - apply np_sort_perm.
  - rewrite <- Permutation_rev, np_sort_perm. apply Permutation_sym, Permutation_rev.
Qed.

Lemma sorted_values_sorted (asc : bool) xs :
  StronglySorted (fun a b => if asc then (a <= b)%Q else (b <= a)%Q)
                 (sorted_values asc xs).
Proof.
  destruct asc; simpl.
  - apply np_sort_sorted.
  - apply StronglySorted_rev, np_sort_sorted.
Qed.

Lemma nargsort_perm asc (items : list cell) :
  Permutation (nargsort asc items) (seq 0 (length items)).
Proof.
  unfold nargsort.
  assert (Hlen : length (dropna_values items) = length (non_nan_positions items)).
  { pose proof (take_non_nan_positions items) as H.
    apply (f_equal (@length _)) in H. now rewrite !length_map in H. }
  rewrite <- (filter_partition_perm _
                (fun i => notnull (nth i items None))
                (fun i => isnull (nth i items None))
                (seq 0 (length items)))
    by (intros x; unfold notnull; now rewrite negb_involutive).
  apply Permutation_app; [|reflexivity].
  fold (non_nan_positions items).
  destruct asc.
  - rewrite (argsort_perm (dropna_values items)), Hlen.
    now rewrite map_nth_seq.
  - rewrite <- Permutation_rev.
    rewrite (argsort_perm (rev (dropna_values items))).
    rewrite length_rev, Hlen, <- (length_rev (non_nan_positions items)).
    rewrite map_nth_seq. apply Permutation_sym, Permutation_rev.
Qed.

Lemma nargsort_length asc (items : list cell) :
  length (nargsort asc items) = length items.
Proof. now rewrite (Permutation_length (nargsort_perm asc items)), length_seq. Qed.

Lemma nargsort_values asc (items : list cell) :
  map (fun i => nth i items None) (nargsort asc items) =
  map Some (sorted_values asc (dropna_values items)) ++
  repeat None (length (nan_positions items)).
Proof.
  unfold nargsort. rewrite map_app, take_nan_positions. f_equal.
  destruct asc; simpl; unfold np_sort.
  - rewrite !map_map. apply map_ext_in. intros k Hk.
    apply nth_of_positions.
    + apply take_non_nan_positions.
    + now apply argsort_lt.
  - rewrite !map_rev. f_equal. rewrite !map_map. apply map_ext_in.
    intros k Hk. apply nth_of_positions.
    + rewrite map_rev, take_non_nan_positions. now rewrite map_rev.
    + now apply argsort_lt.
Qed.

End SortLaws.

(** ** References *)

Lemma nth_error_snoc_length (A : Type) (h : list A) a :
  nth_error (h ++ [a]) (length h) = Some a.
Proof. rewrite nth_error_app2, Nat.sub_diag; auto. Qed.

Lemma nth_error_snoc_old (A : Type) (h : list A) a l d :
  nth_error h l = Some d -> nth_error (h ++ [a]) l = Some d.
Proof.
  intros Hl. rewrite nth_error_app1; auto.
  apply nth_error_Some. congruence.
Qed.

Lemma update_nth_snoc_length (A : Type) (h : list A) a b :
  update_nth (h ++ [a]) (length h) b = h ++ [b].
Proof. induction h as [|x h IH]; simpl; auto. now rewrite IH. Qed.

(** ** detect_outliers_isolation_forest, step by step *)

Section Detect.
Context {S : SortKind} {E : IsolationForest}.

Lemma detect_run w df d features c k r :
  nth_error (heap w) df = Some d ->
  detect_outliers_isolation_forest df features c k r w =
  if negb (forallb (has_column d) features)
  then (inl (ValueError_missing_columns
               (filter (fun col => negb (has_column d col)) features)), w)
  else
    match select_columns (df_columns d) features with
    | inl e => (inl e, w)
    | inr cs =>
        let Xd := mkDataFrame (df_index d) cs in
        let Xv := to_array Xd in
        let iso := mkParams c k r in
        let h2 := (heap w ++ [Xd]) ++ [Xd] in
        let t1 := trace w ++ [Fit iso Xv] in
        match fit iso Xv with
        | inl e => (inl e, mkWorld h2 t1)
        | inr m =>
            match setitem d "outlier_score" (score_column m Xv) with
            | inl e => (inl e, mkWorld (h2 ++ [d]) t1)
            | inr d1 =>
                match setitem d1 "outlier_flag" (flag_column m Xv) with
                | inl e => (inl e, mkWorld (h2 ++ [d1]) t1)
                | inr d2 =>
                    match sort_values d2 "outlier_score" false with
                    | inl e => (inl e, mkWorld (h2 ++ [d2]) t1)
                    | inr sorted =>
                        (inr (length ((h2 ++ [d2]) ++ [sorted])),
                         mkWorld (((h2 ++ [d2]) ++ [sorted])
                                    ++ [reset_index_drop sorted]) t1)
                    end
                end
            end
        end
    end.
Proof.
  intros Hd.
  unfold detect_outliers_isolation_forest, bind at 1, deref at 1.
  rewrite Hd.
  unfold bind at 1.
  destruct (negb (forallb (has_column d) features)); [reflexivity|].
  unfold ret at 1.
  unfold bind at 1, getitem_list, bind at 1, deref at 1. rewrite Hd.
  unfold bind at 1, lift at 1.
  destruct (select_columns (df_columns d) features) as [e|cs]; [reflexivity|].
  unfold alloc at 1.
  unfold bind at 1, copy, bind at 1, deref at 1. cbn [heap trace].
  rewrite nth_error_snoc_length.
  unfold alloc at 1. cbn [heap trace].
  unfold bind at 1, deref at 1. cbn [heap trace].
  rewrite nth_error_snoc_length.
  unfold bind at 1, emit at 1. cbn [heap trace].
  unfold bind at 1, lift at 1.
  destruct (fit _ _) as [e|m]; [reflexivity|].
  unfold bind at 1, bind at 1, deref at 1. cbn [heap trace].
  rewrite (@nth_error_snoc_old _ _ _ _ _ (@nth_error_snoc_old _ _ _ _ _ Hd)).
  unfold alloc at 1. cbn [heap trace].
  unfold bind at 1, setitem_inplace at 1, bind at 1, deref at 1.
  cbn [heap trace]. rewrite nth_error_snoc_length.
  unfold bind at 1, lift at 1.
  destruct (setitem d _ _) as [e|d1]; [reflexivity|].
  unfold store at 1. cbn [heap trace]. rewrite update_nth_snoc_length.
  unfold bind at 1, setitem_inplace at 1, bind at 1, deref at 1.
  cbn [heap trace]. rewrite nth_error_snoc_length.
  unfold bind at 1, lift at 1.
  destruct (setitem d1 _ _) as [e|d2]; [reflexivity|].
  unfold store at 1. cbn [heap trace]. rewrite update_nth_snoc_length.
  unfold bind at 1, deref at 1. cbn [heap trace].
  rewrite nth_error_snoc_length.
  unfold bind at 1, lift at 1.
  destruct (sort_values d2 _ _) as [e|sorted]; [reflexivity|].
  reflexivity.
Qed.

End Detect.

(** ** Columns of a frame *)

Lemma lookup_set_column_same cols name c :
  lookup_column (set_column cols name c) name = Some c.
Proof.
  induction cols as [|[k c0] cols IH]; simpl.
  - now rewrite String.eqb_refl.
  - destruct (String.eqb k name) eqn:Hk; simpl; rewrite Hk; auto.
Qed.

Lemma lookup_set_column_other cols name c name' :
  name' <> name ->
  lookup_column (set_column cols name c) name' = lookup_column cols name'.
Proof.
  intros Hne. induction cols as [|[k c0] cols IH]; simpl.
  - destruct (String.eqb name name') eqn:Hk; auto.
    apply String.eqb_eq in Hk. congruence.
  - destruct (String.eqb k name) eqn:Hk; simpl.
    + apply String.eqb_eq in Hk. subst k.
      destruct (String.eqb name name') eqn:Hk'; auto.
      apply String.eqb_eq in Hk'. congruence.
    + now rewrite IH.
Qed.

Lemma lookup_column_map (f : column -> column) cols name :
  lookup_column (map (fun kv => (fst kv, f (snd kv))) cols) name =
  option_map f (lookup_column cols name).
Proof.
  induction cols as [|[k c0] cols IH]; simpl; auto.
  destruct (String.eqb k name); auto.
Qed.

Lemma has_column_lookup cols idx name :
  has_column (mkDataFrame idx cols) name = true <->
  exists c, lookup_column cols name = Some c.
Proof.
  unfold has_column. simpl.
  induction cols as [|[k c0] cols IH]; simpl.
  - split; [discriminate|intros [c Hc]; discriminate].
  - destruct (String.eqb k name); simpl; auto.
    split; eauto.
Qed.

Lemma setitem_inr d name c d' :
  setitem d name c = inr d' ->
  column_length c = nrows d /\
  d' = mkDataFrame (df_index d) (set_column (df_columns d) name c).
Proof.
  unfold setitem. destruct (Nat.eqb_spec (column_length c) (nrows d)).
  - intros [= <-]. auto.
  - discriminate.
Qed.

Lemma dropna_values_map_Some xs : dropna_values (map Some xs) = xs.
Proof. induction xs; simpl; congruence. Qed.

Lemma nan_positions_map_Some xs : nan_positions (map Some xs) = [].
Proof.
  induction xs as [|x xs IH]; auto.
  simpl map. rewrite nan_positions_cons, IH. reflexivity.
Qed.

Lemma nargsort_scores {S : SortKind} {L : SortKindLaws S} asc scores :
  map (fun i => nth i scores 0) (nargsort asc (map Some scores)) =
  sorted_values asc scores.
Proof.
  pose proof (nargsort_values asc (map Some scores)) as Hv.
  rewrite nan_positions_map_Some, dropna_values_map_Some, app_nil_r in Hv.
  apply (f_equal dropna_values) in Hv.
  rewrite dropna_values_map_Some in Hv. rewrite <- Hv.
  rewrite <- (dropna_values_map_Some (map _ (nargsort asc _))).
  f_equal. rewrite map_map. apply map_ext_in. intros i Hi.
  apply (Permutation_in _ (nargsort_perm asc (map Some scores))) in Hi.
  apply in_seq in Hi. rewrite length_map in Hi.
  rewrite (nth_indep _ None (Some 0)) by (rewrite length_map; lia).
  now rewrite (map_nth Some).
Qed.

(** ** detect_outliers_isolation_forest: the returned table *)

Lemma score_column_values {E : IsolationForest} (m : model) X :
  score_column m X = Numeric (map Some (map Qopp (decision_function m X))).
Proof. unfold score_column. now rewrite map_map. Qed.

Lemma take_scores scores indexer :
  (forall i, In i indexer -> (i < length scores)%nat) ->
  map (fun i => nth i (map Some scores) None) indexer =
  map Some (map (fun i => nth i scores 0) indexer).
Proof.
  intros Hlt. rewrite map_map. apply map_ext_in. intros i Hi.
  rewrite (nth_indep _ None (Some 0)) by (rewrite length_map; auto).
  now rewrite (map_nth Some).
Qed.

(** The successful run, with every intermediate frame named. *)
Lemma detect_success {S : SortKind} {E : IsolationForest}
  w df d features c k r ret w' :
  nth_error (heap w) df = Some d ->
  detect_outliers_isolation_forest df features c k r w = (inr ret, w') ->
  exists cs m,
    let X := to_array (mkDataFrame (df_index d) cs) in
    let scores := map Qopp (decision_function m X) in
    let d2 := mkDataFrame (df_index d)
                (set_column
                   (set_column (df_columns d) "outlier_score"
                               (Numeric (map Some scores)))
                   "outlier_flag" (flag_column m X)) in
    let sorted := take (nargsort false (map Some scores)) d2 in
    forallb (has_column d) features = true /\
    select_columns (df_columns d) features = inr cs /\
    fit (mkParams c k r) X = inr m /\
    length scores = nrows d /\
    column_length (flag_column m X) = nrows d /\
    (length (heap w) <= ret)%nat /\
    nth_error (heap w') ret = Some (reset_index_drop sorted).
Proof.
  intros Hd Hrun. rewrite (detect_run w df d features c k r Hd) in Hrun.
  destruct (forallb (has_column d) features) eqn:Hall; [|discriminate].
  simpl negb in Hrun. cbv iota in Hrun.
  destruct (select_columns (df_columns d) features) as [e|cs] eqn:Hsel;
    [discriminate|].
  cbv zeta in Hrun.
  destruct (fit _ _) as [e|m] eqn:Hfit; [discriminate|].
  destruct (setitem d _ _) as [e|d1] eqn:H1; [discriminate|].
  destruct (setitem d1 _ _) as [e|d2] eqn:H2; [discriminate|].
  destruct (sort_values d2 _ _) as [e|sorted] eqn:H3; [discriminate|].
  injection Hrun as <- <-.
  apply setitem_inr in H1. destruct H1 as [Hlen1 ->].
  apply setitem_inr in H2. destruct H2 as [Hlen2 ->].
  rewrite score_column_values in *.
  unfold sort_values, get_column in H3. cbn [df_columns] in H3.
  rewrite lookup_set_column_other, lookup_set_column_same in H3
    by discriminate.
  injection H3 as <-.
  exists cs, m. cbv zeta. repeat split; auto.
  - simpl in Hlen1. now rewrite length_map in Hlen1.
  - cbn [heap]. rewrite !length_app. simpl. lia.
  - cbn [heap]. apply nth_error_snoc_length.
Qed.

(** The returned table, for any rule on ties that the sort in use meets. *)
Lemma detect_rows_by_score
  (S : SortKind) (L : SortKindLaws S) (E : IsolationForest)
  (tie_rule : list Q -> list nat -> Prop) :
  (forall scores, tie_rule scores (nargsort false (map Some scores))) ->
  rows_by_descending_score tie_rule S E.
Proof.
  intros Hties w df d features c k r ret w' Hd Hrun.
  destruct (detect_success _ _ _ _ _ _ _ _ _ Hd Hrun)
    as (cs & m & _ & _ & _ & Hlen & _ & _ & Ht).
  cbv zeta in Ht, Hlen.
  set (scores := map Qopp (decision_function m _)) in *.
  set (indexer := nargsort false (map Some scores)) in *.
  assert (Hperm : Permutation indexer (seq 0 (nrows d))).
  { rewrite <- Hlen, <- (length_map Some scores). apply nargsort_perm. }
  assert (Hlt : forall i, In i indexer -> (i < length scores)%nat).
  { intros i Hi. apply (Permutation_in _ Hperm), in_seq in Hi. lia. }
  eexists _, scores, _, indexer. split; [exact Ht|].
  repeat split.
  - unfold reset_index_drop, nrows, take. cbn [df_index].
    rewrite length_map, length_seq, length_map.
    now rewrite (Permutation_length Hperm), length_seq.
  - exact Hperm.
  - unfold get_column, reset_index_drop, take. cbn [df_columns].
    rewrite lookup_column_map.
    rewrite lookup_set_column_other, lookup_set_column_same by discriminate.
    simpl. now rewrite take_scores.
  - unfold indexer. rewrite nargsort_scores.
    apply (sorted_values_sorted false).
  - apply Hties.
Qed.

(** C1, as amended: the returned table has as many rows as the input; it
    holds the input's columns and the two new ones, reordered by one
    permutation of the rows; its outlier_score column is in descending
    order.  Nothing is said about rows of equal score. *)
Theorem detect_rows_sorted_by_score
  (S : SortKind) (L : SortKindLaws S) (E : IsolationForest) :
  rows_by_descending_score ties_in_any_order S E.
Proof.
  apply detect_rows_by_score; [exact L|]. intros scores. exact I.
Qed.

Lemma detect_rows_sorted_by_score_witness :
  exists t,
    nth_error
      (heap (snd (@detect_outliers_isolation_forest stable_sort toy_forest
                    0%nat ["a"%string] (1 # 100) 300%Z 42%Z sample_world)))
      5 = Some t /\
    nrows t = 3%nat.
Proof.
  destruct (detect_rows_sorted_by_score stable_sort stable_sort_laws toy_forest
              sample_world 0%nat sample_frame ["a"%string] (1 # 100) 300%Z 42%Z
              5%nat
              (snd (@detect_outliers_isolation_forest stable_sort toy_forest
                      0%nat ["a"%string] (1 # 100) 300%Z 42%Z sample_world))
              eq_refl eq_refl)
    as (t & scores & flags & indexer & Ht & Hn & _).
  exists t. split; [exact Ht | exact Hn].
Defined.

(** The positions a column that numbers the rows has after [take]. *)
Lemma take_row_numbers n indexer (order : list nat) :
  (forall i, In i order -> (i < n)%nat) ->
  map (fun i => nth i (map (fun k => Some (Qnat k)) (seq 0 n)) None) indexer =
    map (fun k => Some (Qnat k)) order ->
  indexer = order.
Proof.
  intros Hlt. revert order Hlt.
  induction indexer as [|i indexer IH]; intros [|k order] Hlt Heq;
    try discriminate; [reflexivity|].
  cbn [map] in Heq. injection Heq as Hik Hrest.
  assert (Hk : (k < n)%nat) by (apply Hlt; now left).
  f_equal.
  - destruct (Nat.lt_ge_cases i n) as [Hi|Hi].
    + rewrite (nth_indep _ None (Some (Qnat 0))) in Hik
        by (now rewrite length_map, length_seq).
      rewrite (map_nth (fun k => Some (Qnat k))), seq_nth in Hik by exact Hi.
      injection Hik as Hik. lia.
    + rewrite nth_overflow in Hik by (now rewrite length_map, length_seq).
      discriminate.
  - apply IH; [|exact Hrest]. intros j Hj. apply Hlt. now right.
Qed.

(** C1, as stated, fails.  pandas sorts with [kind='quicksort'], and numpy's
    quicksort does not keep rows of equal score in their order: on the
    twenty rows of [tied_rows], which all get the same score, the kernel
    [aquicksort] partitions once around the median of three, and the rows
    come back in the order 0, 1, 18, 17, ..., 3, 2, 19. *)
Lemma detect_sort_not_stable :
  ~ rows_by_descending_score ties_keep_order numpy_quicksort toy_forest.
Proof.
  intros Hclaim.
  destruct (@detect_outliers_isolation_forest numpy_quicksort toy_forest
              0%nat ["a"%string] (1 # 100) 300%Z 42%Z
              (mkWorld [tied_rows] [])) as [res w'] eqn:Hrun.
  pose proof Hrun as Hrun'. vm_compute in Hrun'.
  injection Hrun' as Hres Hw. subst res.
  destruct (Hclaim (mkWorld [tied_rows] []) 0%nat tied_rows _ _ _ _ _ _
              eq_refl Hrun)
    as (t & scores & flags & indexer & Ht & _ & Hperm & Hcols & Hscore & _
        & Hties).
  rewrite <- Hw in Ht. cbn [heap nth_error] in Ht. injection Ht as <-.
  pose proof (f_equal (fun cols => lookup_column cols "id") Hcols) as Hid.
  cbv beta in Hid.
  rewrite lookup_column_map, !lookup_set_column_other in Hid by discriminate.
  change (lookup_column (df_columns tied_rows) "id")
    with (Some (Numeric (map (fun k => Some (Qnat k)) (seq 0 20)))) in Hid.
  match type of Hid with
  | ?l = _ => let v := eval vm_compute in l in change l with v in Hid
  end.
  cbn [option_map column_take] in Hid. injection Hid as Hid.
  assert (Horder : indexer = ([0; 1] ++ rev (seq 2 17) ++ [19])%nat).
  { apply (take_row_numbers 20).
    - intros i Hi. vm_compute in Hi. intuition lia.
    - etransitivity; [symmetry; exact Hid | reflexivity]. }
  subst indexer.
  match type of Hscore with
  | ?l = _ => let v := eval vm_compute in l in change l with v in Hscore
  end.
  cbn [app rev seq map] in Hscore.
  injection Hscore as _ _ H18 H17 _.
  specialize (Hties 2%nat 3%nat).
  cbn [app rev seq length nth] in Hties.
  assert (18 < 17)%nat; [|lia].
  apply Hties; [lia|].
  rewrite <- H18, <- H17. reflexivity.
Qed.

(** C2: with an empty feature list the call ends in an error (raised by the
    estimator, which needs at least one feature); with a feature list that
    names columns absent from the frame it ends in the validation error that
    lists exactly those names, and it does so before anything else happens:
    no frame is created and the estimator is not called. *)
Theorem detect_rejects_bad_features
  (S : SortKind) (E : IsolationForest) (EL : IsolationForestLaws E)
  w df d c k r :
  nth_error (heap w) df = Some d ->
  (exists e w',
     detect_outliers_isolation_forest df [] c k r w = (inl e, w')) /\
  (forall features,
     (exists col, In col features /\ has_column d col = false) ->
     let missing := filter (fun col => negb (has_column d col)) features in
     detect_outliers_isolation_forest df features c k r w =
       (inl (ValueError_missing_columns missing), w) /\
     missing <> [] /\
     (forall col, In col missing <->
                  In col features /\ has_column d col = false)).
Proof.
  intros Hd. split.
  - rewrite (detect_run w df d [] c k r Hd). simpl.
    destruct (fit_requires_feature (mkParams c k r)) as [e He].
    unfold to_array. simpl. rewrite He. eauto.
  - intros features (col & Hin & Hcol) missing.
    assert (Hmem : forall x, In x missing <->
                             In x features /\ has_column d x = false).
    { intros x. unfold missing. rewrite filter_In, negb_true_iff. tauto. }
    split; [|split; [|exact Hmem]].
    + rewrite (detect_run w df d features c k r Hd).
      destruct (forallb (has_column d) features) eqn:Hall; [|reflexivity].
      rewrite forallb_forall in Hall. rewrite (Hall col Hin) in Hcol.
      discriminate.
    + intros Hnil. assert (Hc : In col missing) by (apply Hmem; auto).
      rewrite Hnil in Hc. destruct Hc.
Qed.

Lemma detect_rejects_bad_features_witness :
  (exists e w',
     @detect_outliers_isolation_forest stable_sort toy_forest
       0%nat [] (1 # 100) 300%Z 42%Z sample_world = (inl e, w')) /\
  @detect_outliers_isolation_forest stable_sort toy_forest
    0%nat ["a"; "c"; "d"]%string (1 # 100) 300%Z 42%Z sample_world =
  (inl (ValueError_missing_columns ["c"; "d"]%string), sample_world).
Proof.
  destruct (detect_rejects_bad_features stable_sort toy_forest toy_forest_laws
              sample_world 0%nat sample_frame (1 # 100) 300%Z 42%Z eq_refl)
    as [Hempty Hmissing].
  split; [exact Hempty|].
  apply (Hmissing ["a"; "c"; "d"]%string).
  exists "c"%string. split; [simpl; auto | reflexivity].
Defined.

(** ** detect_outliers_isolation_forest: effects on the caller's frames *)

Lemma detect_heap_extends {S : SortKind} {E : IsolationForest}
  w df d features c k r res w' :
  nth_error (heap w) df = Some d ->
  detect_outliers_isolation_forest df features c k r w = (res, w') ->
  exists ext, heap w' = heap w ++ ext.
Proof.
  intros Hd Hrun. rewrite (detect_run w df d features c k r Hd) in Hrun.
  destruct (negb _).
  { injection Hrun as _ <-. exists []. now rewrite app_nil_r. }
  destruct (select_columns _ _).
  { injection Hrun as _ <-. exists []. now rewrite app_nil_r. }
  cbv zeta in Hrun.
  repeat match type of Hrun with
         | match ?x with _ => _ end = _ => destruct x
         end;
    injection Hrun as _ <-; cbn [heap];
    rewrite <- ?app_assoc; eexists; reflexivity.
Qed.

Lemma returned_table_has_column idx indexer cols sc fc name :
  name = "outlier_score"%string \/ name = "outlier_flag"%string ->
  has_column
    (reset_index_drop
       (take indexer
          (mkDataFrame idx
             (set_column (set_column cols "outlier_score" sc)
                         "outlier_flag" fc)))) name = true.
Proof.
  intros Hname. unfold reset_index_drop. apply has_column_lookup.
  cbn [df_columns take]. rewrite lookup_column_map.
  destruct Hname as [-> | ->].
  - rewrite lookup_set_column_other, lookup_set_column_same by discriminate.
    simpl. eauto.
  - rewrite lookup_set_column_same. simpl. eauto.
Qed.

(** C8: whatever the outcome, the frame the caller passed is the same after
    the call as before, and so is every other frame that existed; on success
    the result is a new frame, different from the input, and it is the one
    that carries the score and flag columns. *)
Theorem detect_leaves_input_unchanged
  (S : SortKind) (E : IsolationForest) w df d features c k r res w' :
  nth_error (heap w) df = Some d ->
  detect_outliers_isolation_forest df features c k r w = (res, w') ->
  nth_error (heap w') df = Some d /\
  (forall l d0, nth_error (heap w) l = Some d0 ->
                nth_error (heap w') l = Some d0) /\
  (forall ret, res = inr ret ->
     ret <> df /\
     nth_error (heap w) ret = None /\
     exists t, nth_error (heap w') ret = Some t /\
               has_column t "outlier_score" = true /\
               has_column t "outlier_flag" = true).
Proof.
  intros Hd Hrun.
  destruct (detect_heap_extends w df d features c k r res w' Hd Hrun)
    as [ext Hext].
  assert (Hold : forall l d0, nth_error (heap w) l = Some d0 ->
                              nth_error (heap w') l = Some d0).
  { intros l d0 Hl. rewrite Hext, nth_error_app1; auto.
    apply nth_error_Some. congruence. }
  split; [now apply Hold|]. split; [exact Hold|].
  intros ret ->.
  destruct (detect_success w df d features c k r ret w' Hd Hrun)
    as (cs & m & _ & _ & _ & _ & _ & Hfresh & Ht).
  assert (Hdf : (df < length (heap w))%nat)
    by (apply nth_error_Some; congruence).
  split; [lia|]. split; [now apply nth_error_None|].
  eexists. split; [exact Ht|].
  split; apply returned_table_has_column; auto.
Qed.

Lemma detect_leaves_input_unchanged_witness :
  nth_error
    (heap (snd (@detect_outliers_isolation_forest stable_sort toy_forest
                  0%nat ["a"%string] (1 # 100) 300%Z 42%Z sample_world)))
    0 = Some sample_frame.
Proof.
  exact (proj1 (detect_leaves_input_unchanged stable_sort toy_forest
           sample_world 0%nat sample_frame ["a"%string] (1 # 100) 300%Z 42%Z
           (inr 5%nat)
           (snd (@detect_outliers_isolation_forest stable_sort toy_forest
                   0%nat ["a"%string] (1 # 100) 300%Z 42%Z sample_world))
           eq_refl eq_refl)).
Defined.

(** C10: the returned table carries the labels 0..n-1 on its rows in their
    new order: the row labelled j is the row of the input that the
    descending sort of the scores puts at place j.  And it is the same table
    whatever labels the rows of the input had: the original labels cannot be
    read back from it. *)
Theorem detect_resets_row_labels
  (S : SortKind) (L : SortKindLaws S) (E : IsolationForest)
  w df d features c k r ret w' :
  nth_error (heap w) df = Some d ->
  detect_outliers_isolation_forest df features c k r w = (inr ret, w') ->
  exists t indexer X m,
    nth_error (heap w') ret = Some t /\
    df_index t = map Z.of_nat (seq 0 (nrows d)) /\
    select_columns (df_columns d) features = inr X /\
    fit (mkParams c k r) X = inr m /\
    Permutation indexer (seq 0 (nrows d)) /\
    get_column t "outlier_score" =
      Some (Numeric (map (fun i => Some (- nth i (decision_function m X) 0)%Q)
                         indexer)) /\
    StronglySorted (fun a b => (b <= a)%Q)
      (map (fun i => (- nth i (decision_function m X) 0)%Q) indexer) /\
    (forall name col,
       name <> "outlier_score"%string -> name <> "outlier_flag"%string ->
       get_column d name = Some col ->
       get_column t name = Some (column_take indexer col)) /\
    forall labels w2 df2,
      length labels = nrows d ->
      nth_error (heap w2) df2 = Some (mkDataFrame labels (df_columns d)) ->
      exists ret2 w2',
        detect_outliers_isolation_forest df2 features c k r w2
          = (inr ret2, w2') /\
        nth_error (heap w2') ret2 = Some t.
Proof.
  intros Hd Hrun.
  destruct (detect_success w df d features c k r ret w' Hd Hrun)
    as (cs & m & Hall & Hsel & Hfit & Hlen & Hflen & _ & Ht).
  cbv zeta in *. unfold to_array in *. cbn [df_columns] in *.
  assert (Hperm : Permutation
                    (nargsort false
                       (map Some (map Qopp (decision_function m cs))))
                    (seq 0 (nrows d))).
  { rewrite <- Hlen, <- (length_map Some). apply nargsort_perm. }
  assert (Hlt : forall i,
             In i (nargsort false
                     (map Some (map Qopp (decision_function m cs)))) ->
             (i < length (decision_function m cs))%nat).
  { intros i Hi. apply (Permutation_in _ Hperm), in_seq in Hi.
    rewrite length_map in Hlen. lia. }
  assert (Hscores : map (fun i => nth i (map Qopp (decision_function m cs)) 0)
                      (nargsort false
                         (map Some (map Qopp (decision_function m cs)))) =
                    map (fun i => (- nth i (decision_function m cs) 0)%Q)
                      (nargsort false
                         (map Some (map Qopp (decision_function m cs))))).
  { apply map_ext_in. intros i Hi. change 0%Q with (- 0)%Q at 1.
    apply map_nth. }
  eexists _, _, cs, m. split; [exact Ht|]. split.
  { unfold reset_index_drop, take, nrows. cbn [df_index].
    rewrite length_map, nargsort_length, length_map.
    unfold nrows in Hlen. now rewrite Hlen. }
  split; [exact Hsel|]. split; [exact Hfit|]. split; [exact Hperm|].
  split.
  { unfold get_column, reset_index_drop, take. cbn [df_columns].
    rewrite lookup_column_map.
    rewrite lookup_set_column_other, lookup_set_column_same by discriminate.
    cbn [option_map column_take]. rewrite take_scores.
    - now rewrite Hscores, map_map.
    - intros i Hi. rewrite length_map. now apply Hlt. }
  split.
  { rewrite <- Hscores, nargsort_scores. apply (sorted_values_sorted false). }
  split.
  { intros name col Hs Hf Hcol.
    unfold get_column, reset_index_drop, take. cbn [df_columns].
    rewrite lookup_column_map, !lookup_set_column_other by auto.
    unfold get_column in Hcol. now rewrite Hcol. }
  intros labels w2 df2 Hlab Hd2.
  rewrite (detect_run w2 df2 _ features c k r Hd2).
  assert (Hall' : forallb (has_column (mkDataFrame labels (df_columns d)))
                          features = true) by exact Hall.
  rewrite Hall'. cbn [negb df_columns df_index]. rewrite Hsel.
  cbv zeta. unfold to_array. cbn [df_columns]. rewrite Hfit.
  rewrite score_column_values.
  unfold setitem, nrows. cbn [df_index df_columns column_length].
  rewrite length_map, Hlab, Hlen, Nat.eqb_refl.
  cbv iota. cbn [df_index]. rewrite Hflen, Hlab, Nat.eqb_refl.
  unfold sort_values, get_column. cbn [df_columns].
  rewrite lookup_set_column_other, lookup_set_column_same by discriminate.
  eexists _, _. split; [reflexivity|].
  cbn [heap]. rewrite nth_error_snoc_length. f_equal.
  unfold reset_index_drop, take, nrows. cbn [df_index df_columns].
  now rewrite !length_map.
Qed.

Lemma detect_resets_row_labels_witness :
  exists t,
    nth_error
      (heap (snd (@detect_outliers_isolation_forest stable_sort toy_forest
                    0%nat ["a"%string] (1 # 100) 300%Z 42%Z sample_world)))
      5 = Some t /\
    df_index t = [0; 1; 2]%Z.
Proof.
  destruct (detect_resets_row_labels stable_sort stable_sort_laws toy_forest
              sample_world 0%nat sample_frame ["a"%string] (1 # 100) 300%Z 42%Z
              5%nat
              (snd (@detect_outliers_isolation_forest stable_sort toy_forest
                      0%nat ["a"%string] (1 # 100) 300%Z 42%Z sample_world))
              eq_refl eq_refl)
    as (t & indexer & X & m & Ht & Hidx & _).
  exists t. split; [exact Ht | exact Hidx].
Defined.

(** ** proc_univariate: what the result record holds *)

Lemma proc_univariate_inr {S : SortKind} data name r :
  proc_univariate data name = inr r ->
  let clean_data := dropna (to_Series data) in
  let xs := map snd clean_data in
  let sorted_with_index := Series_sort_values clean_data in
  let len := length sorted_with_index in
  let entry i :=
    mkExtreme (snd (nth i sorted_with_index (0%Z, 0)))
              (fst (nth i sorted_with_index (0%Z, 0))) in
  clean_data <> [] /\
  UnivariateResult.n r = length clean_data /\
  UnivariateResult.kurtosis r = scipy_kurtosis xs false false /\
  UnivariateResult.sign_pvalue r =
    2 * binom_cdf (Nat.min (length (filter Qgt0_bool xs))
                           (length clean_data - length (filter Qgt0_bool xs)))
                  (length clean_data) (1 # 2) /\
  UnivariateResult.quantiles r =
    [("0% Min", Series_min xs);
     ("1%", Series_quantile xs (1 # 100));
     ("5%", Series_quantile xs (5 # 100));
     ("10%", Series_quantile xs (10 # 100));
     ("25% Q1", Series_quantile xs (25 # 100));
     ("50% Median", Series_median xs);
     ("75% Q3", Series_quantile xs (75 # 100));
     ("90%", Series_quantile xs (90 # 100));
     ("95%", Series_quantile xs (95 # 100));
     ("99%", Series_quantile xs (99 # 100));
     ("100% Max", Series_max xs)]%string /\
  UnivariateResult.lowest r = map entry (seq 0 (Nat.min 5 len)) /\
  UnivariateResult.highest r =
    rev (map (fun i => entry (len - (i + 1))%nat) (seq 0 (Nat.min 5 len))).
Proof.
  unfold proc_univariate.
  destruct (Nat.eqb_spec (length (dropna (to_Series data))) 0) as [|Hne];
    [discriminate|].
  destruct (is_object_dtype data); [discriminate|].
  intros [= <-]. cbv zeta. cbn [UnivariateResult.n UnivariateResult.kurtosis
    UnivariateResult.sign_pvalue UnivariateResult.quantiles
    UnivariateResult.lowest UnivariateResult.highest].
  repeat split. intros Hnil. now rewrite Hnil in Hne.
Qed.

(** C5: the failing input.  The list [2**70, 1] has two observations, none
    of them missing; pandas keeps it as a Series of dtype object, and the
    call ends in the TypeError of scipy.stats.mode where the claim has it
    return a result. *)
Theorem proc_univariate_raises_on_big_int (S : SortKind) :
  let data :=
    FromObjects [(0%Z, Some (PyInt (2 ^ 70))); (1%Z, Some (PyInt 1))] in
  length (dropna (to_Series data)) = 2%nat /\
  proc_univariate data "Variable" = inl TypeError_not_numeric.
Proof. split; reflexivity. Qed.

(** C9: for the two observations 1 and -1 the sign-test p-value is
    2 * BinomCDF(1; 2, 1/2) = 3/2, which exceeds 1: the value is not
    clamped. *)
Theorem sign_pvalue_exceeds_one (S : SortKind) :
  exists r,
    proc_univariate (FromList [Some 1; Some (-1)]) "Variable" = inr r /\
    (UnivariateResult.sign_pvalue r == 3 # 2)%Q /\
    (1 < UnivariateResult.sign_pvalue r)%Q.
Proof.
  eexists. split; [reflexivity|].
  cbn [UnivariateResult.sign_pvalue]. split; vm_compute; reflexivity.
Qed.

(** ** class_conditional_distribution: counts per group *)

Lemma key_eqb_sym a b : key_eqb a b = key_eqb b a.
Proof.
  destruct a as [x|s], b as [y|t]; simpl; auto.
  - destruct (Qeq_bool x y) eqn:H1, (Qeq_bool y x) eqn:H2; auto.
    + apply Qeq_bool_iff in H1. symmetry in H1.
      apply Qeq_bool_iff in H1. congruence.
    + apply Qeq_bool_iff in H2. symmetry in H2.
      apply Qeq_bool_iff in H2. congruence.
  - apply String.eqb_sym.
Qed.

Lemma key_eqb_trans a b c :
  key_eqb a b = true -> key_eqb b c = true -> key_eqb a c = true.
Proof.
  destruct a as [x|s], b as [y|t], c as [z|u]; simpl; try discriminate.
  - rewrite !Qeq_bool_iff. intros H1 H2. now rewrite H1.
  - rewrite !String.eqb_eq. congruence.
Qed.

Lemma in_group_eqb k k' ok :
  key_eqb k k' = true -> in_group k ok = in_group k' ok.
Proof.
  intros Hk. destruct ok as [x|]; simpl; auto.
  destruct (key_eqb x k) eqn:H1, (key_eqb x k') eqn:H2; auto.
  - rewrite (key_eqb_trans _ _ _ H1 Hk) in H2. discriminate.
  - rewrite key_eqb_sym in Hk.
    rewrite (key_eqb_trans _ _ _ H2 Hk) in H1. discriminate.
Qed.

Lemma merge_In {A B} (left : list (key * A)) (right : list (key * B)) k a b :
  In (k, (a, b)) (merge left right) <->
  exists kb, In (k, a) left /\ In (kb, b) right /\ key_eqb k kb = true.
Proof.
  unfold merge. rewrite in_flat_map. split.
  - intros ([ka a'] & Hl & Hin). apply in_map_iff in Hin.
    destruct Hin as ([kb b'] & Heq & Hr). apply filter_In in Hr.
    simpl in *. injection Heq as -> -> ->. exists kb. tauto.
  - intros (kb & Hl & Hr & Hk). exists (k, a). split; auto.
    apply in_map_iff. exists (kb, b). split; auto.
    apply filter_In. auto.
Qed.

Lemma count_isnull_notnull (l : list cell) :
  (count_true isnull l + count_true notnull l = length l)%nat.
Proof.
  unfold count_true, notnull.
  induction l as [|c l IH]; simpl; auto.
  destruct (isnull c); simpl; lia.
Qed.

Lemma group_size (f : option key -> bool) (tgt : list (option key))
  (vals : list cell) :
  length tgt = length vals ->
  length (map snd (filter (fun p => f (fst p)) (combine tgt vals))) =
  count_true f tgt.
Proof.
  rewrite length_map. unfold count_true. revert vals.
  induction tgt as [|t tgt IH]; intros [|v vals] Hlen; simpl in *;
    try discriminate; auto.
  destruct (f t); simpl; auto.
Qed.

Lemma column_keys_length c : length (column_keys c) = column_length c.
Proof. destruct c; simpl; now rewrite length_map. Qed.

Lemma well_formed_lookup df name c :
  well_formed df -> get_column df name = Some c -> column_length c = nrows df.
Proof.
  unfold well_formed, get_column. intros Hwf.
  induction (df_columns df) as [|[k c0] cols IH]; simpl; [discriminate|].
  inversion Hwf; subst.
  destruct (String.eqb k name); auto. now intros [= <-].
Qed.

(** C6: in the table of class_conditional_distribution, on every group row
    Missing + Non Missing is the number of rows of the dataset whose target
    is that group's level, and on the _OVERALL_ row it is the number of rows
    of the dataset. *)
Theorem class_conditional_counts_add_up
  (S : SortKind) df target_col analysis_col tcol rows :
  well_formed df ->
  get_column df target_col = Some tcol ->
  class_conditional_distribution df target_col analysis_col = inr rows ->
  forall row, In row rows ->
    match SummaryRow.Target_Level row with
    | Level k =>
        (SummaryRow.Missing row + SummaryRow.Non_Missing row)%nat =
        count_true (in_group k) (column_keys tcol)
    | OVERALL =>
        (SummaryRow.Missing row + SummaryRow.Non_Missing row)%nat = nrows df
    end.
Proof.
  intros Hwf Ht Hrun row Hin.
  unfold class_conditional_distribution in Hrun. rewrite Ht in Hrun.
  destruct (get_column df analysis_col) as [[vals|?]|] eqn:Ha;
    try discriminate.
  injection Hrun as <-.
  assert (Hlen : length (column_keys tcol) = length vals).
  { rewrite column_keys_length, (well_formed_lookup _ _ _ Hwf Ht).
    symmetry. apply (well_formed_lookup _ _ _ Hwf Ha). }
  apply in_app_or in Hin. destruct Hin as [Hin | [<- | []]].
  - apply in_map_iff in Hin.
    destruct Hin as ([k [[a missing] non_missing]] & <- & Hin).
    cbn [SummaryRow.Target_Level SummaryRow.Missing SummaryRow.Non_Missing].
    apply merge_In in Hin. destruct Hin as (k2 & Hin & Hnm & Hk2).
    apply merge_In in Hin. destruct Hin as (k1 & _ & Hm & Hk1).
    apply in_map_iff in Hm. destruct Hm as ([g1 cells1] & [= <- <-] & Hg1).
    apply in_map_iff in Hnm. destruct Hnm as ([g2 cells2] & [= <- <-] & Hg2).
    unfold groupby in Hg1, Hg2.
    apply in_map_iff in Hg1. destruct Hg1 as (g & [= <- <-] & _).
    apply in_map_iff in Hg2. destruct Hg2 as (g' & [= <- <-] & _).
    rewrite (filter_ext (fun p => in_group g (fst p))
                        (fun p => in_group k (fst p)))
      by (intros p; symmetry; now apply in_group_eqb).
    rewrite (filter_ext (fun p => in_group g' (fst p))
                        (fun p => in_group k (fst p)))
      by (intros p; symmetry; now apply in_group_eqb).
    rewrite count_isnull_notnull. now apply group_size.
  - cbn [SummaryRow.Target_Level SummaryRow.Missing SummaryRow.Non_Missing].
    rewrite count_isnull_notnull.
    apply (well_formed_lookup _ _ _ Hwf Ha).
Qed.

Lemma class_conditional_counts_add_up_witness :
  let rows :=
    match @class_conditional_distribution stable_sort loans "BAD" "LOAN" with
    | inr rows => rows
    | inl _ => []
    end in
  let dummy := SummaryRow.mk "" OVERALL None 0 0 None None None None in
  ((SummaryRow.Missing (nth 1 rows dummy)
    + SummaryRow.Non_Missing (nth 1 rows dummy) = 2)%nat) /\
  ((SummaryRow.Missing (nth 2 rows dummy)
    + SummaryRow.Non_Missing (nth 2 rows dummy) = 5)%nat).
Proof.
  assert (Hwf : well_formed loans) by (repeat constructor).
  split.
  - exact (class_conditional_counts_add_up stable_sort loans "BAD" "LOAN"
             _ _ Hwf eq_refl eq_refl _ (or_intror (or_introl eq_refl))).
  - exact (class_conditional_counts_add_up stable_sort loans "BAD" "LOAN"
             _ _ Hwf eq_refl eq_refl _
             (or_intror (or_intror (or_introl eq_refl)))).
Defined.

(** ** Kurtosis: pandas' convention against scipy's *)

Lemma dropna_combine labels (vals : list cell) :
  length labels = length vals ->
  map snd (dropna (combine labels vals)) = dropna_values vals.
Proof.
  revert vals. induction labels as [|l labels IH]; intros [|v vals] Hlen;
    simpl in *; try discriminate; auto.
  destruct v; simpl; rewrite IH; auto.
Qed.

Lemma dropna_FromList (vals : list cell) :
  map snd (dropna (to_Series (FromList vals))) = dropna_values vals.
Proof.
  simpl. apply dropna_combine. now rewrite length_map, length_seq.
Qed.

Lemma Qsquare_nonneg (a : Q) : (0 <= a * a)%Q.
Proof.
  destruct (Qlt_le_dec a 0) as [Hneg|Hpos].
  - setoid_replace (a * a)%Q with ((- a) * (- a))%Q by ring.
    apply Qmult_le_0_compat; lra.
  - now apply Qmult_le_0_compat.
Qed.

(** With at least four values and a variance that scipy does not take for
    zero, scipy's Pearson kurtosis is pandas' excess kurtosis plus 3. *)
Lemma scipy_kurtosis_is_pandas_kurt_plus_3 xs :
  (4 <= length xs)%nat ->
  Qle_bool (central_moment 2 xs)
    (float64_resolution * (Qsum xs / Qnat (length xs))
     * (float64_resolution * (Qsum xs / Qnat (length xs)))) = false ->
  exists k k',
    pandas_kurt xs = Some k /\
    scipy_kurtosis xs false false = Some k' /\
    (k' == k + 3)%Q.
Proof.
  intros Hlen Hzero.
  assert (Hn : (4 <= Qnat (length xs))%Q).
  { change 4%Q with (inject_Z 4). unfold Qnat. rewrite <- Zle_Qle. lia. }
  assert (Hvar : (0 < central_moment 2 xs)%Q).
  { pose proof (Qsquare_nonneg
                  (float64_resolution * (Qsum xs / Qnat (length xs)))) as H0.
    apply (Qle_lt_trans _ _ _ H0).
    apply Qnot_le_lt. intros Hle. apply Qle_bool_iff in Hle. congruence. }
  unfold pandas_kurt, scipy_kurtosis.
  destruct xs as [|x0 xs0] eqn:Hxs; [simpl in Hlen; lia|]. rewrite <- Hxs in *.
  clear Hxs x0 xs0. rewrite Hzero.
  unfold central_moment in *. cbn [Z.of_nat Pos.of_succ_nat Pos.succ] in *.
  set (n := Qnat (length xs)) in *.
  set (mu := Qsum xs / n) in *.
  set (m2 := Qsum (map (fun x => (x - mu) ^ 2) xs)) in *.
  set (m4 := Qsum (map (fun x => (x - mu) ^ 4) xs)) in *.
  assert (Hm2 : ~ (m2 == 0)%Q).
  { intros H0. rewrite H0 in Hvar. revert Hvar. unfold Qdiv.
    rewrite Qmult_0_l. apply Qlt_irrefl. }
  destruct (Nat.ltb_spec (length xs) 4) as [|_]; [lia|].
  destruct (Nat.ltb_spec 3 (length xs)) as [_|]; [|lia].
  destruct (Qeq_bool ((n - 2) * (n - 3) * (m2 * m2)) 0) eqn:Hden.
  { exfalso. apply Qeq_bool_iff in Hden. apply Hm2.
    assert (Hz : ((n - 2) * (n - 3) * m2 * m2 == 0)%Q) by (rewrite <- Hden; ring).
    apply Qmult_integral in Hz. destruct Hz as [Hz|]; auto.
    apply Qmult_integral in Hz. destruct Hz as [Hz|]; auto.
    apply Qmult_integral in Hz. destruct Hz; lra. }
  cbn [negb andb]. eexists _, _. split; [reflexivity|]. split; [reflexivity|].
  field. repeat split; lra.
Qed.

(** A sample that scipy takes for constant has no kurtosis. *)
Lemma scipy_kurtosis_of_constant xs :
  Qle_bool (central_moment 2 xs)
    (float64_resolution * (Qsum xs / Qnat (length xs))
     * (float64_resolution * (Qsum xs / Qnat (length xs)))) = true ->
  scipy_kurtosis xs false false = None.
Proof.
  intros Hzero. unfold scipy_kurtosis. destruct xs; [reflexivity|].
  now rewrite Hzero.
Qed.

(** The two kurtosis reports of one sample are never the same number. *)
Lemma kurtosis_values_differ xs :
  never_the_same_number xs (pandas_kurt xs) (scipy_kurtosis xs false false).
Proof.
  intros Heq.
  destruct (Nat.ltb_spec (length xs) 4) as [Hshort|Hlen].
  - assert (Hp : pandas_kurt xs = None).
    { unfold pandas_kurt. destruct (Nat.ltb_spec (length xs) 4); [reflexivity|lia]. }
    rewrite Hp in *. destruct (scipy_kurtosis xs false false); [destruct Heq|].
    auto.
  - destruct (Qle_bool (central_moment 2 xs)
                (float64_resolution * (Qsum xs / Qnat (length xs))
                 * (float64_resolution * (Qsum xs / Qnat (length xs)))))
      eqn:Hzero.
    + rewrite (scipy_kurtosis_of_constant xs Hzero) in *.
      destruct (pandas_kurt xs); [destruct Heq|]. auto.
    + destruct (scipy_kurtosis_is_pandas_kurt_plus_3 xs Hlen Hzero)
        as (k & k' & Hk & Hk' & Hdiff).
      rewrite Hk, Hk' in Heq. simpl in Heq. lra.
Qed.

Lemma cell_eq_refl c : cell_eq c c.
Proof. destruct c; simpl; auto. reflexivity. Qed.

Lemma lookup_column_NoDup cols name c :
  NoDup (map fst cols) -> In (name, c) cols ->
  lookup_column cols name = Some c.
Proof.
  induction cols as [|[k c0] cols IH]; simpl; [tauto|].
  intros Hnd [Heq|Hin]; inversion Hnd; subst.
  - injection Heq as -> ->. now rewrite String.eqb_refl.
  - destruct (String.eqb_spec k name) as [->|]; auto.
    exfalso. apply H1. apply in_map_iff. exists (name, c). auto.
Qed.

Lemma select_numeric_In df name vals :
  In (name, vals) (select_numeric df) ->
  In (name, Numeric vals) (df_columns df).
Proof.
  unfold select_numeric. rewrite in_flat_map.
  intros ([k [vs|vs]] & Hin & Hkv); simpl in Hkv; [|tauto].
  destruct Hkv as [[= <- <-]|[]]. exact Hin.
Qed.

Lemma stat_explore_kurtosis {S : SortKind} df role statrows srow :
  stat_explore df role = inr statrows -> In srow statrows ->
  exists vals,
    In (StatRow.Variable_ srow, Numeric vals) (df_columns df) /\
    StatRow.Kurtosis srow = scipy_kurtosis (dropna_values vals) false false.
Proof.
  unfold stat_explore. destruct (Nat.eqb _ 0); [discriminate|].
  intros [= <-] Hin. apply in_map_iff in Hin.
  destruct Hin as ([name vals] & <- & Hin). exists vals.
  split.
  - apply select_numeric_In.
    destruct (Nat.eqb _ 0); simpl; exact Hin.
  - cbn [fst snd].
    destruct (dropna_values vals) eqn:Hclean; simpl; auto.
Qed.

Lemma class_conditional_overall_kurtosis {S : SortKind}
  df target_col analysis_col vals rows row :
  get_column df analysis_col = Some (Numeric vals) ->
  class_conditional_distribution df target_col analysis_col = inr rows ->
  In row rows -> SummaryRow.Target_Level row = OVERALL ->
  SummaryRow.Kurtosis row = pandas_kurt (dropna_values vals).
Proof.
  intros Ha Hrun Hin Hlevel. unfold class_conditional_distribution in Hrun.
  destruct (get_column df target_col); [|discriminate].
  rewrite Ha in Hrun. injection Hrun as <-.
  apply in_app_or in Hin. destruct Hin as [Hin | [<- | []]].
  - apply in_map_iff in Hin.
    destruct Hin as ([k [[a missing] non_missing]] & <- & _). discriminate.
  - reflexivity.
Qed.

(** C3, as amended: on one column, stat_explore and proc_univariate report
    the same kurtosis (scipy, bias-corrected, Pearson), while
    class_conditional_distribution reports pandas' bias-corrected excess
    kurtosis, which is never the same number: the two only agree where
    both are undefined. *)
Theorem kurtosis_two_conventions (S : SortKind) :
  kurtosis_reports_agree never_the_same_number S.
Proof.
  intros df target_col analysis_col vals rows r statrows Hnd Ha Hcc Hpu Hse.
  destruct (proc_univariate_inr _ _ _ Hpu) as (_ & _ & Hk & _).
  cbv zeta in Hk. rewrite dropna_FromList in Hk.
  split.
  - intros row Hin Hlevel.
    rewrite (class_conditional_overall_kurtosis _ _ _ _ _ _ Ha Hcc Hin Hlevel).
    rewrite Hk. apply kurtosis_values_differ.
  - intros srow Hin Hname.
    destruct (stat_explore_kurtosis _ _ _ _ Hse Hin) as (vals' & Hcol & ->).
    rewrite Hname in Hcol.
    apply (lookup_column_NoDup _ _ _ Hnd) in Hcol.
    unfold get_column in Ha. rewrite Ha in Hcol. injection Hcol as <-.
    rewrite Hk. apply cell_eq_refl.
Qed.

(** C3, as stated, fails: on the column 1, 2, 3, 4, 10 the class-conditional
    table reports 394/125, proc_univariate and stat_explore 769/125. *)
Lemma kurtosis_conventions_differ :
  ~ kurtosis_reports_agree same_kurtosis stable_sort.
Proof.
  intros Hclaim.
  destruct (@proc_univariate stable_sort
              (FromList [Some 1; Some 2; Some 3; Some 4; Some 10]) "LOAN")
    as [e|r] eqn:Hpu; [vm_compute in Hpu; discriminate|].
  destruct (@class_conditional_distribution stable_sort amounts "BAD" "LOAN")
    as [e|rows] eqn:Hcc; [vm_compute in Hcc; discriminate|].
  destruct (@stat_explore stable_sort amounts None)
    as [e|statrows] eqn:Hse; [vm_compute in Hse; discriminate|].
  assert (Hnd : NoDup (map fst (df_columns amounts))).
  { simpl. repeat constructor; simpl; intuition discriminate. }
  destruct (Hclaim amounts "BAD"%string "LOAN"%string _ rows r statrows
              Hnd eq_refl Hcc Hpu Hse) as [Hrows _].
  destruct (proc_univariate_inr _ _ _ Hpu) as (_ & _ & Hk & _).
  vm_compute in Hcc. injection Hcc as <-.
  specialize (Hrows _ (or_intror (or_intror (or_introl eq_refl))) eq_refl).
  unfold same_kurtosis in Hrows. rewrite Hk in Hrows.
  vm_compute in Hrows. discriminate.
Qed.

Lemma kurtosis_two_conventions_witness :
  exists r rows row,
    @proc_univariate stable_sort
      (FromList [Some 1; Some 2; Some 3; Some 4; Some 10]) "LOAN" = inr r /\
    @class_conditional_distribution stable_sort amounts "BAD" "LOAN"
      = inr rows /\
    nth_error rows 2 = Some row /\
    ~ cell_eq (SummaryRow.Kurtosis row) (UnivariateResult.kurtosis r).
Proof.
  destruct (@proc_univariate stable_sort
              (FromList [Some 1; Some 2; Some 3; Some 4; Some 10]) "LOAN")
    as [e|r] eqn:Hpu; [vm_compute in Hpu; discriminate|].
  destruct (@class_conditional_distribution stable_sort amounts "BAD" "LOAN")
    as [e|rows] eqn:Hcc; [vm_compute in Hcc; discriminate|].
  destruct (@stat_explore stable_sort amounts None)
    as [e|statrows] eqn:Hse; [vm_compute in Hse; discriminate|].
  assert (Hnd : NoDup (map fst (df_columns amounts))).
  { simpl. repeat constructor; simpl; intuition discriminate. }
  destruct (kurtosis_two_conventions stable_sort amounts
              "BAD"%string "LOAN"%string _ rows r statrows
              Hnd eq_refl Hcc Hpu Hse) as [Hrows _].
  destruct (proc_univariate_inr _ _ _ Hpu) as (_ & _ & Hk & _).
  pose proof Hcc as Hcc'. vm_compute in Hcc'. injection Hcc' as <-.
  eexists r, _, _. split; [reflexivity|]. split; [exact Hcc|].
  split; [reflexivity|].
  intros Heq.
  destruct (Hrows _ (or_intror (or_intror (or_introl eq_refl))) eq_refl Heq)
    as [_ Hnone].
  rewrite Hk in Hnone. vm_compute in Hnone. discriminate.
Defined.

(** ** proc_univariate: the extreme observations *)

Lemma StronglySorted_seq a k : StronglySorted lt (seq a k).
Proof.
  revert a. induction k as [|k IH]; intros a; simpl; constructor; auto.
  apply Forall_forall. intros x Hx. apply in_seq in Hx. lia.
Qed.

Lemma snd_nth_default (s : list (Z * Q)) i :
  snd (nth i s (0%Z, 0)) = nth i (map snd s) 0.
Proof. now rewrite <- (map_nth snd). Qed.

Lemma fst_nth_default (s : list (Z * Q)) i :
  fst (nth i s (0%Z, 0)) = nth i (map fst s) 0%Z.
Proof. now rewrite <- (map_nth fst). Qed.

Section Extremes.
Context {S : SortKind} {L : SortKindLaws S}.

Lemma Series_sort_values_length s :
  length (Series_sort_values s) = length s.
Proof.
  unfold Series_sort_values. now rewrite length_map, nargsort_length, length_map.
Qed.

Lemma Series_sort_values_values s :
  map snd (Series_sort_values s) = sorted_values true (map snd s).
Proof.
  unfold Series_sort_values. rewrite map_map.
  rewrite <- (map_map snd Some s), <- nargsort_scores.
  apply map_ext. intros i. apply snd_nth_default.
Qed.

Lemma Series_sort_values_labels s :
  Permutation (map fst (Series_sort_values s)) (map fst s).
Proof.
  unfold Series_sort_values. rewrite map_map.
  rewrite (map_ext _ (fun i => nth i (map fst s) 0%Z))
    by (intros i; apply fst_nth_default).
  rewrite (nargsort_perm true), length_map.
  rewrite <- (length_map fst s). now rewrite map_nth_seq.
Qed.

Lemma sorted_nth_le (sv : list Q) i j :
  StronglySorted Qle sv -> (i <= j < length sv)%nat ->
  (nth i sv 0 <= nth j sv 0)%Q.
Proof.
  intros Hs Hij. destruct (Nat.eq_dec i j) as [->|Hne].
  - apply Qle_refl.
  - apply StronglySorted_nth; auto. lia.
Qed.

(** Both lists of extreme observations come out in ascending order of
    value: the five highest are collected from the largest down and then
    reversed. *)
Lemma extremes_are_ascending data name r :
  proc_univariate data name = inr r ->
  StronglySorted Qle (map value (UnivariateResult.lowest r)) /\
  StronglySorted Qle (map value (UnivariateResult.highest r)).
Proof.
  intros Hr.
  destruct (proc_univariate_inr _ _ _ Hr) as (_ & _ & _ & _ & _ & Hlo & Hhi).
  cbv zeta in Hlo, Hhi. rewrite Hlo, Hhi. clear Hlo Hhi.
  set (sorted := Series_sort_values (dropna (to_Series data))).
  assert (Hsv : StronglySorted Qle (map snd sorted)).
  { unfold sorted. rewrite Series_sort_values_values.
    apply (sorted_values_sorted true). }
  assert (Hlen : length (map snd sorted) = length sorted)
    by apply length_map.
  split.
  - rewrite map_map. cbn [value]. apply StronglySorted_map_iff.
    eapply StronglySorted_weaken; [|apply StronglySorted_seq].
    intros i j Hi Hj Hij. apply in_seq in Hi, Hj.
    rewrite !snd_nth_default. apply sorted_nth_le; auto. lia.
  - rewrite map_rev, map_map. cbn [value].
    apply (StronglySorted_rev _ (fun a b => (b <= a)%Q)).
    apply StronglySorted_map_iff.
    eapply StronglySorted_weaken; [|apply StronglySorted_seq].
    intros i j Hi Hj Hij. apply in_seq in Hi, Hj.
    rewrite !snd_nth_default. apply sorted_nth_le; auto. lia.
Qed.

Lemma argsort_1_2_3 : argsort [1; 2; 3] = [0; 1; 2]%nat.
Proof.
  pose proof (argsort_perm [1; 2; 3]) as Hperm.
  pose proof (argsort_sorted [1; 2; 3]) as Hs.
  destruct (argsort [1; 2; 3]) as [|a [|b [|c [|? ?]]]];
    try (apply Permutation_length in Hperm; discriminate).
  assert (Hnd : NoDup [a; b; c]).
  { apply (Permutation_NoDup (Permutation_sym Hperm)), seq_NoDup. }
  assert (Ha : In a (seq 0 3)) by (apply (Permutation_in _ Hperm); simpl; auto).
  assert (Hb : In b (seq 0 3)) by (apply (Permutation_in _ Hperm); simpl; auto).
  assert (Hc : In c (seq 0 3)) by (apply (Permutation_in _ Hperm); simpl; auto).
  inversion Hs as [|? ? Hs' Hall]; subst.
  inversion Hs' as [|? ? _ Hall']; subst.
  inversion Hall as [|? ? Hab Hall2]; subst.
  inversion Hall2 as [|? ? Hac _]; subst.
  inversion Hall' as [|? ? Hbc _]; subst.
  inversion Hnd as [|? ? Hna Hnd']; subst.
  inversion Hnd' as [|? ? Hnb _]; subst.
  simpl in Ha, Hb, Hc, Hna, Hnb.
  destruct Ha as [<-|[<-|[<-|[]]]]; destruct Hb as [<-|[<-|[<-|[]]]];
    destruct Hc as [<-|[<-|[<-|[]]]];
    try reflexivity; try (exfalso; tauto);
    exfalso; unfold Qle in *; simpl in *; lia.
Qed.

End Extremes.

(** C4 at the input 1, 2, 3: the highest list comes back as 1, 2, 3, in
    ascending order of value, not descending (the lowest list is 1, 2, 3 as
    well). *)
Theorem highest_extremes_of_1_2_3 (S : SortKind) (L : SortKindLaws S) :
  exists r,
    proc_univariate (FromList [Some 1; Some 2; Some 3]) "Variable" = inr r /\
    UnivariateResult.lowest r =
      [mkExtreme 1 0; mkExtreme 2 1; mkExtreme 3 2] /\
    UnivariateResult.highest r =
      [mkExtreme 1 0; mkExtreme 2 1; mkExtreme 3 2] /\
    ~ StronglySorted (fun a b => (b <= a)%Q)
        (map value (UnivariateResult.highest r)).
Proof.
  eexists. split; [reflexivity|].
  cbn [UnivariateResult.lowest UnivariateResult.highest].
  unfold Series_sort_values, nargsort. simpl. rewrite argsort_1_2_3. simpl.
  repeat split.
  intros Hs. inversion Hs as [|? ? _ Hall]; subst.
  inversion Hall as [|? ? H12 _]; subst.
  unfold Qle in H12. simpl in H12. lia.
Qed.

Lemma highest_extremes_of_1_2_3_witness :
  exists r,
    @proc_univariate stable_sort (FromList [Some 1; Some 2; Some 3])
      "Variable" = inr r /\
    UnivariateResult.highest r =
      [mkExtreme 1 0; mkExtreme 2 1; mkExtreme 3 2].
Proof.
  destruct (highest_extremes_of_1_2_3 stable_sort stable_sort_laws)
    as (r & Hr & _ & Hhi & _).
  exists r. split; [exact Hr | exact Hhi].
Defined.

(** ** proc_univariate: the quantile table *)

Lemma fold_min_spec t x :
  let m := fold_left (fun m y => if Qle_bool y m then y else m) t x in
  (m <= x)%Q /\ forall y, In y t -> (m <= y)%Q.
Proof.
  revert x. induction t as [|a t IH]; intros x; simpl.
  - split; [apply Qle_refl | tauto].
  - destruct (IH (if Qle_bool a x then a else x)) as [H1 H2].
    destruct (Qle_bool a x) eqn:Hax.
    + apply Qle_bool_iff in Hax. split; [lra|].
      intros y [<-|Hy]; auto.
    + assert (x <= a)%Q.
      { apply Qlt_le_weak, Qnot_le_lt. rewrite <- Qle_bool_iff. congruence. }
      split; auto. intros y [<-|Hy]; auto. lra.
Qed.

Lemma fold_max_spec t x :
  let m := fold_left (fun m y => if Qle_bool m y then y else m) t x in
  (x <= m)%Q /\ forall y, In y t -> (y <= m)%Q.
Proof.
  revert x. induction t as [|a t IH]; intros x; simpl.
  - split; [apply Qle_refl | tauto].
  - destruct (IH (if Qle_bool x a then a else x)) as [H1 H2].
    destruct (Qle_bool x a) eqn:Hax.
    + apply Qle_bool_iff in Hax. split; [lra|].
      intros y [<-|Hy]; auto.
    + assert (a <= x)%Q.
      { apply Qlt_le_weak, Qnot_le_lt. rewrite <- Qle_bool_iff. congruence. }
      split; auto. intros y [<-|Hy]; auto. lra.
Qed.

Lemma Series_min_le xs m x :
  Series_min xs = Some m -> In x xs -> (m <= x)%Q.
Proof.
  destruct xs as [|x0 t]; [discriminate|]. simpl. intros [= <-].
  destruct (fold_min_spec t x0) as [H1 H2]. intros [<-|Hx]; auto.
Qed.

Lemma Series_max_ge xs m x :
  Series_max xs = Some m -> In x xs -> (x <= m)%Q.
Proof.
  destruct xs as [|x0 t]; [discriminate|]. simpl. intros [= <-].
  destruct (fold_max_spec t x0) as [H1 H2]. intros [<-|Hx]; auto.
Qed.

Lemma Qfloor_unique x z :
  (inject_Z z <= x)%Q -> (x < inject_Z (z + 1))%Q -> Qfloor x = z.
Proof.
  intros Hlo Hhi.
  pose proof (Qfloor_le x) as H1. pose proof (Qlt_floor x) as H2.
  assert (Ha : (inject_Z z < inject_Z (Qfloor x + 1))%Q) by lra.
  assert (Hb : (inject_Z (Qfloor x) < inject_Z (z + 1))%Q) by lra.
  rewrite <- Zlt_Qlt in Ha, Hb. lia.
Qed.

Section Interpolation.
Variable s : list Q.
Hypothesis s_sorted : StronglySorted Qle s.
Hypothesis s_nonempty : (0 < length s)%nat.

Lemma virtual_index_floor h :
  (0 <= h)%Q -> (h <= Qnat (length s - 1))%Q ->
  (0 <= Qfloor h <= Z.of_nat (length s - 1))%Z /\
  (inject_Z (Qfloor h) <= h)%Q /\ (h < inject_Z (Qfloor h) + 1)%Q.
Proof.
  intros H0 Hmax.
  pose proof (Qfloor_le h) as H1. pose proof (Qlt_floor h) as H2.
  rewrite inject_Z_plus in H2. change (inject_Z 1) with 1%Q in H2.
  repeat split; auto.
  - apply (Qfloor_resp_le 0 h) in H0. exact H0.
  - apply Qfloor_resp_le in Hmax. unfold Qnat in Hmax.
    now rewrite Qfloor_Z in Hmax.
Qed.

Lemma interpolate_bounds h :
  (0 <= h)%Q -> (h <= Qnat (length s - 1))%Q ->
  let lo := Z.to_nat (Qfloor h) in
  let hi := Nat.min (S lo) (length s - 1) in
  (lo <= hi < length s)%nat /\
  (nth lo s 0 <= interpolate s h)%Q /\
  (interpolate s h <= nth hi s 0)%Q.
Proof.
  intros H0 Hmax lo hi.
  destruct (virtual_index_floor h H0 Hmax) as (Hz & Hf1 & Hf2).
  assert (Hlohi : (lo <= hi < length s)%nat) by (unfold hi, lo; lia).
  split; auto.
  pose proof (sorted_nth_le s lo hi s_sorted Hlohi) as Hab.
  unfold interpolate. fold lo. fold hi.
  set (a := nth lo s 0) in *. set (b := nth hi s 0) in *.
  set (g := (h - inject_Z (Qfloor h))%Q).
  assert (Hg : (0 <= g)%Q /\ (g <= 1)%Q) by (unfold g; split; lra).
  split; nra.
Qed.

Lemma interpolate_mono h1 h2 :
  (0 <= h1)%Q -> (h1 <= h2)%Q -> (h2 <= Qnat (length s - 1))%Q ->
  (interpolate s h1 <= interpolate s h2)%Q.
Proof.
  intros H0 H12 Hmax.
  assert (H0' : (0 <= h2)%Q) by lra.
  assert (Hmax' : (h1 <= Qnat (length s - 1))%Q) by lra.
  destruct (virtual_index_floor h1 H0 Hmax') as (Hz1 & Hf1 & Hf1').
  destruct (virtual_index_floor h2 H0' Hmax) as (Hz2 & Hf2 & Hf2').
  pose proof (Qfloor_resp_le _ _ H12) as Hz12.
  destruct (Z.eq_dec (Qfloor h1) (Qfloor h2)) as [Heq|Hne].
  - destruct (interpolate_bounds h1 H0 Hmax') as (Hlohi & _ & _).
    pose proof (sorted_nth_le s _ _ s_sorted Hlohi) as Hab.
    unfold interpolate. rewrite <- Heq.
    set (a := nth (Z.to_nat (Qfloor h1)) s 0) in *.
    set (b := nth (Nat.min _ _) s 0) in *.
    assert ((h1 - inject_Z (Qfloor h1) <= h2 - inject_Z (Qfloor h1))%Q) by lra.
    nra.
  - destruct (interpolate_bounds h1 H0 Hmax') as (Hlohi1 & _ & Hup).
    destruct (interpolate_bounds h2 H0' Hmax) as (Hlohi2 & Hlow & _).
    cbv zeta in *.
    apply Qle_trans with (nth (Nat.min (S (Z.to_nat (Qfloor h1))) (length s - 1)) s 0);
      auto.
    apply Qle_trans with (nth (Z.to_nat (Qfloor h2)) s 0); auto.
    apply sorted_nth_le; auto. lia.
Qed.

End Interpolation.

Section Quantiles.
Context {S : SortKind} {L : SortKindLaws S}.

Lemma Series_quantile_Some xs q :
  xs <> [] ->
  Series_quantile xs q =
  Some (interpolate (np_sort xs) (q * Qnat (length xs - 1))).
Proof. destruct xs; [congruence | reflexivity]. Qed.

Lemma Series_median_Some xs :
  xs <> [] ->
  Series_median xs =
  Some (if Nat.even (length xs)
        then (nth (length xs / 2 - 1) (np_sort xs) 0
              + nth (length xs / 2) (np_sort xs) 0) / 2
        else nth (length xs / 2) (np_sort xs) 0)%Q.
Proof.
  destruct xs as [|x t]; [congruence|]. intros _. unfold Series_median.
  now destruct (Nat.even (length (x :: t))).
Qed.

Lemma Series_min_Some xs : xs <> [] -> exists m, Series_min xs = Some m.
Proof. destruct xs; [congruence | simpl; eauto]. Qed.

Lemma Series_max_Some xs : xs <> [] -> exists m, Series_max xs = Some m.
Proof. destruct xs; [congruence | simpl; eauto]. Qed.

Lemma np_sort_facts xs :
  xs <> [] ->
  StronglySorted Qle (np_sort xs) /\ (0 < length (np_sort xs))%nat /\
  length (np_sort xs) = length xs.
Proof.
  intros Hne. rewrite np_sort_length. repeat split.
  - apply np_sort_sorted.
  - destruct xs; [congruence | simpl; lia].
Qed.

Lemma Qnat_nonneg k : (0 <= Qnat k)%Q.
Proof.
  unfold Qnat. change 0%Q with (inject_Z 0). rewrite <- Zle_Qle. lia.
Qed.

Lemma virtual_index_range xs q :
  xs <> [] -> (0 <= q)%Q -> (q <= 1)%Q ->
  (0 <= q * Qnat (length xs - 1))%Q /\
  (q * Qnat (length xs - 1) <= Qnat (length (np_sort xs) - 1))%Q.
Proof.
  intros Hne H0 H1. destruct (np_sort_facts xs Hne) as (_ & _ & ->).
  pose proof (Qnat_nonneg (length xs - 1)). split; nra.
Qed.

Lemma Series_quantile_mono xs q1 q2 :
  xs <> [] -> (0 <= q1)%Q -> (q1 <= q2)%Q -> (q2 <= 1)%Q ->
  exists v1 v2,
    Series_quantile xs q1 = Some v1 /\ Series_quantile xs q2 = Some v2 /\
    (v1 <= v2)%Q.
Proof.
  intros Hne H0 H12 H1. rewrite !Series_quantile_Some by auto.
  eexists _, _. split; [reflexivity|]. split; [reflexivity|].
  destruct (np_sort_facts xs Hne) as (Hs & Hpos & Hlen).
  destruct (virtual_index_range xs q2 Hne) as [_ Hmax]; try lra.
  destruct (virtual_index_range xs q1 Hne) as [Hmin _]; try lra.
  apply interpolate_mono; auto.
  pose proof (Qnat_nonneg (length xs - 1)). nra.
Qed.

Lemma Series_min_le_quantile xs q :
  xs <> [] -> (0 <= q)%Q -> (q <= 1)%Q ->
  exists m v,
    Series_min xs = Some m /\ Series_quantile xs q = Some v /\ (m <= v)%Q.
Proof.
  intros Hne H0 H1. destruct (Series_min_Some xs Hne) as [m Hm].
  rewrite Series_quantile_Some by auto.
  eexists _, _. split; [exact Hm|]. split; [reflexivity|].
  destruct (np_sort_facts xs Hne) as (Hs & Hpos & Hlen).
  destruct (virtual_index_range xs q Hne H0 H1) as [Hmin Hmax].
  destruct (interpolate_bounds _ Hs Hpos _ Hmin Hmax) as (Hlohi & Hlow & _).
  cbv zeta in *. eapply Qle_trans; [|exact Hlow].
  apply (Series_min_le xs); auto.
  apply (Permutation_in _ (np_sort_perm xs)). apply nth_In. lia.
Qed.

Lemma Series_quantile_le_max xs q :
  xs <> [] -> (0 <= q)%Q -> (q <= 1)%Q ->
  exists v m,
    Series_quantile xs q = Some v /\ Series_max xs = Some m /\ (v <= m)%Q.
Proof.
  intros Hne H0 H1. destruct (Series_max_Some xs Hne) as [m Hm].
  rewrite Series_quantile_Some by auto.
  eexists _, _. split; [reflexivity|]. split; [exact Hm|].
  destruct (np_sort_facts xs Hne) as (Hs & Hpos & Hlen).
  destruct (virtual_index_range xs q Hne H0 H1) as [Hmin Hmax].
  destruct (interpolate_bounds _ Hs Hpos _ Hmin Hmax) as (Hlohi & _ & Hup).
  cbv zeta in *. eapply Qle_trans; [exact Hup|].
  apply (Series_max_ge xs); auto.
  apply (Permutation_in _ (np_sort_perm xs)). apply nth_In. lia.
Qed.

(** The median is the quantile at level 1/2. *)
Lemma Series_median_is_quantile xs :
  xs <> [] ->
  exists m v,
    Series_median xs = Some m /\ Series_quantile xs (1 # 2) = Some v /\
    (m == v)%Q.
Proof.
  intros Hne. rewrite Series_median_Some, Series_quantile_Some by auto.
  eexists _, _. split; [reflexivity|]. split; [reflexivity|].
  destruct (np_sort_facts xs Hne) as (Hs & Hpos & Hlen).
  set (s := np_sort xs) in *. set (n := length xs) in *.
  assert (Hn : (0 < n)%nat) by lia.
  destruct (Nat.even n) eqn:Hev.
  - apply Nat.even_spec in Hev. destruct Hev as [m Hm].
    assert (Hdiv : (n / 2 = m)%nat).
    { rewrite Hm, Nat.mul_comm. apply Nat.div_mul. lia. }
    rewrite Hdiv.
    assert (Hh : ((1 # 2) * Qnat (n - 1) == inject_Z (Z.of_nat m) - (1 # 2))%Q).
    { unfold Qnat. replace (Z.of_nat (n - 1)) with (2 * Z.of_nat m + -1)%Z by lia.
      rewrite inject_Z_plus, inject_Z_mult.
      change (inject_Z 2) with 2%Q. change (inject_Z (-1)) with (-1)%Q. lra. }
    assert (Hfl : Qfloor ((1 # 2) * Qnat (n - 1)) = (Z.of_nat m + -1)%Z).
    { apply Qfloor_unique.
      - rewrite inject_Z_plus. change (inject_Z (-1)) with (-1)%Q. lra.
      - replace (Z.of_nat m + -1 + 1)%Z with (Z.of_nat m) by lia. lra. }
    unfold interpolate. rewrite Hfl.
    replace (Z.to_nat (Z.of_nat m + -1)) with (m - 1)%nat by lia.
    replace (Nat.min (Datatypes.S (m - 1)) (length s - 1)) with m by lia.
    rewrite inject_Z_plus. change (inject_Z (-1)) with (-1)%Q.
    rewrite Hh. field.
  - assert (Hodd : Nat.odd n = true)
      by (rewrite <- Nat.negb_even, Hev; reflexivity).
    apply Nat.odd_spec in Hodd. destruct Hodd as [m Hm].
    assert (Hdiv : (n / 2 = m)%nat).
    { rewrite Hm. rewrite Nat.add_comm, Nat.mul_comm.
      rewrite Nat.div_add by lia. reflexivity. }
    rewrite Hdiv.
    assert (Hh : ((1 # 2) * Qnat (n - 1) == inject_Z (Z.of_nat m))%Q).
    { unfold Qnat. replace (Z.of_nat (n - 1)) with (2 * Z.of_nat m)%Z by lia.
      rewrite inject_Z_mult. change (inject_Z 2) with 2%Q. lra. }
    assert (Hfl : Qfloor ((1 # 2) * Qnat (n - 1)) = Z.of_nat m).
    { apply Qfloor_unique.
      - lra.
      - rewrite inject_Z_plus. change (inject_Z 1) with 1%Q. lra. }
    unfold interpolate. rewrite Hfl, Nat2Z.id. rewrite Hh. ring.
Qed.

End Quantiles.

(** C7: in the quantile table of proc_univariate, for any two of the eleven
    levels L1 < L2 the value at L1 is at most the value at L2. *)
Theorem quantiles_are_monotone (S : SortKind) (L : SortKindLaws S)
  data name r :
  proc_univariate data name = inr r ->
  forall l1 L1 l2 L2,
    In (l1, L1) quantile_labels -> In (l2, L2) quantile_labels ->
    (L1 < L2)%Q ->
    exists v1 v2,
      dict_get l1 (UnivariateResult.quantiles r) = Some (Some v1) /\
      dict_get l2 (UnivariateResult.quantiles r) = Some (Some v2) /\
      (v1 <= v2)%Q.
Proof.
  intros Hr.
  destruct (proc_univariate_inr _ _ _ Hr) as (Hne & _ & _ & _ & Hq & _).
  cbv zeta in Hq. rewrite Hq. clear Hq Hr.
  set (xs := map snd (dropna (to_Series data))).
  assert (Hxs : xs <> []).
  { unfold xs. destruct (dropna (to_Series data)); [congruence|discriminate]. }
  destruct (Series_min_le_quantile xs (1 # 100) Hxs)
    as (v0 & v1 & E0 & E1 & H01); try lra.
  destruct (Series_quantile_mono xs (1 # 100) (5 # 100) Hxs)
    as (a & v2 & Ea & E2 & H12); try lra.
  rewrite E1 in Ea. injection Ea as <-.
  destruct (Series_quantile_mono xs (5 # 100) (10 # 100) Hxs)
    as (a & v3 & Ea & E3 & H23); try lra.
  rewrite E2 in Ea. injection Ea as <-.
  destruct (Series_quantile_mono xs (10 # 100) (25 # 100) Hxs)
    as (a & v4 & Ea & E4 & H34); try lra.
  rewrite E3 in Ea. injection Ea as <-.
  destruct (Series_median_is_quantile xs Hxs) as (v5 & vh & E5 & Eh & H5h).
  destruct (Series_quantile_mono xs (25 # 100) (1 # 2) Hxs)
    as (a & b & Ea & Eb & H45); try lra.
  rewrite E4 in Ea. injection Ea as <-.
  rewrite Eh in Eb. injection Eb as <-.
  destruct (Series_quantile_mono xs (1 # 2) (75 # 100) Hxs)
    as (a & v6 & Ea & E6 & H56); try lra.
  rewrite Eh in Ea. injection Ea as <-.
  destruct (Series_quantile_mono xs (75 # 100) (90 # 100) Hxs)
    as (a & v7 & Ea & E7 & H67); try lra.
  rewrite E6 in Ea. injection Ea as <-.
  destruct (Series_quantile_mono xs (90 # 100) (95 # 100) Hxs)
    as (a & v8 & Ea & E8 & H78); try lra.
  rewrite E7 in Ea. injection Ea as <-.
  destruct (Series_quantile_mono xs (95 # 100) (99 # 100) Hxs)
    as (a & v9 & Ea & E9 & H89); try lra.
  rewrite E8 in Ea. injection Ea as <-.
  destruct (Series_quantile_le_max xs (99 # 100) Hxs)
    as (a & v10 & Ea & E10 & H910); try lra.
  rewrite E9 in Ea. injection Ea as <-.
  rewrite E0, E1, E2, E3, E4, E5, E6, E7, E8, E9, E10.
  clear E0 E1 E2 E3 E4 E5 E6 E7 E8 E9 E10 Eh.
  intros l1 L1 l2 L2 H1 H2 Hlt.
  unfold quantile_labels in H1, H2. simpl in H1, H2.
  repeat (destruct H1 as [H1|H1]; [injection H1 as <- <-|]); try contradiction;
    repeat (destruct H2 as [H2|H2]; [injection H2 as <- <-|]);
    try contradiction;
    try (exfalso; vm_compute in Hlt; discriminate);
    (eexists _, _; split; [reflexivity|]; split; [reflexivity|]; lra).
Qed.

Lemma quantiles_are_monotone_witness :
  exists v1 v2,
    option_map (fun r => dict_get "5%" (UnivariateResult.quantiles r))
      (match @proc_univariate stable_sort
               (FromList [Some 3; None; Some 1; Some 2]) "x" with
       | inr r => Some r
       | inl _ => None
       end) = Some (Some (Some v1)) /\
    option_map (fun r => dict_get "90%" (UnivariateResult.quantiles r))
      (match @proc_univariate stable_sort
               (FromList [Some 3; None; Some 1; Some 2]) "x" with
       | inr r => Some r
       | inl _ => None
       end) = Some (Some (Some v2)) /\
    (v1 <= v2)%Q.
Proof.
  destruct (@proc_univariate stable_sort
              (FromList [Some 3; None; Some 1; Some 2]) "x")
    as [e|r] eqn:Hr; [vm_compute in Hr; discriminate|].
  destruct (quantiles_are_monotone stable_sort stable_sort_laws _ _ r Hr
              "5%"%string (5 # 100) "90%"%string (90 # 100))
    as (v1 & v2 & H1 & H2 & H12).
  - simpl. auto.
  - simpl. auto 12.
  - reflexivity.
  - exists v1, v2. simpl. rewrite H1, H2. auto.
Defined.

(** ** proc_univariate: the two lists of extremes share no row *)

Lemma dropna_labels_In (s : Series) x :
  In x (map fst (dropna s)) -> In x (map fst s).
Proof.
  induction s as [|[i [q|]] s IH]; simpl; auto.
  intros [<-|Hx]; auto.
Qed.

Lemma dropna_labels_NoDup (s : Series) :
  NoDup (map fst s) -> NoDup (map fst (dropna s)).
Proof.
  induction s as [|[i [q|]] s IH]; simpl; auto; intros Hnd;
    inversion Hnd; subst; auto.
  constructor; auto. intros Hin. now apply dropna_labels_In in Hin.
Qed.

Lemma map_fst_combine_same_length (A B : Type) (l : list A) (l' : list B) :
  length l = length l' -> map fst (combine l l') = l.
Proof.
  revert l'. induction l as [|a l IH]; intros [|b l'] Hlen; simpl in *;
    try discriminate; auto.
  f_equal. apply IH. lia.
Qed.

Lemma FromList_labels_NoDup (l : list cell) :
  NoDup (map fst (to_Series (FromList l))).
Proof.
  simpl. rewrite map_fst_combine_same_length
    by now rewrite length_map, length_seq.
  apply NoDup_map_NoDup_ForallPairs; [|apply seq_NoDup].
  intros a b _ _ Hab. lia.
Qed.

(** With at least ten observations (and row labels that are distinct, as
    they are for any list input), no row is in both lists of extremes. *)
Lemma extremes_are_disjoint {S : SortKind} {L : SortKindLaws S} data name r :
  NoDup (map fst (to_Series data)) ->
  proc_univariate data name = inr r ->
  (10 <= UnivariateResult.n r)%nat ->
  forall e1 e2,
    In e1 (UnivariateResult.lowest r) -> In e2 (UnivariateResult.highest r) ->
    obs e1 <> obs e2.
Proof.
  intros Hnd Hr Hn e1 e2 H1 H2.
  destruct (proc_univariate_inr _ _ _ Hr) as (_ & Hlen & _ & _ & _ & Hlo & Hhi).
  cbv zeta in Hlo, Hhi. rewrite Hlo in H1. rewrite Hhi in H2. clear Hlo Hhi.
  rewrite Hlen in Hn. clear Hlen.
  set (clean := dropna (to_Series data)) in *.
  set (sorted := Series_sort_values clean) in *.
  assert (Hsl : length sorted = length clean)
    by apply Series_sort_values_length.
  assert (Hlab : NoDup (map fst sorted)).
  { apply (Permutation_NoDup (Permutation_sym (Series_sort_values_labels clean))).
    now apply dropna_labels_NoDup. }
  apply in_map_iff in H1. destruct H1 as (i & <- & Hi).
  apply in_rev in H2. apply in_map_iff in H2. destruct H2 as (j & <- & Hj).
  apply in_seq in Hi, Hj. cbn [obs]. rewrite !fst_nth_default.
  intros Heq.
  apply (proj1 (NoDup_nth (map fst sorted) 0%Z) Hlab) in Heq;
    rewrite ?length_map; lia.
Qed.

(** ** A stable sort keeps rows of equal score in their original order *)

Section StableArgsort.
Variable xs : list Q.

(** Before in value, or equal in value and before in position. *)
Let Rs (i j : nat) : Prop :=
  (nth i xs 0 < nth j xs 0)%Q \/
  ((nth i xs 0 == nth j xs 0)%Q /\ (i < j)%nat).

Lemma insert_position_stable i l :
  StronglySorted Rs l -> (forall j, In j l -> (i < j)%nat) ->
  StronglySorted Rs (insert_position before_le xs i l).
Proof.
  induction 1 as [|j l Hs IH Hall]; simpl; intros Hlt.
  - repeat constructor.
  - destruct (before_le (nth i xs 0) (nth j xs 0)) eqn:Hb.
    + apply before_le_true in Hb.
      constructor; [now constructor|].
      assert (Hle : forall j', In j' (j :: l) ->
                               (nth j xs 0 <= nth j' xs 0)%Q).
      { intros j' [<-|Hj']; [apply Qle_refl|].
        rewrite Forall_forall in Hall. destruct (Hall j' Hj') as [H|[H _]]; lra. }
      apply Forall_forall. intros j' Hj'. unfold Rs.
      specialize (Hle j' Hj'). specialize (Hlt j' Hj').
      destruct (Qlt_le_dec (nth i xs 0) (nth j' xs 0)); [now left|].
      right. split; [lra | exact Hlt].
    + assert (Hji : (nth j xs 0 < nth i xs 0)%Q).
      { apply Qnot_le_lt. unfold before_le in Hb.
        rewrite <- Qle_bool_iff. congruence. }
      constructor.
      * apply IH. intros j' Hj'. apply Hlt. now right.
      * apply (Permutation_Forall
                 (Permutation_sym (insert_position_perm before_le xs i l))).
        constructor; [now left | exact Hall].
Qed.

Lemma insertion_argsort_stable :
  StronglySorted Rs (insertion_argsort before_le xs).
Proof.
  unfold insertion_argsort. generalize 0%nat as a.
  induction (length xs) as [|k IH]; intros a; simpl.
  - constructor.
  - apply insert_position_stable; [apply IH|].
    intros j Hj.
    assert (Hperm : Permutation
                      (fold_right (insert_position before_le xs) []
                                  (seq (Datatypes.S a) k))
                      (seq (Datatypes.S a) k)).
    { generalize (seq (Datatypes.S a) k) as l.
      induction l as [|i l IHl]; simpl; auto.
      rewrite insert_position_perm. now constructor. }
    apply (Permutation_in _ Hperm), in_seq in Hj. lia.
Qed.

End StableArgsort.

Lemma non_nan_positions_map_Some xs :
  non_nan_positions (map Some xs) = seq 0 (length xs).
Proof.
  induction xs as [|x xs IH]; auto.
  simpl map. rewrite non_nan_positions_cons, IH. simpl.
  now rewrite seq_shift.
Qed.

Lemma stable_sort_keeps_ties scores :
  ties_keep_order scores (@nargsort stable_sort false (map Some scores)).
Proof.
  unfold nargsort.
  rewrite dropna_values_map_Some, non_nan_positions_map_Some,
    nan_positions_map_Some, app_nil_r.
  set (n := length scores).
  assert (Hdesc :
    StronglySorted
      (fun i j => (nth j scores 0 < nth i scores 0)%Q \/
                  ((nth i scores 0 == nth j scores 0)%Q /\ (i < j)%nat))
      (rev (map (fun k => nth k (rev (seq 0 n)) 0%nat)
                (@argsort stable_sort (rev scores))))).
  { apply (StronglySorted_rev _
             (fun a b => (nth a scores 0 < nth b scores 0)%Q \/
                         ((nth b scores 0 == nth a scores 0)%Q /\ (b < a)%nat))).
    apply StronglySorted_map_iff.
    eapply StronglySorted_weaken; [|apply insertion_argsort_stable].
    intros k k' Hk Hk' HR.
    apply (@argsort_lt stable_sort _) in Hk, Hk'.
    rewrite length_rev in Hk, Hk'. fold n in Hk, Hk'.
    assert (Hidx : forall c, (c < n)%nat ->
                             nth c (rev (seq 0 n)) 0%nat = (n - Datatypes.S c)%nat).
    { intros c Hc. rewrite rev_nth by now rewrite length_seq.
      rewrite length_seq, seq_nth by lia. lia. }
    rewrite !Hidx by auto.
    cbv beta zeta in HR. rewrite !rev_nth in HR by auto. fold n in HR.
    destruct HR as [Hlt | [Heq Hkk]]; [now left|].
    right. split; [now symmetry | lia]. }
  intros p q Hpq Heq.
  pose proof (StronglySorted_nth _ _ _ 0%nat p q Hdesc Hpq) as [Hlt | [_ H]];
    [lra | exact H].
Qed.

(** Had the rows been sorted with a stable kind, rows of equal score would
    keep their original order. *)
Lemma detect_rows_stable_with_stable_sort (E : IsolationForest) :
  rows_by_descending_score ties_keep_order stable_sort E.
Proof.
  apply detect_rows_by_score; [exact stable_sort_laws|].
  apply stable_sort_keeps_ties.
Qed.

(** ** Examples: the routines on small inputs *)

(** LOAN = [1000, 2000, 3000, NaN] grouped by BAD = [0, 0, 1, 1]. *)
Example class_conditional_on_loans :
  match @class_conditional_distribution stable_sort
          (mkDataFrame [0; 1; 2; 3]%Z
             [("LOAN", Numeric [Some 1000; Some 2000; Some 3000; None]);
              ("BAD", Numeric [Some 0; Some 0; Some 1; Some 1])]%string)
          "BAD" "LOAN" with
  | inr rows =>
      map (fun row => (SummaryRow.Target_Level row,
                       option_map Qred (SummaryRow.Mean row),
                       SummaryRow.Missing row,
                       SummaryRow.Non_Missing row)) rows
  | inl _ => []
  end =
  [(Level (KNum 0), Some 1500, 0%nat, 2%nat);
   (Level (KNum 1), Some 3000, 1%nat, 1%nat);
   (OVERALL, Some 2000, 1%nat, 3%nat)].
Proof. vm_compute. reflexivity. Qed.

(** proc_univariate([1, 2, 3, 4, 5]): n = 5, mean 3, median 3, variance 5/2,
    range 4, IQR 2, Pearson kurtosis 9/5. *)
Example proc_univariate_on_1_to_5 :
  match @proc_univariate stable_sort
          (FromList [Some 1; Some 2; Some 3; Some 4; Some 5]) "Variable" with
  | inr r =>
      (UnivariateResult.n r,
       map (option_map Qred)
         [UnivariateResult.mean r; UnivariateResult.median r;
          UnivariateResult.variance r; UnivariateResult.range r;
          UnivariateResult.iqr r; UnivariateResult.kurtosis r;
          UnivariateResult.mode r])
  | inl _ => (0%nat, [])
  end =
  (5%nat, [Some 3; Some 3; Some (5 # 2); Some 4; Some 2; Some (9 # 5); Some 1]).
Proof. vm_compute. reflexivity. Qed.

(** The quantile table of 3, 1, 2, 7, 5, 6, 4. *)
Example quantiles_of_1_to_7 :
  match @proc_univariate stable_sort
          (FromList [Some 3; Some 1; Some 2; Some 7; Some 5; Some 6; Some 4])
          "Variable" with
  | inr r => map (fun kv => option_map Qred (snd kv))
                 (UnivariateResult.quantiles r)
  | inl _ => []
  end =
  [Some 1; Some (53 # 50); Some (13 # 10); Some (8 # 5); Some (5 # 2); Some 4;
   Some (11 # 2); Some (32 # 5); Some (67 # 10); Some (347 # 50); Some 7].
Proof. vm_compute. reflexivity. Qed.

(** A column of missing values only is rejected. *)
Example proc_univariate_on_nothing :
  @proc_univariate stable_sort (FromList [None; None]) "Variable" =
  inl ValueError_no_valid_observations.
Proof. reflexivity. Qed.

(** Rows of equal score: a descending sort of 1, 1, NaN, 0, 1 keeps the
    three tied rows in place with a stable sort, and puts the missing value
    last. *)
Example nargsort_on_ties :
  @nargsort stable_sort false [Some 1; Some 1; None; Some 0; Some 1]
    = [0; 1; 4; 3; 2]%nat.
Proof. vm_compute. reflexivity. Qed.

(** The frame returned for [sample_frame] scored on its column a. *)
Example detect_on_sample_frame :
  let run := @detect_outliers_isolation_forest stable_sort toy_forest
               0%nat ["a"%string] (1 # 100) 300%Z 42%Z sample_world in
  fst run = inr 5%nat /\
  nth_error (heap (snd run)) 5 =
  Some (mkDataFrame [0; 1; 2]%Z
          [("a", Numeric [Some 5; Some 3; Some 1]);
           ("b", Object [None; Some "z"; Some "x"]);
           ("outlier_score", Numeric [Some 5; Some 3; Some 1]);
           ("outlier_flag", Numeric [Some 1; Some 1; Some 1])]%string).
Proof. split; vm_compute; reflexivity. Qed.

(** * Further properties of the four routines *)
(** ** Reducers: facts shared by the reports *)

Lemma dropna_values_length (vals : list cell) :
  length (dropna_values vals) = count_true notnull vals.
Proof.
  unfold count_true. induction vals as [|[q|] vals IH]; simpl; auto.
Qed.

Lemma fold_min_In t x :
  In (fold_left (fun m y => if Qle_bool y m then y else m) t x) (x :: t).
Proof.
  revert x. induction t as [|a t IH]; intros x; simpl; auto.
  destruct (IH (if Qle_bool a x then a else x)) as [H|H]; auto.
  destruct (Qle_bool a x); auto.
Qed.

Lemma fold_max_In t x :
  In (fold_left (fun m y => if Qle_bool m y then y else m) t x) (x :: t).
Proof.
  revert x. induction t as [|a t IH]; intros x; simpl; auto.
  destruct (IH (if Qle_bool x a then a else x)) as [H|H]; auto.
  destruct (Qle_bool x a); auto.
Qed.

Lemma Series_min_In xs m : Series_min xs = Some m -> In m xs.
Proof.
  destruct xs as [|x t]; [discriminate|]. simpl. intros [= <-].
  apply fold_min_In.
Qed.

Lemma Series_max_In xs m : Series_max xs = Some m -> In m xs.
Proof.
  destruct xs as [|x t]; [discriminate|]. simpl. intros [= <-].
  apply fold_max_In.
Qed.

(** On a sample with at least one value, minimum, median and maximum are
    defined, and the median lies between the other two. *)
Lemma median_between_extremes {S : SortKind} {L : SortKindLaws S} xs :
  xs <> [] ->
  exists lo med hi,
    Series_min xs = Some lo /\ Series_median xs = Some med /\
    Series_max xs = Some hi /\ (lo <= med)%Q /\ (med <= hi)%Q.
Proof.
  intros Hne.
  destruct (Series_min_le_quantile xs (1 # 2) Hne) as (lo & v & Hlo & Hv & Hlov);
    try lra.
  destruct (Series_quantile_le_max xs (1 # 2) Hne) as (v' & hi & Hv' & Hhi & Hvhi);
    try lra.
  destruct (Series_median_is_quantile xs Hne) as (med & v'' & Hmed & Hv'' & Hmv).
  rewrite Hv in Hv', Hv''. injection Hv' as <-. injection Hv'' as <-.
  exists lo, med, hi. repeat split; auto; lra.
Qed.

(** ** stat_explore: errors, rows and counts *)

Lemma select_numeric_names df :
  map fst (select_numeric df) =
  map fst (filter (fun kv => is_numeric (snd kv)) (df_columns df)).
Proof.
  unfold select_numeric.
  induction (df_columns df) as [|[name [vs|vs]] cols IH]; simpl; auto.
  now rewrite IH.
Qed.

Lemma isnull_count_is_difference (vals : list cell) :
  (length vals - length (dropna_values vals))%nat = count_true isnull vals.
Proof.
  rewrite dropna_values_length.
  pose proof (count_isnull_notnull vals). lia.
Qed.

(** Every row of the table, against the numeric column it reports on. *)
Lemma stat_explore_rows {S : SortKind} df role rows :
  stat_explore df role = inr rows ->
  Forall2
    (fun kv srow =>
       let clean := dropna_values (snd kv) in
       StatRow.Variable_ srow = fst kv /\
       StatRow.Role srow = "INPUT"%string /\
       StatRow.Non_Missing srow = length clean /\
       StatRow.Missing srow = (length (snd kv) - length clean)%nat /\
       StatRow.Mean srow = Series_mean clean /\
       StatRow.Minimum srow = Series_min clean /\
       StatRow.Median srow = Series_median clean /\
       StatRow.Maximum srow = Series_max clean /\
       StatRow.Kurtosis srow = scipy_kurtosis clean false false)
    (select_numeric df) rows.
Proof.
  unfold stat_explore. destruct (Nat.eqb _ 0); [discriminate|].
  intros [= <-]. induction (select_numeric df) as [|[name vals] l IH]; simpl;
    constructor; auto.
  cbn [fst snd]. destruct (dropna_values vals) as [|x clean] eqn:Hclean.
  - simpl. repeat split; auto.
  - cbn [length Nat.eqb]. repeat split; auto.
Qed.

Lemma Forall2_In_r (A B : Type) (P : A -> B -> Prop) l l' b :
  Forall2 P l l' -> In b l' -> exists a, In a l /\ P a b.
Proof.
  induction 1 as [|x y l l' Hxy _ IH]; simpl; [tauto|].
  intros [<-|Hb]; [exists x; auto|].
  destruct (IH Hb) as (a & Ha & Hab). exists a. auto.
Qed.

Lemma Forall2_impl_In (A B : Type) (P Q : A -> B -> Prop) l l' :
  Forall2 P l l' ->
  (forall a b, In a l -> In b l' -> P a b -> Q a b) ->
  Forall2 Q l l'.
Proof.
  induction 1 as [|x y l l' Hxy _ IH]; intros HPQ; constructor.
  - apply HPQ; simpl; auto.
  - apply IH. intros a b Ha Hb. apply HPQ; simpl; auto.
Qed.

Lemma Forall2_map_eq (A B C : Type) (f : B -> C) (g : A -> C) l l' :
  Forall2 (fun a b => f b = g a) l l' -> map f l' = map g l.
Proof. induction 1; simpl; congruence. Qed.

(** X2: the table has one row per numeric column, named after it, in the
    order of the frame's columns, and every row has the role INPUT. *)
Theorem stat_explore_one_row_per_numeric_column (S : SortKind) df role rows :
  stat_explore df role = inr rows ->
  map StatRow.Variable_ rows =
    map fst (filter (fun kv => is_numeric (snd kv)) (df_columns df)) /\
  Forall (fun srow => StatRow.Role srow = "INPUT"%string) rows.
Proof.
  intros Hrun. rewrite <- select_numeric_names.
  pose proof (stat_explore_rows df role rows Hrun) as Hrows.
  split.
  - apply Forall2_map_eq. eapply Forall2_impl_In; [exact Hrows|].
    cbv beta zeta. intros; tauto.
  - apply Forall_forall. intros srow Hin.
    destruct (Forall2_In_r _ _ _ _ _ _ Hrows Hin) as (kv & _ & _ & Hrole & _).
    exact Hrole.
Qed.

(** X3: on every row, Non Missing is the number of cells of the column that
    hold a value, Missing the number of cells that do not, and the two add up
    to the number of rows of the frame. *)
Theorem stat_explore_counts (S : SortKind) df role rows :
  well_formed df ->
  stat_explore df role = inr rows ->
  Forall2
    (fun kv srow =>
       StatRow.Variable_ srow = fst kv /\
       StatRow.Non_Missing srow = count_true notnull (snd kv) /\
       StatRow.Missing srow = count_true isnull (snd kv) /\
       (StatRow.Non_Missing srow + StatRow.Missing srow = nrows df)%nat)
    (select_numeric df) rows.
Proof.
  intros Hwf Hrun.
  pose proof (stat_explore_rows df role rows Hrun) as Hrows.
  assert (Hlen : forall kv, In kv (select_numeric df) ->
                            length (snd kv) = nrows df).
  { intros [name vals] Hin. apply select_numeric_In in Hin.
    unfold well_formed in Hwf. rewrite Forall_forall in Hwf.
    apply (Hwf _ Hin). }
  eapply Forall2_impl_In; [exact Hrows|].
  cbv beta zeta. intros kv srow Hkv _ (Hname & _ & Hn & Hm & _).
  rewrite Hn, Hm, isnull_count_is_difference, dropna_values_length.
  repeat split; auto.
  rewrite Nat.add_comm, count_isnull_notnull. now apply Hlen.
Qed.

(** X4: a row with no value (Non Missing = 0) has every statistic undefined
    and counts every row of the frame as missing; a row with at least one
    value has mean, minimum, median and maximum defined. *)
Theorem stat_explore_undefined_iff_no_value (S : SortKind) df role rows srow :
  well_formed df ->
  stat_explore df role = inr rows ->
  In srow rows ->
  (StatRow.Non_Missing srow = 0%nat ->
   StatRow.Mean srow = None /\ StatRow.Minimum srow = None /\
   StatRow.Median srow = None /\ StatRow.Maximum srow = None /\
   StatRow.Kurtosis srow = None /\ StatRow.Missing srow = nrows df) /\
  (StatRow.Non_Missing srow <> 0%nat ->
   is_some (StatRow.Mean srow) = true /\
   is_some (StatRow.Minimum srow) = true /\
   is_some (StatRow.Median srow) = true /\
   is_some (StatRow.Maximum srow) = true).
Proof.
  intros Hwf Hrun Hin.
  destruct (Forall2_In_r _ _ _ _ _ _ (stat_explore_rows df role rows Hrun) Hin)
    as ([name vals] & Hkv & _ & _ & Hn & Hm & -> & -> & -> & -> & ->).
  cbn [fst snd] in *. rewrite Hn, Hm.
  assert (Hlen : length vals = nrows df).
  { apply select_numeric_In in Hkv.
    unfold well_formed in Hwf. rewrite Forall_forall in Hwf.
    apply (Hwf _ Hkv). }
  destruct (dropna_values vals) as [|x clean]; split; intros H.
  - simpl. repeat split; auto. lia.
  - simpl in H. congruence.
  - simpl in H. discriminate.
  - repeat split; try reflexivity.
    unfold Series_median. now destruct (Nat.even _).
Qed.

(** X5: on a row with at least one value the median lies between the
    minimum and the maximum. *)
Theorem stat_explore_location_order
  (S : SortKind) (L : SortKindLaws S) df role rows srow :
  stat_explore df role = inr rows ->
  In srow rows ->
  StatRow.Non_Missing srow <> 0%nat ->
  cell_le (StatRow.Minimum srow) (StatRow.Median srow) /\
  cell_le (StatRow.Median srow) (StatRow.Maximum srow).
Proof.
  intros Hrun Hin Hn.
  destruct (Forall2_In_r _ _ _ _ _ _ (stat_explore_rows df role rows Hrun) Hin)
    as ([name vals] & _ & _ & _ & Hn' & _ & _ & -> & -> & -> & _).
  cbn [fst snd] in *. rewrite Hn' in Hn.
  assert (Hne : dropna_values vals <> [])
    by (intros H0; rewrite H0 in Hn; now apply Hn).
  destruct (median_between_extremes _ Hne)
    as (lo & med & hi & -> & -> & -> & H1 & H2).
  simpl. auto.
Qed.

Lemma mixed_frame_well_formed : well_formed mixed_frame.
Proof. repeat constructor. Qed.

Lemma stat_explore_one_row_per_numeric_column_witness :
  exists rows,
    @stat_explore stable_sort mixed_frame None = inr rows /\
    map StatRow.Variable_ rows = ["x"; "void"]%string.
Proof.
  eexists. split; [reflexivity|].
  apply (stat_explore_one_row_per_numeric_column stable_sort mixed_frame None).
  reflexivity.
Defined.

Lemma stat_explore_counts_witness :
  exists rows,
    @stat_explore stable_sort mixed_frame None = inr rows /\
    Forall2
      (fun kv srow =>
         StatRow.Variable_ srow = fst kv /\
         StatRow.Non_Missing srow = count_true notnull (snd kv) /\
         StatRow.Missing srow = count_true isnull (snd kv) /\
         (StatRow.Non_Missing srow + StatRow.Missing srow = 3)%nat)
      (select_numeric mixed_frame) rows.
Proof.
  eexists. split; [reflexivity|].
  apply (stat_explore_counts stable_sort mixed_frame None);
    [exact mixed_frame_well_formed | reflexivity].
Defined.

Lemma stat_explore_undefined_iff_no_value_witness :
  exists rows srow,
    @stat_explore stable_sort mixed_frame None = inr rows /\
    nth_error rows 1 = Some srow /\
    StatRow.Mean srow = None /\ StatRow.Missing srow = 3%nat.
Proof.
  eexists _, _. split; [reflexivity|]. split; [reflexivity|].
  destruct (stat_explore_undefined_iff_no_value stable_sort mixed_frame None
              _ _ mixed_frame_well_formed eq_refl
              (or_intror (or_introl eq_refl))) as [Hzero _].
  destruct (Hzero eq_refl) as (Hmean & _ & _ & _ & _ & Hmissing).
  split; [exact Hmean | exact Hmissing].
Defined.

Lemma stat_explore_location_order_witness :
  exists rows srow,
    @stat_explore stable_sort mixed_frame None = inr rows /\
    nth_error rows 0 = Some srow /\
    cell_le (StatRow.Minimum srow) (StatRow.Median srow) /\
    cell_le (StatRow.Median srow) (StatRow.Maximum srow).
Proof.
  eexists _, _. split; [reflexivity|]. split; [reflexivity|].
  apply (stat_explore_location_order stable_sort stable_sort_laws
           mixed_frame None _ _ eq_refl (or_introl eq_refl)).
  simpl. discriminate.
Defined.

(** ** Group keys: distinct and in ascending order *)

Lemma key_eqb_refl k : key_eqb k k = true.
Proof.
  destruct k as [q|s]; simpl.
  - apply Qeq_bool_iff. reflexivity.
  - apply String.eqb_refl.
Qed.

Lemma string_lt_compare s t :
  String.leb s t = true /\ String.eqb s t = false <-> String.compare s t = Lt.
Proof.
  unfold String.leb. split.
  - intros [Hle Hne]. destruct (String.compare s t) eqn:Hc; auto.
    + apply String.compare_eq_iff in Hc. apply String.eqb_neq in Hne.
      congruence.
    + discriminate.
  - intros Hc. rewrite Hc. split; auto.
    apply String.eqb_neq. intros ->.
    pose proof (String.compare_antisym t t) as Ha. rewrite Hc in Ha.
    discriminate.
Qed.

Lemma key_lt_trans a b c : key_lt a b -> key_lt b c -> key_lt a c.
Proof.
  unfold key_lt.
  destruct a as [x|s], b as [y|t], c as [z|u]; simpl;
    try (intros [? ?] [? ?]; split; auto; discriminate).
  - intros [H1 H1'] [H2 H2']. apply Qle_bool_iff in H1, H2.
    assert (~ x == y)%Q by (rewrite <- Qeq_bool_iff; congruence).
    assert (~ y == z)%Q by (rewrite <- Qeq_bool_iff; congruence).
    split.
    + apply Qle_bool_iff. lra.
    + destruct (Qeq_bool x z) eqn:Hxz; auto.
      apply Qeq_bool_iff in Hxz. exfalso. lra.
  - intros H1 H2. apply string_lt_compare in H1, H2. apply string_lt_compare.
    apply String_as_OT.cmp_lt in H1, H2. apply String_as_OT.cmp_lt.
    eapply String_as_OT.lt_trans; eauto.
Qed.

Lemma key_leb_total a b : key_leb a b = true \/ key_leb b a = true.
Proof.
  destruct a as [x|s], b as [y|t]; simpl; auto.
  - destruct (Qlt_le_dec x y) as [H|H].
    + left. apply Qle_bool_iff. lra.
    + right. now apply Qle_bool_iff.
  - apply String.leb_total.
Qed.

Lemma insert_key_In k l x :
  In x (insert_key k l) -> x = k \/ In x l.
Proof.
  induction l as [|h t IH]; simpl.
  - intros [<-|[]]. auto.
  - destruct (key_eqb k h); [auto|].
    destruct (key_leb k h); simpl.
    + intros [<-|H]; auto.
    + intros [<-|H]; auto. destruct (IH H); auto.
Qed.

Lemma insert_key_keeps k l x : In x l -> In x (insert_key k l).
Proof.
  induction l as [|h t IH]; simpl; [tauto|].
  destruct (key_eqb k h); [auto|].
  destruct (key_leb k h); simpl; intros [<-|H]; auto.
Qed.

Lemma insert_key_covers k l :
  exists k', In k' (insert_key k l) /\ key_eqb k k' = true.
Proof.
  induction l as [|h t IH]; simpl.
  - exists k. split; auto. apply key_eqb_refl.
  - destruct (key_eqb k h) eqn:Hkh; [exists h; simpl; auto|].
    destruct (key_leb k h); simpl.
    + exists k. split; auto. apply key_eqb_refl.
    + destruct IH as (k' & Hin & Hk'). exists k'. auto.
Qed.

Lemma insert_key_sorted k l :
  StronglySorted key_lt l -> StronglySorted key_lt (insert_key k l).
Proof.
  induction 1 as [|h t Hs IH Hall]; simpl.
  - repeat constructor.
  - destruct (key_eqb k h) eqn:Hkh; [now constructor|].
    destruct (key_leb k h) eqn:Hle.
    + constructor; [now constructor|].
      assert (Hkh' : key_lt k h) by (split; auto).
      constructor; auto.
      rewrite Forall_forall in *. intros x Hx.
      apply key_lt_trans with h; auto.
    + constructor; auto.
      rewrite Forall_forall in *. intros x Hx.
      apply insert_key_In in Hx. destruct Hx as [->|Hx]; auto.
      split.
      * destruct (key_leb_total h k); congruence.
      * now rewrite key_eqb_sym.
Qed.

Lemma group_keys_spec ks :
  StronglySorted key_lt (group_keys ks) /\
  (forall k, In k (group_keys ks) -> In (Some k) ks) /\
  (forall v, In (Some v) ks ->
             exists k, In k (group_keys ks) /\ key_eqb v k = true).
Proof.
  unfold group_keys.
  assert (Hgen : forall acc,
    StronglySorted key_lt acc ->
    let r := fold_left (fun acc ok => match ok with
                                      | Some k => insert_key k acc
                                      | None => acc
                                      end) ks acc in
    StronglySorted key_lt r /\
    (forall k, In k r -> In k acc \/ In (Some k) ks) /\
    (forall k, In k acc -> In k r) /\
    (forall v, In (Some v) ks -> exists k, In k r /\ key_eqb v k = true)).
  { induction ks as [|[v|] ks IH]; intros acc Hacc; simpl.
    - repeat split; auto. intros v [].
    - destruct (IH (insert_key v acc) (insert_key_sorted v acc Hacc))
        as (H1 & H2 & H3 & H4).
      repeat split; auto.
      + intros k Hk. destruct (H2 k Hk) as [Hin|Hin]; auto.
        apply insert_key_In in Hin. destruct Hin as [->|Hin]; auto.
      + intros k Hk. apply H3. now apply insert_key_keeps.
      + intros w [[= ->]|Hw]; auto.
        destruct (insert_key_covers w acc) as (k' & Hin & Hk').
        exists k'. auto.
    - destruct (IH acc Hacc) as (H1 & H2 & H3 & H4).
      repeat split; auto.
      + intros k Hk. destruct (H2 k Hk); auto.
      + intros w [Hw|Hw]; [discriminate | auto]. }
  destruct (Hgen [] (SSorted_nil _)) as (H1 & H2 & _ & H4).
  repeat split; auto.
  intros k Hk. destruct (H2 k Hk) as [[]|]; auto.
Qed.

Lemma sorted_keys_distinct keys :
  StronglySorted key_lt keys ->
  ForallOrdPairs (fun a b => key_eqb a b = false) keys.
Proof.
  induction 1 as [|h t Hs IH Hall]; constructor; auto.
  rewrite Forall_forall in *. intros x Hx. apply (Hall x Hx).
Qed.

(** ** Merging tables that carry the same distinct keys *)

Lemma filter_own_key (keys : list key) k :
  ForallOrdPairs (fun a b => key_eqb a b = false) keys -> In k keys ->
  filter (fun k' => key_eqb k k') keys = [k].
Proof.
  induction 1 as [|h t Hall Hpairs IH]; simpl; [tauto|].
  rewrite Forall_forall in Hall.
  intros [->|Hin].
  - rewrite key_eqb_refl. f_equal.
    apply (proj2 (Forall_forall (fun x => _ = false) _)) in Hall.
    clear -Hall. induction Hall as [|x l Hx _ IH]; simpl; auto.
    now rewrite Hx.
  - rewrite key_eqb_sym, (Hall k Hin). auto.
Qed.

Lemma flat_map_singleton (A B : Type) (g : A -> list B) (G : A -> B) l :
  (forall x, In x l -> g x = [G x]) -> flat_map g l = map G l.
Proof.
  induction l as [|a l IH]; simpl; intros Hg; auto.
  rewrite Hg by auto. simpl. f_equal. apply IH. auto.
Qed.

Lemma filter_map_swap (A B : Type) (f : A -> B) (p : B -> bool) l :
  filter p (map f l) = map f (filter (fun x => p (f x)) l).
Proof.
  induction l as [|a l IH]; simpl; auto.
  destruct (p (f a)); simpl; now rewrite IH.
Qed.

Lemma merge_same_keys {A B} (f : key -> A) (h : key -> B) keys :
  ForallOrdPairs (fun a b => key_eqb a b = false) keys ->
  merge (map (fun k => (k, f k)) keys) (map (fun k => (k, h k)) keys) =
  map (fun k => (k, (f k, h k))) keys.
Proof.
  intros Hd. unfold merge. rewrite flat_map_concat_map, map_map.
  rewrite <- flat_map_concat_map.
  apply flat_map_singleton. intros k Hk. cbn [fst snd].
  rewrite filter_map_swap. cbn [fst].
  now rewrite (filter_own_key keys k Hd Hk).
Qed.

(** The table, row by row. *)
Lemma class_conditional_rows {S : SortKind}
  df target_col analysis_col tcol vals rows :
  get_column df target_col = Some tcol ->
  get_column df analysis_col = Some (Numeric vals) ->
  class_conditional_distribution df target_col analysis_col = inr rows ->
  rows =
    map (fun k => summary_row target_col (Level k)
                    (group_cells (column_keys tcol) vals k))
        (group_keys (column_keys tcol))
    ++ [summary_row target_col OVERALL vals].
Proof.
  intros Ht Ha. unfold class_conditional_distribution. rewrite Ht, Ha.
  intros [= <-]. f_equal.
  destruct (group_keys_spec (column_keys tcol)) as (Hs & _ & _).
  apply sorted_keys_distinct in Hs.
  unfold groupby. rewrite !map_map. cbn [fst snd].
  fold (group_cells (column_keys tcol) vals).
  rewrite (merge_same_keys
             (fun k => agg (group_cells (column_keys tcol) vals k))
             (fun k => count_true isnull (group_cells (column_keys tcol) vals k))
             _ Hs).
  rewrite (merge_same_keys
             (fun k => (agg (group_cells (column_keys tcol) vals k),
                        count_true isnull (group_cells (column_keys tcol) vals k)))
             (fun k => count_true notnull (group_cells (column_keys tcol) vals k))
             _ Hs).
  rewrite map_map. reflexivity.
Qed.

(** ** class_conditional_distribution: errors, levels, groups *)

Lemma class_conditional_row_In {S : SortKind}
  df target_col analysis_col tcol vals rows row :
  get_column df target_col = Some tcol ->
  get_column df analysis_col = Some (Numeric vals) ->
  class_conditional_distribution df target_col analysis_col = inr rows ->
  In row rows ->
  exists lv x,
    row = summary_row target_col lv x /\
    ((lv = OVERALL /\ x = vals) \/
     (exists k, lv = Level k /\ In k (group_keys (column_keys tcol)) /\
                x = group_cells (column_keys tcol) vals k)).
Proof.
  intros Ht Ha Hrun Hin.
  rewrite (class_conditional_rows _ _ _ _ _ _ Ht Ha Hrun) in Hin.
  apply in_app_or in Hin. destruct Hin as [Hin | [<- | []]].
  - apply in_map_iff in Hin. destruct Hin as (k & <- & Hk).
    eexists _, _. split; [reflexivity|]. right. eauto.
  - eexists _, _. split; [reflexivity|]. auto.
Qed.

Lemma class_conditional_inr_columns {S : SortKind}
  df target_col analysis_col rows :
  class_conditional_distribution df target_col analysis_col = inr rows ->
  exists tcol vals,
    get_column df target_col = Some tcol /\
    get_column df analysis_col = Some (Numeric vals).
Proof.
  unfold class_conditional_distribution.
  destruct (get_column df target_col) as [tcol|]; [|discriminate].
  destruct (get_column df analysis_col) as [[vals|?]|]; try discriminate.
  eauto.
Qed.

(** X7: the table holds one row per distinct value of the target column, in
    strictly ascending order of that value, followed by one _OVERALL_ row;
    every row names the target column. *)
Theorem class_conditional_levels (S : SortKind)
  df target_col analysis_col tcol rows :
  get_column df target_col = Some tcol ->
  class_conditional_distribution df target_col analysis_col = inr rows ->
  exists keys,
    map SummaryRow.Target_Level rows = map Level keys ++ [OVERALL] /\
    StronglySorted key_lt keys /\
    (forall k, In k keys -> In (Some k) (column_keys tcol)) /\
    (forall v, In (Some v) (column_keys tcol) ->
               exists k, In k keys /\ key_eqb v k = true) /\
    Forall (fun row => SummaryRow.Target row = target_col) rows.
Proof.
  intros Ht Hrun.
  destruct (class_conditional_inr_columns _ _ _ _ Hrun)
    as (tcol' & vals & Ht' & Ha).
  rewrite Ht in Ht'. injection Ht' as <-.
  rewrite (class_conditional_rows _ _ _ _ _ _ Ht Ha Hrun).
  destruct (group_keys_spec (column_keys tcol)) as (Hs & Hin & Hcov).
  exists (group_keys (column_keys tcol)).
  repeat split; auto.
  - rewrite map_app, map_map. reflexivity.
  - apply Forall_app. split; [|repeat constructor].
    apply Forall_forall. intros row Hrow. apply in_map_iff in Hrow.
    destruct Hrow as (k & <- & _). reflexivity.
Qed.

Lemma list_sum_map_add (A : Type) (a b : A -> nat) l :
  list_sum (map (fun x => (a x + b x)%nat) l) =
  (list_sum (map a l) + list_sum (map b l))%nat.
Proof. induction l as [|x l IH]; simpl; lia. Qed.

Lemma exactly_one_group keys v :
  ForallOrdPairs (fun a b => key_eqb a b = false) keys ->
  (exists k, In k keys /\ key_eqb v k = true) ->
  list_sum (map (fun k => if in_group k (Some v) then 1 else 0)%nat keys)
    = 1%nat.
Proof.
  induction 1 as [|h t Hall Hpairs IH]; simpl.
  - intros (k & [] & _).
  - intros (k & Hk & Hvk). rewrite Forall_forall in Hall.
    destruct (key_eqb v h) eqn:Hvh.
    + assert (Hrest : forall x, In x t -> key_eqb v x = false).
      { intros x Hx. destruct (key_eqb v x) eqn:Hvx; auto.
        rewrite key_eqb_sym in Hvh.
        pose proof (key_eqb_trans _ _ _ Hvh Hvx) as Hhx.
        rewrite (Hall x Hx) in Hhx. discriminate. }
      clear -Hrest. f_equal.
      induction t as [|x t IH]; simpl; auto.
      rewrite (Hrest x) by (simpl; auto). apply IH.
      intros y Hy. apply Hrest. simpl; auto.
    + destruct Hk as [->|Hk]; [congruence|].
      simpl. apply IH. eauto.
Qed.

Lemma sum_over_groups keys (tgt : list (option key)) :
  ForallOrdPairs (fun a b => key_eqb a b = false) keys ->
  (forall v, In (Some v) tgt -> exists k, In k keys /\ key_eqb v k = true) ->
  list_sum (map (fun k => count_true (in_group k) tgt) keys) =
  count_true is_some tgt.
Proof.
  intros Hd. unfold count_true.
  induction tgt as [|t tgt IH]; intros Hcov.
  - simpl. clear. induction keys; simpl; auto.
  - rewrite (map_ext _ (fun k => ((if in_group k t then 1 else 0)
                                  + length (filter (in_group k) tgt))%nat))
      by (intros k; simpl; now destruct (in_group k t)).
    rewrite list_sum_map_add, IH by (intros v Hv; apply Hcov; now right).
    destruct t as [v|].
    + rewrite (exactly_one_group keys v Hd) by (apply Hcov; now left).
      reflexivity.
    + assert (Hz : list_sum (map (fun k => if in_group k None
                                           then 1%nat else 0%nat) keys)
                   = 0%nat)
        by (clear; induction keys; simpl; auto).
      rewrite Hz. reflexivity.
Qed.

Lemma count_true_ge_1 (A : Type) (f : A -> bool) l x :
  In x l -> f x = true -> (1 <= count_true f l)%nat.
Proof.
  unfold count_true. induction l as [|a l IH]; simpl; [tauto|].
  intros [->|Hx] Hfx.
  - rewrite Hfx. simpl. lia.
  - specialize (IH Hx Hfx). destruct (f a); simpl; lia.
Qed.

Lemma count_true_complement (A : Type) (f : A -> bool) l :
  (count_true f l + count_true (fun x => negb (f x)) l = length l)%nat.
Proof.
  unfold count_true. induction l as [|a l IH]; simpl; auto.
  destruct (f a); simpl; lia.
Qed.

(** X8: the group rows split the rows that have a target value: every
    group holds at least one row, the sizes of the groups (Missing + Non
    Missing) add up to the number of rows with a target value, and together
    with the rows whose target is missing to the number of rows of the
    frame; rows without a target value are in no group. *)
Theorem class_conditional_groups_partition (S : SortKind)
  df target_col analysis_col tcol rows :
  well_formed df ->
  get_column df target_col = Some tcol ->
  class_conditional_distribution df target_col analysis_col = inr rows ->
  exists grp overall,
    rows = grp ++ [overall] /\
    SummaryRow.Target_Level overall = OVERALL /\
    Forall (fun row =>
              (1 <= SummaryRow.Missing row + SummaryRow.Non_Missing row)%nat)
           grp /\
    list_sum (map (fun row => (SummaryRow.Missing row
                               + SummaryRow.Non_Missing row)%nat) grp)
      = count_true is_some (column_keys tcol) /\
    (list_sum (map (fun row => (SummaryRow.Missing row
                                + SummaryRow.Non_Missing row)%nat) grp)
     + count_true (fun ok => negb (is_some ok)) (column_keys tcol)
     = nrows df)%nat.
Proof.
  intros Hwf Ht Hrun.
  destruct (class_conditional_inr_columns _ _ _ _ Hrun)
    as (tcol' & vals & Ht' & Ha).
  rewrite Ht in Ht'. injection Ht' as <-.
  rewrite (class_conditional_rows _ _ _ _ _ _ Ht Ha Hrun).
  assert (Hlen : length (column_keys tcol) = length vals).
  { rewrite column_keys_length, (well_formed_lookup _ _ _ Hwf Ht).
    symmetry. apply (well_formed_lookup _ _ _ Hwf Ha). }
  destruct (group_keys_spec (column_keys tcol)) as (Hs & Hin & Hcov).
  assert (Hsize : forall k,
            (SummaryRow.Missing
               (summary_row target_col (Level k)
                  (group_cells (column_keys tcol) vals k))
             + SummaryRow.Non_Missing
                 (summary_row target_col (Level k)
                    (group_cells (column_keys tcol) vals k)))%nat
            = count_true (in_group k) (column_keys tcol)).
  { intros k. cbn [summary_row SummaryRow.Missing SummaryRow.Non_Missing].
    rewrite count_isnull_notnull. unfold group_cells. now apply group_size. }
  assert (Hsum :
    list_sum (map (fun row => (SummaryRow.Missing row
                               + SummaryRow.Non_Missing row)%nat)
                  (map (fun k => summary_row target_col (Level k)
                                   (group_cells (column_keys tcol) vals k))
                       (group_keys (column_keys tcol))))
    = count_true is_some (column_keys tcol)).
  { rewrite map_map. rewrite (map_ext _ _ Hsize).
    apply sum_over_groups; auto. now apply sorted_keys_distinct. }
  eexists _, _. split; [reflexivity|]. split; [reflexivity|].
  split; [|split; [exact Hsum|]].
  - apply Forall_forall. intros row Hrow. apply in_map_iff in Hrow.
    destruct Hrow as (k & <- & Hk). rewrite Hsize.
    apply (count_true_ge_1 _ _ _ (Some k)); auto.
    simpl. apply key_eqb_refl.
  - rewrite Hsum, count_true_complement, column_keys_length.
    apply (well_formed_lookup _ _ _ Hwf Ht).
Qed.

Lemma class_conditional_row_stats {S : SortKind}
  df target_col analysis_col rows row :
  class_conditional_distribution df target_col analysis_col = inr rows ->
  In row rows ->
  exists x,
    SummaryRow.Non_Missing row = length (dropna_values x) /\
    SummaryRow.Median row = Series_median (dropna_values x) /\
    SummaryRow.Minimum row = Series_min (dropna_values x) /\
    SummaryRow.Maximum row = Series_max (dropna_values x) /\
    SummaryRow.Mean row = Series_mean (dropna_values x) /\
    SummaryRow.Kurtosis row = pandas_kurt (dropna_values x).
Proof.
  intros Hrun Hin.
  destruct (class_conditional_inr_columns _ _ _ _ Hrun)
    as (tcol & vals & Ht & Ha).
  destruct (class_conditional_row_In _ _ _ _ _ _ _ Ht Ha Hrun Hin)
    as (lv & x & -> & _).
  exists x. cbn. rewrite dropna_values_length. repeat split.
Qed.

(** X9: a row without any value of the analysis column (Non Missing = 0)
    has every statistic undefined; a row with at least one value has median,
    minimum, maximum and mean defined. *)
Theorem class_conditional_undefined_iff_no_value (S : SortKind)
  df target_col analysis_col rows row :
  class_conditional_distribution df target_col analysis_col = inr rows ->
  In row rows ->
  (SummaryRow.Non_Missing row = 0%nat ->
   SummaryRow.Median row = None /\ SummaryRow.Minimum row = None /\
   SummaryRow.Maximum row = None /\ SummaryRow.Mean row = None /\
   SummaryRow.Kurtosis row = None) /\
  (SummaryRow.Non_Missing row <> 0%nat ->
   is_some (SummaryRow.Median row) = true /\
   is_some (SummaryRow.Minimum row) = true /\
   is_some (SummaryRow.Maximum row) = true /\
   is_some (SummaryRow.Mean row) = true).
Proof.
  intros Hrun Hin.
  destruct (class_conditional_row_stats _ _ _ _ _ Hrun Hin)
    as (x & -> & -> & -> & -> & -> & ->).
  destruct (dropna_values x) as [|q clean]; split; intros H.
  - repeat split.
  - simpl in H. congruence.
  - simpl in H. discriminate.
  - repeat split; try reflexivity.
    unfold Series_median. now destruct (Nat.even _).
Qed.

(** X10: on a row with at least one value the median lies between the
    minimum and the maximum. *)
Theorem class_conditional_location_order
  (S : SortKind) (L : SortKindLaws S)
  df target_col analysis_col rows row :
  class_conditional_distribution df target_col analysis_col = inr rows ->
  In row rows ->
  SummaryRow.Non_Missing row <> 0%nat ->
  cell_le (SummaryRow.Minimum row) (SummaryRow.Median row) /\
  cell_le (SummaryRow.Median row) (SummaryRow.Maximum row).
Proof.
  intros Hrun Hin Hn.
  destruct (class_conditional_row_stats _ _ _ _ _ Hrun Hin)
    as (x & Hn' & -> & -> & -> & _).
  rewrite Hn' in Hn.
  assert (Hne : dropna_values x <> [])
    by (intros H0; rewrite H0 in Hn; now apply Hn).
  destruct (median_between_extremes _ Hne)
    as (lo & med & hi & -> & -> & -> & H1 & H2).
  simpl. auto.
Qed.


Lemma graded_well_formed : well_formed graded.
Proof. repeat constructor. Qed.

Lemma class_conditional_levels_witness :
  exists rows,
    @class_conditional_distribution stable_sort graded "BAD" "LOAN"
      = inr rows /\
    exists keys,
      map SummaryRow.Target_Level rows = map Level keys ++ [OVERALL] /\
      StronglySorted key_lt keys.
Proof.
  eexists. split; [reflexivity|].
  destruct (class_conditional_levels stable_sort graded "BAD" "LOAN" _ _
              eq_refl eq_refl) as (keys & Hlv & Hs & _).
  exists keys. split; [exact Hlv | exact Hs].
Defined.

Lemma class_conditional_groups_partition_witness :
  exists rows grp overall,
    @class_conditional_distribution stable_sort graded "BAD" "LOAN"
      = inr rows /\
    rows = grp ++ [overall] /\
    list_sum (map (fun row => (SummaryRow.Missing row
                               + SummaryRow.Non_Missing row)%nat) grp)
      = 5%nat.
Proof.
  destruct (class_conditional_groups_partition stable_sort graded
              "BAD" "LOAN" _ _ graded_well_formed eq_refl eq_refl)
    as (grp & overall & Hrows & _ & _ & Hsum & _).
  eexists _, grp, overall. split; [reflexivity|].
  split; [exact Hrows | exact Hsum].
Defined.

Lemma class_conditional_undefined_iff_no_value_witness :
  exists rows row,
    @class_conditional_distribution stable_sort graded "BAD" "LOAN"
      = inr rows /\
    nth_error rows 2 = Some row /\
    SummaryRow.Mean row = None /\ SummaryRow.Kurtosis row = None.
Proof.
  eexists _, _. split; [reflexivity|]. split; [reflexivity|].
  destruct (class_conditional_undefined_iff_no_value stable_sort graded
              "BAD" "LOAN" _ _ eq_refl
              (or_intror (or_intror (or_introl eq_refl)))) as [Hzero _].
  destruct (Hzero eq_refl) as (_ & _ & _ & Hmean & Hkurt).
  split; [exact Hmean | exact Hkurt].
Defined.

Lemma class_conditional_location_order_witness :
  exists rows row,
    @class_conditional_distribution stable_sort graded "BAD" "LOAN"
      = inr rows /\
    nth_error rows 0 = Some row /\
    cell_le (SummaryRow.Minimum row) (SummaryRow.Median row) /\
    cell_le (SummaryRow.Median row) (SummaryRow.Maximum row).
Proof.
  eexists _, _. split; [reflexivity|]. split; [reflexivity|].
  apply (class_conditional_location_order stable_sort stable_sort_laws
           graded "BAD" "LOAN" _ _ eq_refl (or_introl eq_refl)).
  simpl. discriminate.
Defined.


(** ** proc_univariate: the extreme observations, once more *)

Lemma rev_seq k : rev (seq 0 k) = map (fun i => (k - Datatypes.S i)%nat) (seq 0 k).
Proof.
  induction k as [|k IH]; auto.
  replace (rev (seq 0 (Datatypes.S k))) with (k :: rev (seq 0 k))
    by (rewrite seq_S, rev_app_distr; reflexivity).
  rewrite IH. cbn [seq map]. rewrite <- seq_shift, map_map.
  f_equal. lia.
Qed.

Lemma dropna_In (s : Series) i q : In (i, q) (dropna s) -> In (i, Some q) s.
Proof.
  induction s as [|[j [x|]] s IH]; simpl; auto.
  intros [[= <- <-]|H]; auto.
Qed.

Section ExtremesMore.
Context {S : SortKind} {L : SortKindLaws S}.

Lemma Series_sort_values_perm s : Permutation (Series_sort_values s) s.
Proof.
  unfold Series_sort_values.
  rewrite (nargsort_perm true), length_map. now rewrite map_nth_seq.
Qed.

Lemma proc_univariate_extremes data name r :
  proc_univariate data name = inr r ->
  let clean := dropna (to_Series data) in
  let sorted := Series_sort_values clean in
  let entry i := mkExtreme (snd (nth i sorted (0%Z, 0)))
                           (fst (nth i sorted (0%Z, 0))) in
  let len := length clean in
  UnivariateResult.n r = len /\ len <> 0%nat /\ length sorted = len /\
  UnivariateResult.lowest r = map entry (seq 0 (Nat.min 5 len)) /\
  UnivariateResult.highest r =
    rev (map (fun i => entry (len - (i + 1))%nat) (seq 0 (Nat.min 5 len))).
Proof.
  intros Hr.
  destruct (proc_univariate_inr _ _ _ Hr) as (Hne & Hn & _ & _ & _ & Hlo & Hhi).
  cbv zeta in *. rewrite Series_sort_values_length in Hlo, Hhi.
  repeat split; auto.
  - destruct (dropna (to_Series data)); [congruence | discriminate].
  - apply Series_sort_values_length.
Qed.

End ExtremesMore.

(** X12: each list of extremes has min(5, n) entries, n being the number of
    non-missing observations: with fewer than five observations only the
    ones there are get listed. *)
Theorem extremes_have_min_5_n_entries
  (S : SortKind) (L : SortKindLaws S) data name r :
  proc_univariate data name = inr r ->
  length (UnivariateResult.lowest r) = Nat.min 5 (UnivariateResult.n r) /\
  length (UnivariateResult.highest r) = Nat.min 5 (UnivariateResult.n r).
Proof.
  intros Hr.
  destruct (proc_univariate_extremes _ _ _ Hr) as (-> & _ & _ & -> & ->).
  now rewrite length_rev, !length_map, length_seq.
Qed.

(** X13: with at most five observations the two lists of extremes are the
    same list: all the observations in ascending order of value. *)
Theorem extremes_coincide_up_to_5
  (S : SortKind) (L : SortKindLaws S) data name r :
  proc_univariate data name = inr r ->
  (UnivariateResult.n r <= 5)%nat ->
  UnivariateResult.lowest r = UnivariateResult.highest r /\
  map (fun e => (obs e, value e)) (UnivariateResult.lowest r) =
    Series_sort_values (dropna (to_Series data)).
Proof.
  intros Hr Hn.
  destruct (proc_univariate_extremes _ _ _ Hr) as (Hlen & _ & Hsl & -> & ->).
  cbv zeta in *. rewrite Hlen in Hn.
  set (sorted := Series_sort_values (dropna (to_Series data))) in *.
  set (len := length (dropna (to_Series data))) in *.
  replace (Nat.min 5 len) with len by lia.
  split.
  - rewrite <- map_rev, rev_seq, map_map. apply map_ext_in.
    intros i Hi. apply in_seq in Hi.
    replace (len - (len - Datatypes.S i + 1))%nat with i by lia. reflexivity.
  - rewrite map_map. cbn [obs value].
    rewrite (map_ext _ (fun i => nth i sorted (0%Z, 0)))
      by (intros i; now destruct (nth i sorted (0%Z, 0))).
    rewrite <- Hsl. apply map_nth_seq.
Qed.

(** X14: every entry of the two lists is an observation of the input: its
    obs is the label of a row and its value the value on that row. *)
Theorem extremes_are_observations
  (S : SortKind) (L : SortKindLaws S) data name r e :
  proc_univariate data name = inr r ->
  In e (UnivariateResult.lowest r) \/ In e (UnivariateResult.highest r) ->
  In (obs e, Some (value e)) (to_Series data).
Proof.
  intros Hr He.
  destruct (proc_univariate_extremes _ _ _ Hr) as (_ & Hne & Hsl & Hlo & Hhi).
  cbv zeta in *. rewrite Hlo, Hhi in He. clear Hlo Hhi.
  set (sorted := Series_sort_values (dropna (to_Series data))) in *.
  assert (Hentry : exists i, (i < length sorted)%nat /\
            e = mkExtreme (snd (nth i sorted (0%Z, 0)))
                          (fst (nth i sorted (0%Z, 0)))).
  { destruct He as [He|He].
    - apply in_map_iff in He. destruct He as (i & <- & Hi).
      apply in_seq in Hi. exists i. split; [lia | reflexivity].
    - apply in_rev, in_map_iff in He. destruct He as (i & <- & Hi).
      apply in_seq in Hi. eexists. split; [|reflexivity]. lia. }
  destruct Hentry as (i & Hi & ->). cbn [obs value].
  apply dropna_In.
  apply (Permutation_in _ (Series_sort_values_perm _)).
  fold sorted. rewrite <- surjective_pairing. now apply nth_In.
Qed.

(** ** proc_univariate: moments, spread and location *)

Lemma proc_univariate_fields {S : SortKind} data name r :
  proc_univariate data name = inr r ->
  let xs := map snd (dropna (to_Series data)) in
  xs <> [] /\
  UnivariateResult.n r = length xs /\
  UnivariateResult.mean r = Series_mean xs /\
  UnivariateResult.median r = Series_median xs /\
  UnivariateResult.mode r = stats_mode xs /\
  UnivariateResult.variance r = Series_var xs /\
  UnivariateResult.range r =
    cell_map2 Qminus (Series_max xs) (Series_min xs) /\
  UnivariateResult.iqr r =
    cell_map2 Qminus (Series_quantile xs (75 # 100))
                     (Series_quantile xs (25 # 100)) /\
  UnivariateResult.sum_observations r = Qsum xs /\
  UnivariateResult.uncorrected_ss r = Qsum (map (fun x => x * x) xs) /\
  UnivariateResult.corrected_ss r = sum_sq_dev xs /\
  UnivariateResult.sum_weights r = length xs /\
  UnivariateResult.sign_statistic r = length (filter Qgt0_bool xs) /\
  UnivariateResult.variable_name r = name.
Proof.
  unfold proc_univariate.
  destruct (Nat.eqb_spec (length (dropna (to_Series data))) 0) as [|Hne];
    [discriminate|].
  destruct (is_object_dtype data); [discriminate|].
  intros [= <-]. cbv zeta. cbn. rewrite length_map. repeat split.
  intros Hnil. apply Hne. apply (f_equal (@length _)) in Hnil.
  now rewrite length_map in Hnil.
Qed.

Section MinMax.
Context {S : SortKind} {L : SortKindLaws S}.

Lemma np_sort_first_is_min xs m :
  Series_min xs = Some m -> (nth 0 (np_sort xs) 0 == m)%Q.
Proof.
  intros Hm.
  assert (Hne : xs <> []) by (intros Hx; rewrite Hx in Hm; discriminate).
  destruct (np_sort_facts xs Hne) as (Hs & Hpos & Hlen).
  apply Qle_antisym.
  - pose proof (Series_min_In _ _ Hm) as Hin.
    apply (Permutation_in _ (Permutation_sym (np_sort_perm xs))) in Hin.
    destruct (In_nth _ _ 0 Hin) as (j & Hj & <-).
    apply sorted_nth_le; auto. lia.
  - apply (Series_min_le xs); auto.
    apply (Permutation_in _ (np_sort_perm xs)). now apply nth_In.
Qed.

Lemma np_sort_last_is_max xs M :
  Series_max xs = Some M -> (nth (length xs - 1) (np_sort xs) 0 == M)%Q.
Proof.
  intros HM.
  assert (Hne : xs <> []) by (intros Hx; rewrite Hx in HM; discriminate).
  destruct (np_sort_facts xs Hne) as (Hs & Hpos & Hlen).
  apply Qle_antisym.
  - apply (Series_max_ge xs); auto.
    apply (Permutation_in _ (np_sort_perm xs)). apply nth_In. lia.
  - pose proof (Series_max_In _ _ HM) as Hin.
    apply (Permutation_in _ (Permutation_sym (np_sort_perm xs))) in Hin.
    destruct (In_nth _ _ 0 Hin) as (j & Hj & <-).
    apply sorted_nth_le; auto. lia.
Qed.

End MinMax.

(** X15: the first entry of the lowest list carries the minimum of the
    quantile table and the last entry of the highest list its maximum. *)
Theorem extremes_reach_min_and_max
  (S : SortKind) (L : SortKindLaws S) data name r :
  proc_univariate data name = inr r ->
  exists lo hi m M,
    hd_error (UnivariateResult.lowest r) = Some lo /\
    hd_error (rev (UnivariateResult.highest r)) = Some hi /\
    dict_get "0% Min" (UnivariateResult.quantiles r) = Some (Some m) /\
    dict_get "100% Max" (UnivariateResult.quantiles r) = Some (Some M) /\
    (value lo == m)%Q /\ (value hi == M)%Q.
Proof.
  intros Hr.
  destruct (proc_univariate_extremes _ _ _ Hr) as (_ & Hne & Hsl & Hlo & Hhi).
  destruct (proc_univariate_inr _ _ _ Hr) as (_ & _ & _ & _ & Hq & _).
  cbv zeta in *. rewrite Hlo, Hhi, Hq, rev_involutive. clear Hlo Hhi Hq.
  set (clean := dropna (to_Series data)) in *.
  set (xs := map snd clean) in *.
  assert (Hxs : xs <> []).
  { intros Hx. apply Hne. apply (f_equal (@length _)) in Hx.
    unfold xs in Hx. now rewrite length_map in Hx. }
  destruct (Series_min_Some xs Hxs) as [m Hm].
  destruct (Series_max_Some xs Hxs) as [M HM].
  assert (Hsv : forall i, snd (nth i (Series_sort_values clean) (0%Z, 0))
                          = nth i (np_sort xs) 0).
  { intros i. rewrite snd_nth_default, Series_sort_values_values.
    reflexivity. }
  destruct (Nat.min 5 (length clean)) as [|k] eqn:Hk; [lia|].
  eexists _, _, m, M. cbn [seq map hd_error dict_get String.eqb Ascii.eqb
                           Bool.eqb].
  split; [reflexivity|]. split; [reflexivity|].
  rewrite Hm, HM. split; [reflexivity|]. split; [reflexivity|].
  cbn [value]. rewrite !Hsv. split.
  - now apply np_sort_first_is_min.
  - replace (length clean - (0 + 1))%nat with (length xs - 1)%nat
      by (unfold xs; rewrite length_map; lia).
    now apply np_sort_last_is_max.
Qed.

(** X16: range and interquartile range are never negative. *)
Theorem spread_is_nonnegative
  (S : SortKind) (L : SortKindLaws S) data name r :
  proc_univariate data name = inr r ->
  cell_le (Some 0) (UnivariateResult.range r) /\
  cell_le (Some 0) (UnivariateResult.iqr r).
Proof.
  intros Hr.
  destruct (proc_univariate_fields _ _ _ Hr)
    as (Hne & _ & _ & _ & _ & _ & -> & -> & _).
  cbv zeta in *. set (xs := map snd (dropna (to_Series data))) in *.
  destruct (median_between_extremes xs Hne)
    as (lo & med & hi & -> & _ & -> & H1 & H2).
  destruct (Series_quantile_mono xs (25 # 100) (75 # 100) Hne)
    as (q1 & q3 & -> & -> & H13); try lra.
  simpl. split; lra.
Qed.

Lemma dropna_idempotent (s : Series) :
  dropna (map (fun kv => (fst kv, Some (snd kv))) (dropna s)) = dropna s.
Proof.
  induction s as [|[i [q|]] s IH]; simpl; auto. now rewrite IH.
Qed.

(** X18: missing values play no part: the result on a series is the result
    on the series with its missing rows removed. *)
Theorem missing_values_are_ignored (S : SortKind) (s : Series) name :
  proc_univariate (FromSeries s) name =
  proc_univariate
    (FromSeries (map (fun kv => (fst kv, Some (snd kv))) (dropna s))) name.
Proof.
  unfold proc_univariate. cbn [to_Series]. now rewrite dropna_idempotent.
Qed.

(** ** proc_univariate on a constant column *)

Lemma fold_pick_In (p : Q -> Q -> bool) t x :
  In (fold_left (fun best y => if p best y then y else best) t x) (x :: t).
Proof.
  revert x. induction t as [|a t IH]; intros x; simpl; auto.
  destruct (IH (if p x a then a else x)) as [H|H]; auto.
  destruct (p x a); auto.
Qed.

Section Constant.
Context {S : SortKind} {L : SortKindLaws S}.
Variable c : Q.
Variable xs : list Q.
Hypothesis xs_const : Forall (fun x => (x == c)%Q) xs.
Hypothesis xs_nonempty : xs <> [].

Lemma const_np_sort_nth i :
  (i < length (np_sort xs))%nat -> (nth i (np_sort xs) 0 == c)%Q.
Proof.
  intros Hi.
  pose proof (Permutation_Forall (Permutation_sym (np_sort_perm xs)) xs_const)
    as Hs.
  rewrite Forall_forall in Hs. apply Hs. now apply nth_In.
Qed.

Lemma const_median : cell_eq (Series_median xs) (Some c).
Proof.
  rewrite Series_median_Some by auto.
  destruct (np_sort_facts xs xs_nonempty) as (_ & Hpos & Hlen).
  assert (Hhalf : (length xs / 2 < length xs)%nat)
    by (apply Nat.div_lt; lia).
  destruct (Nat.even (length xs)); cbn [cell_eq].
  - rewrite !const_np_sort_nth by lia. field.
  - apply const_np_sort_nth. lia.
Qed.

Lemma const_quantile q :
  (0 <= q)%Q -> (q <= 1)%Q -> cell_eq (Series_quantile xs q) (Some c).
Proof.
  intros H0 H1. rewrite Series_quantile_Some by auto. cbn [cell_eq].
  destruct (np_sort_facts xs xs_nonempty) as (Hs & Hpos & Hlen).
  destruct (virtual_index_range xs q xs_nonempty H0 H1) as [Hmin Hmax].
  destruct (interpolate_bounds _ Hs Hpos _ Hmin Hmax) as (Hlohi & _ & _).
  cbv zeta in Hlohi. unfold interpolate.
  rewrite !const_np_sort_nth by lia. ring.
Qed.

Lemma const_min : cell_eq (Series_min xs) (Some c).
Proof.
  destruct (Series_min_Some xs xs_nonempty) as [m Hm]. rewrite Hm.
  cbn [cell_eq].
  rewrite Forall_forall in xs_const. apply xs_const.
  now apply Series_min_In.
Qed.

Lemma const_max : cell_eq (Series_max xs) (Some c).
Proof.
  destruct (Series_max_Some xs xs_nonempty) as [m Hm]. rewrite Hm.
  cbn [cell_eq].
  rewrite Forall_forall in xs_const. apply xs_const.
  now apply Series_max_In.
Qed.

Lemma const_mode : cell_eq (stats_mode xs) (Some c).
Proof.
  unfold stats_mode.
  destruct (np_sort_facts xs xs_nonempty) as (_ & Hpos & _).
  pose proof (Permutation_Forall (Permutation_sym (np_sort_perm xs)) xs_const)
    as Hs.
  destruct (np_sort xs) as [|x t]; [simpl in Hpos; lia|].
  cbn [cell_eq]. rewrite Forall_forall in Hs. apply Hs.
  apply (fold_pick_In
           (fun best y => (length (filter (Qeq_bool best) xs)
                           <? length (filter (Qeq_bool y) xs))%nat)).
Qed.

End Constant.

(** X19: on a column whose non-missing values all equal c, median, mode
    and all eleven quantiles are c, and range and interquartile range are
    0. *)
Theorem constant_column_statistics
  (S : SortKind) (L : SortKindLaws S) data name r c :
  proc_univariate data name = inr r ->
  Forall (fun kv => (snd kv == c)%Q) (dropna (to_Series data)) ->
  cell_eq (UnivariateResult.median r) (Some c) /\
  cell_eq (UnivariateResult.mode r) (Some c) /\
  cell_eq (UnivariateResult.range r) (Some 0) /\
  cell_eq (UnivariateResult.iqr r) (Some 0) /\
  Forall (fun kv => cell_eq (snd kv) (Some c)) (UnivariateResult.quantiles r).
Proof.
  intros Hr Hconst.
  destruct (proc_univariate_fields _ _ _ Hr)
    as (Hne & _ & _ & -> & -> & _ & -> & -> & _).
  destruct (proc_univariate_inr _ _ _ Hr) as (_ & _ & _ & _ & -> & _).
  cbv zeta in *. set (xs := map snd (dropna (to_Series data))) in *.
  assert (Hxs : Forall (fun x => (x == c)%Q) xs).
  { unfold xs. apply Forall_map. exact Hconst. }
  pose proof (const_min c xs Hxs Hne) as Hmin.
  pose proof (const_max c xs Hxs Hne) as Hmax.
  pose proof (const_median c xs Hxs Hne) as Hmed.
  assert (Hq : forall q, (0 <= q)%Q -> (q <= 1)%Q ->
                         cell_eq (Series_quantile xs q) (Some c))
    by (intros; now apply const_quantile).
  repeat split.
  - exact Hmed.
  - now apply const_mode.
  - destruct (Series_max xs), (Series_min xs); simpl in *; try tauto. lra.
  - pose proof (Hq (75 # 100)) as H3. pose proof (Hq (25 # 100)) as H1.
    destruct (Series_quantile xs (75 # 100)),
             (Series_quantile xs (25 # 100)); simpl in *;
      try (exfalso; (apply H3 || apply H1); lra).
    assert (q == c)%Q by (apply H3; lra).
    assert (q0 == c)%Q by (apply H1; lra). lra.
  - repeat constructor; cbn [snd]; auto; apply Hq; lra.
Qed.

(** ** proc_univariate: the properties above on sample columns *)

Ltac run_proc_univariate Hr Hc :=
  match goal with
  | |- exists r, ?p = inr r /\ _ =>
      let e := fresh "e" in
      destruct p as [e|r] eqn:Hr;
      [ vm_compute in Hr; discriminate
      | pose proof Hr as Hc; vm_compute in Hc; injection Hc as Hc;
        exists r; split; [reflexivity|] ]
  end.

Lemma extremes_have_min_5_n_entries_witness :
  exists r,
    @proc_univariate stable_sort (FromSeries gappy) "x" = inr r /\
    length (UnivariateResult.lowest r) = Nat.min 5 (UnivariateResult.n r) /\
    length (UnivariateResult.highest r) = Nat.min 5 (UnivariateResult.n r).
Proof.
  run_proc_univariate Hr Hc.
  exact (extremes_have_min_5_n_entries stable_sort stable_sort_laws _ _ r Hr).
Defined.

Lemma extremes_coincide_up_to_5_witness :
  exists r,
    @proc_univariate stable_sort (FromSeries gappy) "x" = inr r /\
    (UnivariateResult.n r <= 5)%nat /\
    UnivariateResult.lowest r = UnivariateResult.highest r /\
    map (fun e => (obs e, value e)) (UnivariateResult.lowest r) =
      @Series_sort_values stable_sort (dropna (to_Series (FromSeries gappy))).
Proof.
  run_proc_univariate Hr Hc.
  assert (Hn : (UnivariateResult.n r <= 5)%nat)
    by (rewrite <- Hc; simpl; lia).
  split; [exact Hn|].
  exact (extremes_coincide_up_to_5 stable_sort stable_sort_laws _ _ r Hr Hn).
Defined.

Lemma extremes_are_observations_witness :
  exists r,
    @proc_univariate stable_sort (FromSeries gappy) "x" = inr r /\
    In (mkExtreme 1 12) (UnivariateResult.lowest r) /\
    In (obs (mkExtreme 1 12), Some (value (mkExtreme 1 12)))
       (to_Series (FromSeries gappy)).
Proof.
  run_proc_univariate Hr Hc.
  assert (Hin : In (mkExtreme 1 12) (UnivariateResult.lowest r))
    by (rewrite <- Hc; simpl; auto).
  split; [exact Hin|].
  exact (extremes_are_observations stable_sort stable_sort_laws _ _ r
           (mkExtreme 1 12) Hr (or_introl Hin)).
Defined.

Lemma extremes_reach_min_and_max_witness :
  exists r,
    @proc_univariate stable_sort (FromSeries gappy) "x" = inr r /\
    exists lo hi m M,
      hd_error (UnivariateResult.lowest r) = Some lo /\
      hd_error (rev (UnivariateResult.highest r)) = Some hi /\
      dict_get "0% Min" (UnivariateResult.quantiles r) = Some (Some m) /\
      dict_get "100% Max" (UnivariateResult.quantiles r) = Some (Some M) /\
      (value lo == m)%Q /\ (value hi == M)%Q.
Proof.
  run_proc_univariate Hr Hc.
  exact (extremes_reach_min_and_max stable_sort stable_sort_laws _ _ r Hr).
Defined.

Lemma constant_column_statistics_witness :
  exists r,
    @proc_univariate stable_sort
      (FromList [Some (1 # 10); None; Some (1 # 10); Some (1 # 10)]) "x"
      = inr r /\
    cell_eq (UnivariateResult.median r) (Some (1 # 10)) /\
    cell_eq (UnivariateResult.mode r) (Some (1 # 10)) /\
    cell_eq (UnivariateResult.range r) (Some 0) /\
    cell_eq (UnivariateResult.iqr r) (Some 0) /\
    Forall (fun kv => cell_eq (snd kv) (Some (1 # 10)))
           (UnivariateResult.quantiles r).
Proof.
  run_proc_univariate Hr Hc.
  apply (constant_column_statistics stable_sort stable_sort_laws _ _ r
           (1 # 10) Hr).
  simpl. repeat constructor; reflexivity.
Defined.

Lemma spread_is_nonnegative_witness :
  exists r,
    @proc_univariate stable_sort (FromSeries gappy) "x" = inr r /\
    cell_le (Some 0) (UnivariateResult.range r) /\
    cell_le (Some 0) (UnivariateResult.iqr r).
Proof.
  run_proc_univariate Hr Hc.
  exact (spread_is_nonnegative stable_sort stable_sort_laws _ _ r Hr).
Defined.

(** ** proc_univariate: the sign test *)

Lemma binomial_SS m k :
  binomial (S m) (S k) = (binomial m k + binomial m (S k))%Z.
Proof. reflexivity. Qed.

Lemma binomial_0 m : binomial m 0 = 1%Z.
Proof. destruct m; reflexivity. Qed.

Lemma binomial_nonneg m k : (0 <= binomial m k)%Z.
Proof.
  revert k. induction m as [|m IH]; intros [|k]; simpl; try lia.
  pose proof (IH k). pose proof (IH (S k)). lia.
Qed.

Lemma binomial_above m k : (m < k)%nat -> binomial m k = 0%Z.
Proof.
  revert k. induction m as [|m IH]; intros [|k] Hk; try lia; [reflexivity|].
  rewrite binomial_SS, !IH by lia. reflexivity.
Qed.

Lemma binomial_diag m : binomial m m = 1%Z.
Proof.
  induction m as [|m IH]; [reflexivity|].
  rewrite binomial_SS, IH, binomial_above by lia. reflexivity.
Qed.

Lemma binomial_pos m k : (k <= m)%nat -> (0 < binomial m k)%Z.
Proof.
  revert k. induction m as [|m IH]; intros [|k] Hk; try lia;
    try (rewrite binomial_0; lia).
  rewrite binomial_SS. pose proof (IH k ltac:(lia)).
  pose proof (binomial_nonneg m (S k)). lia.
Qed.

Lemma binomial_sym m k : (k <= m)%nat -> binomial m k = binomial m (m - k).
Proof.
  revert k. induction m as [|m IH]; intros k Hk.
  - now replace k with 0%nat by lia.
  - destruct k as [|k].
    + now rewrite Nat.sub_0_r, binomial_diag, binomial_0.
    + change (S m - S k)%nat with (m - k)%nat.
      destruct (Nat.eq_dec k m) as [->|Hne].
      * now rewrite Nat.sub_diag, binomial_diag, binomial_0.
      * replace (m - k)%nat with (S (m - S k)) by lia.
        rewrite !binomial_SS, (IH k), (IH (S k)) by lia.
        replace (m - k)%nat with (S (m - S k)) by lia. lia.
Qed.

Lemma Zsum_app (l1 l2 : list Z) :
  fold_right Z.add 0%Z (l1 ++ l2) =
  (fold_right Z.add 0 l1 + fold_right Z.add 0 l2)%Z.
Proof. induction l1 as [|a l1 IH]; simpl; lia. Qed.

Lemma binomial_sum_app m a l1 l2 :
  binomial_sum m a (l1 + l2) =
  (binomial_sum m a l1 + binomial_sum m (a + l1) l2)%Z.
Proof.
  unfold binomial_sum. now rewrite seq_app, map_app, Zsum_app.
Qed.

Lemma binomial_sum_cons m a len :
  binomial_sum m a (S len) = (binomial m a + binomial_sum m (S a) len)%Z.
Proof. reflexivity. Qed.

Lemma binomial_sum_snoc m a len :
  binomial_sum m a (S len) =
  (binomial_sum m a len + binomial m (a + len))%Z.
Proof.
  replace (S len) with (len + 1)%nat by lia.
  rewrite binomial_sum_app. unfold binomial_sum at 2. simpl. lia.
Qed.

Lemma binomial_sum_pascal m a len :
  binomial_sum (S m) (S a) len =
  (binomial_sum m a len + binomial_sum m (S a) len)%Z.
Proof.
  revert a. induction len as [|len IH]; intros a; [reflexivity|].
  rewrite !binomial_sum_cons, IH, binomial_SS. lia.
Qed.

Lemma binomial_row_total m : binomial_sum m 0 (S m) = (2 ^ Z.of_nat m)%Z.
Proof.
  induction m as [|m IH]; [reflexivity|].
  rewrite binomial_sum_cons, binomial_sum_pascal, IH, binomial_0.
  assert (Hs : binomial_sum m 1 (S m) = (2 ^ Z.of_nat m - 1)%Z).
  { rewrite binomial_sum_snoc.
    rewrite binomial_sum_cons, binomial_0 in IH.
    rewrite binomial_above by lia. lia. }
  rewrite Hs, Nat2Z.inj_succ, Z.pow_succ_r by lia. lia.
Qed.

Lemma binomial_sum_reflect m k :
  (k <= m)%nat -> binomial_sum m 0 (S k) = binomial_sum m (m - k) (S k).
Proof.
  induction k as [|k IH]; intros Hk.
  - unfold binomial_sum. simpl.
    now rewrite Nat.sub_0_r, binomial_diag, binomial_0.
  - rewrite binomial_sum_snoc, IH by lia.
    rewrite (binomial_sum_cons m (m - S k)).
    replace (S (m - S k)) with (m - k)%nat by lia.
    rewrite (binomial_sym m (0 + S k)) by lia.
    replace (m - (0 + S k))%nat with (m - S k)%nat by lia. lia.
Qed.

(** Twice the lower half of an even row, middle term included, is more
    than the whole row. *)
Lemma binomial_lower_half m k :
  (2 * k = m)%nat -> (2 ^ Z.of_nat m < 2 * binomial_sum m 0 (S k))%Z.
Proof.
  intros Hk. pose proof (binomial_row_total m) as Htot.
  pose proof (binomial_sum_reflect m k ltac:(lia)) as Hrefl.
  replace (S m) with (S k + k)%nat in Htot by lia.
  rewrite binomial_sum_app in Htot.
  replace (m - k)%nat with k in Hrefl by lia.
  rewrite (binomial_sum_cons m k) in Hrefl.
  pose proof (binomial_pos m k ltac:(lia)).
  change (0 + S k)%nat with (S k) in Htot. lia.
Qed.

Lemma half_power_pos n : (0 < (1 # 2) ^ Z.of_nat n)%Q.
Proof. apply Qpower_0_lt. reflexivity. Qed.

Lemma half_power_inverse n :
  ((1 # 2) ^ Z.of_nat n * inject_Z (2 ^ Z.of_nat n) == 1)%Q.
Proof.
  induction n as [|n IH]; [reflexivity|].
  rewrite Nat2Z.inj_succ, Z.pow_succ_r by lia.
  unfold Z.succ. rewrite Qpower_plus by discriminate.
  rewrite inject_Z_mult.
  change ((1 # 2) ^ 1)%Q with (1 # 2)%Q.
  setoid_replace ((1 # 2) ^ Z.of_nat n * (1 # 2)
                  * (inject_Z 2 * inject_Z (2 ^ Z.of_nat n)))%Q
    with ((1 # 2) ^ Z.of_nat n * inject_Z (2 ^ Z.of_nat n))%Q by ring.
  exact IH.
Qed.

Lemma binom_pmf_half i n :
  (i <= n)%nat ->
  (binom_pmf i n (1 # 2)
   == inject_Z (binomial n i) * (1 # 2) ^ Z.of_nat n)%Q.
Proof.
  intros Hi. unfold binom_pmf.
  setoid_replace (1 - (1 # 2))%Q with (1 # 2)%Q by reflexivity.
  replace (Z.of_nat n) with (Z.of_nat i + Z.of_nat (n - i))%Z by lia.
  rewrite Qpower_plus by discriminate. ring.
Qed.

Lemma binom_cdf_half k n :
  (k <= n)%nat ->
  (binom_cdf k n (1 # 2)
   == inject_Z (binomial_sum n 0 (S k)) * (1 # 2) ^ Z.of_nat n)%Q.
Proof.
  intros Hk. unfold binom_cdf, binomial_sum.
  assert (Hall : forall i, In i (seq 0 (S k)) -> (i <= n)%nat)
    by (intros i Hi; apply in_seq in Hi; lia).
  induction (seq 0 (S k)) as [|i l IH].
  - simpl. ring.
  - cbn [map]. unfold Qsum in *. cbn [fold_right].
    rewrite IH by (intros; apply Hall; now right).
    rewrite binom_pmf_half by (apply Hall; now left).
    rewrite inject_Z_plus. ring.
Qed.

(** X20: when the positive observations are exactly half of the
    observations, the two-sided sign-test p-value exceeds 1: the two tails
    then both hold the middle term. *)
Theorem sign_pvalue_above_one_on_ties (S : SortKind) data name r :
  proc_univariate data name = inr r ->
  (2 * UnivariateResult.sign_statistic r = UnivariateResult.n r)%nat ->
  (1 < UnivariateResult.sign_pvalue r)%Q.
Proof.
  intros Hr Hhalf.
  destruct (proc_univariate_fields _ _ _ Hr)
    as (_ & Hn & _ & _ & _ & _ & _ & _ & _ & _ & _ & _ & Hpos & _).
  destruct (proc_univariate_inr _ _ _ Hr) as (_ & _ & _ & Hp & _).
  cbv zeta in *. rewrite Hpos, Hn in Hhalf. rewrite Hp. clear Hp Hpos Hn.
  rewrite <- !(length_map snd (dropna (to_Series data))).
  set (xs := map snd (dropna (to_Series data))) in *.
  set (n := length xs) in *. set (pos := length (filter Qgt0_bool xs)) in *.
  set (k := Nat.min pos (n - pos)).
  assert (Hk : (2 * k = n)%nat) by (unfold k; lia).
  rewrite binom_cdf_half by lia.
  pose proof (half_power_pos n) as Hh.
  pose proof (half_power_inverse n) as Hinv.
  pose proof (binomial_lower_half n k Hk) as Hmore.
  set (A := binomial_sum n 0 (Datatypes.S k)) in *.
  set (h := ((1 # 2) ^ Z.of_nat n)%Q) in *.
  set (T := (2 ^ Z.of_nat n)%Z) in *.
  setoid_replace (2 * (inject_Z A * h))%Q with (inject_Z (2 * A) * h)%Q
    by (rewrite inject_Z_mult; ring).
  setoid_replace 1%Q with (inject_Z T * h)%Q by (rewrite <- Hinv; ring).
  rewrite Qmult_lt_r by exact Hh. now rewrite <- Zlt_Qlt.
Qed.

Lemma sign_pvalue_above_one_on_ties_witness :
  exists r,
    @proc_univariate stable_sort
      (FromList [Some 4; None; Some (-2); Some 1; Some (-7)]) "x" = inr r /\
    (2 * UnivariateResult.sign_statistic r = UnivariateResult.n r)%nat /\
    (1 < UnivariateResult.sign_pvalue r)%Q.
Proof.
  run_proc_univariate Hr Hc.
  assert (Hhalf : (2 * UnivariateResult.sign_statistic r
                   = UnivariateResult.n r)%nat)
    by (rewrite <- Hc; reflexivity).
  split; [exact Hhalf|].
  exact (sign_pvalue_above_one_on_ties stable_sort _ _ r Hr Hhalf).
Defined.

(** ** detect_outliers_isolation_forest: the estimator and the new columns *)

Lemma select_columns_spec cols features X :
  select_columns cols features = inr X ->
  map fst X = features /\
  Forall (fun fc => lookup_column cols (fst fc) = Some (snd fc)) X.
Proof.
  revert X. induction features as [|f rest IH]; simpl; intros X.
  - intros [= <-]. auto.
  - destruct (lookup_column cols f) as [col|] eqn:Hf; [|discriminate].
    destruct (select_columns cols rest) as [e|cs]; [discriminate|].
    intros [= <-]. destruct (IH cs eq_refl) as [Hn Hc].
    simpl. split; [now rewrite Hn | constructor; auto].
Qed.

Lemma select_columns_validated idx cols features :
  forallb (has_column (mkDataFrame idx cols)) features = true <->
  exists X, select_columns cols features = inr X.
Proof.
  induction features as [|f rest IH]; simpl.
  - split; eauto.
  - rewrite andb_true_iff, IH, has_column_lookup. split.
    + intros [[col Hcol] [cs Hcs]]. rewrite Hcol, Hcs. eauto.
    + intros [X HX].
      destruct (lookup_column cols f) as [col|]; [|discriminate].
      destruct (select_columns cols rest) as [e|cs]; [discriminate|]. eauto.
Qed.

Lemma set_column_names idx cols name col :
  map fst (set_column cols name col) =
  map fst cols ++ (if has_column (mkDataFrame idx cols) name then []
                   else [name]).
Proof.
  unfold has_column. cbn [df_columns].
  induction cols as [|[k c0] cols IH]; simpl; [reflexivity|].
  destruct (String.eqb k name) eqn:Hk; simpl.
  - now rewrite app_nil_r.
  - now rewrite IH.
Qed.

Lemma has_column_set_other idx cols name col name' :
  name' <> name ->
  has_column (mkDataFrame idx (set_column cols name col)) name' =
  has_column (mkDataFrame idx cols) name'.
Proof.
  intros Hne.
  destruct (has_column (mkDataFrame idx cols) name') eqn:Hh.
  - apply has_column_lookup. apply has_column_lookup in Hh.
    now rewrite lookup_set_column_other.
  - destruct (has_column (mkDataFrame idx (set_column cols name col)) name')
      eqn:Hs; [|reflexivity].
    apply has_column_lookup in Hs.
    rewrite lookup_set_column_other in Hs by auto.
    apply has_column_lookup with (idx := idx) in Hs. congruence.
Qed.

Lemma take_mapped (A : Type) (g : A -> cell) (a0 : A) (l : list A) indexer :
  (forall i, In i indexer -> (i < length l)%nat) ->
  map (fun i => nth i (map g l) None) indexer =
  map (fun i => g (nth i l a0)) indexer.
Proof.
  intros Hlt. apply map_ext_in. intros i Hi.
  rewrite (nth_indep _ None (g a0)) by (rewrite length_map; auto).
  apply map_nth.
Qed.

(** X21: the call returns a table exactly when every feature is a column of
    the frame, the estimator accepts the matrix of these columns, and it
    gives one score and one prediction per row of the frame. *)
Theorem detect_returns_iff
  (S : SortKind) (E : IsolationForest) w df d features c k r :
  nth_error (heap w) df = Some d ->
  (exists ret w',
     detect_outliers_isolation_forest df features c k r w = (inr ret, w')) <->
  (exists X m,
     select_columns (df_columns d) features = inr X /\
     fit (mkParams c k r) X = inr m /\
     length (decision_function m X) = nrows d /\
     length (predict m X) = nrows d).
Proof.
  intros Hd. split.
  - intros (ret & w' & Hrun).
    destruct (detect_success w df d features c k r ret w' Hd Hrun)
      as (cs & m & _ & Hsel & Hfit & Hlen & Hflen & _).
    cbv zeta in *. unfold to_array in *. cbn [df_columns] in *.
    exists cs, m. repeat split; auto.
    + now rewrite length_map in Hlen.
    + unfold flag_column in Hflen. simpl in Hflen.
      now rewrite length_map in Hflen.
  - intros (X & m & Hsel & Hfit & Hlen & Hflen).
    rewrite (detect_run w df d features c k r Hd).
    assert (Hall : forallb (has_column d) features = true).
    { destruct d as [idx cols]. apply select_columns_validated. eauto. }
    rewrite Hall. cbn [negb]. rewrite Hsel. cbv zeta.
    unfold to_array. cbn [df_columns]. rewrite Hfit.
    unfold setitem, score_column, flag_column.
    cbn [column_length df_index nrows]. rewrite !length_map.
    unfold nrows in Hlen, Hflen. rewrite Hlen, Hflen, !Nat.eqb_refl.
    unfold sort_values, get_column. cbn [df_columns].
    rewrite lookup_set_column_other, lookup_set_column_same by discriminate.
    eauto.
Qed.

(** X22: when every feature is a column, the estimator is fitted exactly
    once, whatever the outcome of the call: with the three parameters
    passed, on the matrix that holds the feature columns of the frame and no
    other, in the order of the feature list. *)
Theorem detect_fits_once_on_features
  (S : SortKind) (E : IsolationForest) w df d features c k r res w' :
  nth_error (heap w) df = Some d ->
  forallb (has_column d) features = true ->
  detect_outliers_isolation_forest df features c k r w = (res, w') ->
  exists X,
    map fst X = features /\
    Forall (fun fc => get_column d (fst fc) = Some (snd fc)) X /\
    trace w' = trace w ++ [Fit (mkParams c k r) X].
Proof.
  intros Hd Hall Hrun.
  rewrite (detect_run w df d features c k r Hd), Hall in Hrun.
  cbn [negb] in Hrun.
  assert (Hsel : exists X, select_columns (df_columns d) features = inr X).
  { destruct d as [idx cols]. now apply (select_columns_validated idx). }
  destruct Hsel as [X HX]. rewrite HX in Hrun. cbv zeta in Hrun.
  unfold to_array in Hrun. cbn [df_columns] in Hrun.
  destruct (select_columns_spec _ _ _ HX) as [Hn Hc].
  exists X. split; [exact Hn|]. split; [exact Hc|].
  repeat match type of Hrun with
         | match ?x with _ => _ end = _ => destruct x
         end;
    injection Hrun as _ <-; reflexivity.
Qed.

(** X23: in the returned table the score of a row is the negated decision
    function of the fitted estimator on that row, and its flag is 1 when the
    estimator predicted -1 for it and 0 otherwise; the two new columns and
    the columns of the input are reordered by one and the same permutation
    of the rows. *)
Theorem detect_scores_and_flags
  (S : SortKind) (L : SortKindLaws S) (E : IsolationForest)
  w df d features c k r ret w' :
  nth_error (heap w) df = Some d ->
  detect_outliers_isolation_forest df features c k r w = (inr ret, w') ->
  exists X m t indexer,
    select_columns (df_columns d) features = inr X /\
    fit (mkParams c k r) X = inr m /\
    nth_error (heap w') ret = Some t /\
    Permutation indexer (seq 0 (nrows d)) /\
    get_column t "outlier_score" =
      Some (Numeric (map (fun i => Some (- nth i (decision_function m X) 0)%Q)
                         indexer)) /\
    get_column t "outlier_flag" =
      Some (Numeric
              (map (fun i => Some (if (nth i (predict m X) 0 =? -1)%Z
                                   then 1 else 0)%Q)
                   indexer)) /\
    forall name col,
      name <> "outlier_score"%string -> name <> "outlier_flag"%string ->
      get_column d name = Some col ->
      get_column t name = Some (column_take indexer col).
Proof.
  intros Hd Hrun.
  destruct (detect_success w df d features c k r ret w' Hd Hrun)
    as (cs & m & _ & Hsel & Hfit & Hlen & Hflen & _ & Ht).
  cbv zeta in *. unfold to_array in *. cbn [df_columns] in *.
  set (scores := map Qopp (decision_function m cs)) in *.
  set (indexer := nargsort false (map Some scores)) in *.
  assert (Hperm : Permutation indexer (seq 0 (nrows d))).
  { rewrite <- Hlen, <- (length_map Some scores). apply nargsort_perm. }
  assert (Hlt : forall i, In i indexer -> (i < nrows d)%nat).
  { intros i Hi. apply (Permutation_in _ Hperm), in_seq in Hi. lia. }
  exists cs, m. eexists. exists indexer.
  split; [exact Hsel|]. split; [exact Hfit|]. split; [exact Ht|].
  split; [exact Hperm|].
  unfold get_column, reset_index_drop, take. cbn [df_columns].
  split; [|split].
  - rewrite lookup_column_map.
    rewrite lookup_set_column_other, lookup_set_column_same by discriminate.
    cbn [option_map column_take]. do 2 f_equal.
    unfold scores. rewrite map_map.
    apply (take_mapped Q (fun s => Some (- s)%Q) 0%Q).
    intros i Hi. unfold scores in Hlen. rewrite length_map in Hlen.
    rewrite Hlen. auto.
  - rewrite lookup_column_map, lookup_set_column_same.
    unfold flag_column. cbn [option_map column_take]. do 2 f_equal.
    apply (take_mapped Z (fun f => Some (if (f =? -1)%Z then 1 else 0)%Q) 0%Z).
    intros i Hi. unfold flag_column in Hflen. simpl in Hflen.
    rewrite length_map in Hflen. rewrite Hflen. auto.
  - intros name col Hs Hf Hcol.
    rewrite lookup_column_map, !lookup_set_column_other by auto.
    unfold get_column in Hcol. now rewrite Hcol.
Qed.

(** X24: the returned table has the columns of the input in their order; a
    column of the input named outlier_score or outlier_flag keeps its place
    (and gets the new values), and a new column is appended for each of the
    two names the input does not have, the score before the flag. *)
Theorem detect_column_names
  (S : SortKind) (E : IsolationForest) w df d features c k r ret w' :
  nth_error (heap w) df = Some d ->
  detect_outliers_isolation_forest df features c k r w = (inr ret, w') ->
  exists t,
    nth_error (heap w') ret = Some t /\
    map fst (df_columns t) =
      map fst (df_columns d)
      ++ (if has_column d "outlier_score" then [] else ["outlier_score"%string])
      ++ (if has_column d "outlier_flag" then [] else ["outlier_flag"%string]).
Proof.
  intros Hd Hrun.
  destruct (detect_success w df d features c k r ret w' Hd Hrun)
    as (cs & m & _ & _ & _ & _ & _ & _ & Ht).
  cbv zeta in Ht. eexists. split; [exact Ht|].
  unfold reset_index_drop, take. cbn [df_columns].
  rewrite map_map. cbn [fst]. destruct d as [idx cols]. cbn [df_columns].
  change (map (fun x : string * column => fst x)) with (@map _ string (@fst string column)).
  rewrite (set_column_names idx), (set_column_names idx).
  rewrite has_column_set_other by discriminate.
  now rewrite app_assoc.
Qed.

Lemma detect_returns_iff_witness :
  exists ret w',
    @detect_outliers_isolation_forest stable_sort toy_forest
      0%nat ["a"%string] (1 # 100) 300%Z 42%Z sample_world = (inr ret, w').
Proof.
  apply (proj2 (detect_returns_iff stable_sort toy_forest sample_world 0%nat
                  sample_frame ["a"%string] (1 # 100) 300%Z 42%Z eq_refl)).
  exists [("a"%string, Numeric [Some 1; Some 5; Some 3])].
  exists (mkParams (1 # 100) 300 42).
  repeat split; reflexivity.
Defined.

Lemma detect_fits_once_on_features_witness :
  exists X,
    map fst X = ["a"%string] /\
    Forall (fun fc => get_column sample_frame (fst fc) = Some (snd fc)) X /\
    trace (snd (@detect_outliers_isolation_forest stable_sort toy_forest
                  0%nat ["a"%string] (1 # 100) 300%Z 42%Z sample_world)) =
      [Fit (mkParams (1 # 100) 300 42) X].
Proof.
  exact (detect_fits_once_on_features stable_sort toy_forest
           sample_world 0%nat sample_frame ["a"%string] (1 # 100) 300%Z 42%Z
           (inr 5%nat)
           (snd (@detect_outliers_isolation_forest stable_sort toy_forest
                   0%nat ["a"%string] (1 # 100) 300%Z 42%Z sample_world))
           eq_refl eq_refl eq_refl).
Defined.

Lemma detect_scores_and_flags_witness :
  exists t indexer,
    nth_error
      (heap (snd (@detect_outliers_isolation_forest stable_sort toy_forest
                    0%nat ["a"%string] (1 # 100) 300%Z 42%Z sample_world)))
      5 = Some t /\
    Permutation indexer [0; 1; 2]%nat /\
    get_column t "outlier_score" =
      Some (Numeric (map (fun i => Some (- nth i [-(1); -(5); -(3)] 0)%Q)
                         indexer)) /\
    get_column t "outlier_flag" =
      Some (Numeric
              (map (fun i => Some (if (nth i [-1; -1; -1] 0 =? -1)%Z
                                   then 1 else 0)%Q)
                   indexer)).
Proof.
  destruct (detect_scores_and_flags stable_sort stable_sort_laws toy_forest
              sample_world 0%nat sample_frame ["a"%string] (1 # 100) 300%Z 42%Z
              5%nat
              (snd (@detect_outliers_isolation_forest stable_sort toy_forest
                      0%nat ["a"%string] (1 # 100) 300%Z 42%Z sample_world))
              eq_refl eq_refl)
    as (X & m & t & indexer & HX & Hm & Ht & Hperm & Hs & Hf & _).
  injection HX as <-. injection Hm as <-.
  exists t, indexer. repeat split; assumption.
Defined.

Lemma detect_column_names_witness :
  exists t,
    nth_error
      (heap (snd (@detect_outliers_isolation_forest stable_sort toy_forest
                    0%nat ["a"%string] (1 # 100) 300%Z 42%Z sample_world)))
      5 = Some t /\
    map fst (df_columns t) = ["a"; "b"; "outlier_score"; "outlier_flag"]%string.
Proof.
  destruct (detect_column_names stable_sort toy_forest
              sample_world 0%nat sample_frame ["a"%string] (1 # 100) 300%Z 42%Z
              5%nat
              (snd (@detect_outliers_isolation_forest stable_sort toy_forest
                      0%nat ["a"%string] (1 # 100) 300%Z 42%Z sample_world))
              eq_refl eq_refl)
    as (t & Ht & Hn).
  exists t. split; [exact Ht | exact Hn].
Defined.

(** ** stat_explore against proc_univariate *)

(** X25: for a numeric column of a frame with distinct column names, the
    row of stat_explore and the result of proc_univariate on that column
    carry the same number of observations, mean, median, kurtosis, minimum
    and maximum. *)
Theorem stat_explore_row_matches_proc_univariate (S : SortKind)
  df role statrows srow col vals name r :
  NoDup (map fst (df_columns df)) ->
  well_formed df ->
  stat_explore df role = inr statrows ->
  In srow statrows -> StatRow.Variable_ srow = col ->
  get_column df col = Some (Numeric vals) ->
  proc_univariate (FromSeries (combine (df_index df) vals)) name = inr r ->
  UnivariateResult.n r = StatRow.Non_Missing srow /\
  UnivariateResult.mean r = StatRow.Mean srow /\
  UnivariateResult.median r = StatRow.Median srow /\
  UnivariateResult.kurtosis r = StatRow.Kurtosis srow /\
  dict_get "0% Min" (UnivariateResult.quantiles r)
    = Some (StatRow.Minimum srow) /\
  dict_get "100% Max" (UnivariateResult.quantiles r)
    = Some (StatRow.Maximum srow).
Proof.
  intros Hnd Hwf Hse Hsin Hname Hcol Hr.
  destruct (Forall2_In_r _ _ _ _ _ _ (stat_explore_rows df role statrows Hse)
              Hsin)
    as ([name' vals'] & Hkv & Hn & _ & -> & _ & -> & -> & -> & -> & ->).
  cbn [fst snd] in *.
  apply select_numeric_In in Hkv. rewrite <- Hn, Hname in Hkv.
  apply (lookup_column_NoDup _ _ _ Hnd) in Hkv.
  unfold get_column in Hcol. rewrite Hcol in Hkv. injection Hkv as <-.
  pose proof (well_formed_lookup _ _ _ Hwf Hcol) as Hlen.
  destruct (proc_univariate_fields _ _ _ Hr)
    as (_ & -> & -> & -> & _).
  destruct (proc_univariate_inr _ _ _ Hr) as (_ & _ & -> & _ & -> & _).
  cbv zeta. cbn [to_Series].
  rewrite (dropna_combine (df_index df) vals) by (symmetry; exact Hlen).
  repeat split.
Qed.

Lemma stat_explore_row_matches_proc_univariate_witness :
  exists statrows srow r,
    @stat_explore stable_sort graded None = inr statrows /\
    nth_error statrows 1 = Some srow /\
    @proc_univariate stable_sort
      (FromSeries (combine (df_index graded)
                     [Some 30; Some 10; Some 70; None; None; Some 20]))
      "LOAN" = inr r /\
    UnivariateResult.mean r = StatRow.Mean srow /\
    UnivariateResult.kurtosis r = StatRow.Kurtosis srow.
Proof.
  eexists _, _.
  destruct (@proc_univariate stable_sort
              (FromSeries (combine (df_index graded)
                             [Some 30; Some 10; Some 70; None; None; Some 20]))
              "LOAN") as [e|r] eqn:Hr; [vm_compute in Hr; discriminate|].
  exists r. split; [reflexivity|]. split; [reflexivity|].
  split; [reflexivity|].
  assert (Hnd : NoDup (map fst (df_columns graded))).
  { simpl. repeat constructor; simpl; intuition discriminate. }
  destruct (stat_explore_row_matches_proc_univariate stable_sort graded None
              _ _ "LOAN"%string _ "LOAN"%string r Hnd graded_well_formed
              eq_refl (or_intror (or_introl eq_refl)) eq_refl eq_refl Hr)
    as (_ & Hmean & _ & Hkurt & _).
  split; [exact Hmean | exact Hkurt].
Defined.
